(** * HFactor: the kernel primitives of the basis-matrix factorization

    A shallow embedding of the in-line members of [class HFactor]
    (util/HFactor.h): the column-wise and row-wise kernel stores
    ([colInsert], [colStoreN], [colFixMax], [colDelete], [rowInsert],
    [rowDelete]) and the count-bucket lists ([clinkAdd], [clinkDel],
    [rlinkAdd], [rlinkDel]).  The members that the header only declares
    (the pivot search, the setters, [update]) are defined in
    util/HFactor.cpp; where a statement needs one, it is modelled from the
    written specification and marked so.

    Conventions of the embedding.
    - [HighsInt] is a signed C++ integer, whose width is fixed outside the
      header.  Signed overflow is undefined in C++, so there is no
      wrap-around to write out: values are [Z], and the statements are
      about executions in which no [HighsInt] operation overflows.  In a
      well-formed kernel every value computed is an index into, or a count
      bounded by the size of, a vector.
    - [double] is the primitive binary64 type [float]; [fabs] is [abs],
      [<] is [<?], [>=] is [<=?] with swapped operands, and [std::max a b]
      is "[b] if [a < b], else [a]".
    - [std::vector<T>] is [list T]; [v[i]] outside [0 .. size-1] is
      undefined behaviour and is modelled as the fault [OutOfBounds].
    - [assert] is modelled as compiled in: a failed assertion is the
      fault [AssertionFailed].
    - Every vector element read or written costs one tick, so that the
      number of memory accesses of a primitive can be stated.

    A second part embeds lp_data/HighsInfo.h: the info records and the
    constructors and assignment operators of [class HighsInfo]. *)

From Stdlib Require Import ZArith Lia Bool Floats.
From stdpp Require Import base tactics option list relations strings gmap.

Local Open Scope Z_scope.

(** ** Faults, results and the access counter *)

Inductive fault : Type :=
  | OutOfBounds       (* a vector indexed outside its size *)
  | AssertionFailed.  (* [assert(1 == 0)] reached *)

(** The outcome of a primitive: its value and the number of vector
    elements it read or wrote, or the fault that stopped it. *)
Inductive result (A : Type) : Type :=
  | Ok (a : A) (ticks : nat)
  | Fault (f : fault).
Arguments Ok {A} a ticks.
Arguments Fault {A} f.

#[global] Instance result_ret : MRet result := fun A a => Ok a 0.
#[global] Instance result_bind : MBind result := fun A B k m =>
  match m with
  | Ok a n => match k a with
              | Ok b n' => Ok b (n + n')
              | Fault f => Fault f
              end
  | Fault f => Fault f
  end.

(** The value of an outcome, its cost forgotten. *)
Definition value {A} (m : result A) : option A :=
  match m with Ok a _ => Some a | Fault _ => None end.

(** ** Vectors: [v[i]] and [v[i] = x] *)

(** [vat v i] is the element at index [i], when [i] is in range. *)
Definition vat {A} (v : list A) (i : Z) : option A :=
  if decide (0 <= i) then v !! Z.to_nat i else None.

Definition vupd {A} (v : list A) (i : Z) (x : A) : list A :=
  <[Z.to_nat i := x]> v.

Definition vget {A} (v : list A) (i : Z) : result A :=
  match vat v i with
  | Some x => Ok x 1
  | None => Fault OutOfBounds
  end.

Definition vset {A} (v : list A) (i : Z) (x : A) : result (list A) :=
  match vat v i with
  | Some _ => Ok (vupd v i x) 1
  | None => Fault OutOfBounds
  end.

(** [std::max(a, b)] on doubles: [(a < b) ? b : a]. *)
Definition fmax (a b : float) : float := if (a <? b)%float then b else a.

(** ** The state of the engine

    The members of [class HFactor] that the in-line primitives touch,
    grouped as the class groups them. *)

(** "Kernel matrix": the column-wise active kernel. *)
Record KernelCols : Type := {
  mc_start : list Z;
  mc_count_a : list Z;
  mc_count_n : list Z;
  mc_space : list Z;
  mc_index : list Z;
  mc_value : list float;
  mc_min_pivot : list float
}.

(** "Row wise kernel matrix". *)
Record KernelRows : Type := {
  mr_start : list Z;
  mr_count : list Z;
  mr_index : list Z
}.

(** "Count link list": [*_link_first], [*_link_next], [*_link_last]. *)
Record CountLinks : Type := {
  link_first : list Z;
  link_next : list Z;
  link_last : list Z
}.

Record HFactor : Type := {
  pivot_threshold : float;
  pivot_tolerance : float;
  mc : KernelCols;
  mr : KernelRows;
  col_link : CountLinks;
  row_link : CountLinks;
  u_pivot_value : list float
}.

Definition set_mc (s : HFactor) (k : KernelCols) : HFactor :=
  {| pivot_threshold := pivot_threshold s; pivot_tolerance := pivot_tolerance s;
     mc := k; mr := mr s; col_link := col_link s; row_link := row_link s;
     u_pivot_value := u_pivot_value s |}.

Definition set_mr (s : HFactor) (k : KernelRows) : HFactor :=
  {| pivot_threshold := pivot_threshold s; pivot_tolerance := pivot_tolerance s;
     mc := mc s; mr := k; col_link := col_link s; row_link := row_link s;
     u_pivot_value := u_pivot_value s |}.

Definition set_col_link (s : HFactor) (l : CountLinks) : HFactor :=
  {| pivot_threshold := pivot_threshold s; pivot_tolerance := pivot_tolerance s;
     mc := mc s; mr := mr s; col_link := l; row_link := row_link s;
     u_pivot_value := u_pivot_value s |}.

Definition set_row_link (s : HFactor) (l : CountLinks) : HFactor :=
  {| pivot_threshold := pivot_threshold s; pivot_tolerance := pivot_tolerance s;
     mc := mc s; mr := mr s; col_link := col_link s; row_link := l;
     u_pivot_value := u_pivot_value s |}.

Definition col_link_first (s : HFactor) := link_first (col_link s).
Definition col_link_next (s : HFactor) := link_next (col_link s).
Definition col_link_last (s : HFactor) := link_last (col_link s).
Definition row_link_first (s : HFactor) := link_first (row_link s).
Definition row_link_next (s : HFactor) := link_next (row_link s).
Definition row_link_last (s : HFactor) := link_last (row_link s).

(** ** The column-wise kernel primitives *)

Section KernelPrimitives.

(** [kHighsTiny] is declared in lp_data/HConst.h. *)
Variable kHighsTiny : float.

(** [colInsert]: the assertion guards the insertion; then
    [iput = mc_start[iCol] + mc_count_a[iCol]++]. *)
Definition colInsert (s : HFactor) (iCol iRow : Z) (value : float)
  : result HFactor :=
  if (abs value <? kHighsTiny)%float then Fault AssertionFailed
  else
    start ← vget (mc_start (mc s)) iCol;
    count ← vget (mc_count_a (mc s)) iCol;
    count_a ← vset (mc_count_a (mc s)) iCol (count + 1);
    let iput := start + count in
    index ← vset (mc_index (mc s)) iput iRow;
    values ← vset (mc_value (mc s)) iput value;
    mret (set_mc s {| mc_start := mc_start (mc s); mc_count_a := count_a;
                      mc_count_n := mc_count_n (mc s);
                      mc_space := mc_space (mc s);
                      mc_index := index; mc_value := values;
                      mc_min_pivot := mc_min_pivot (mc s) |}).

End KernelPrimitives.

(** [colStoreN]: [iput = mc_start[iCol] + mc_space[iCol] - (++mc_count_n[iCol])]. *)
Definition colStoreN (s : HFactor) (iCol iRow : Z) (value : float)
  : result HFactor :=
  start ← vget (mc_start (mc s)) iCol;
  space ← vget (mc_space (mc s)) iCol;
  count ← vget (mc_count_n (mc s)) iCol;
  count_n ← vset (mc_count_n (mc s)) iCol (count + 1);
  let iput := start + space - (count + 1) in
  index ← vset (mc_index (mc s)) iput iRow;
  values ← vset (mc_value (mc s)) iput value;
  mret (set_mc s {| mc_start := mc_start (mc s); mc_count_a := mc_count_a (mc s);
                    mc_count_n := count_n; mc_space := mc_space (mc s);
                    mc_index := index; mc_value := values;
                    mc_min_pivot := mc_min_pivot (mc s) |}).

(** The loop of [colFixMax]: [n] iterations from slot [k], each reading
    [mc_value[k]].  The bound [mc_start[iCol] + mc_count_a[iCol]] does not
    change while the loop runs, so it is read once. *)
Fixpoint colFixMax_loop (values : list float) (n : nat) (k : Z)
    (max_value : float) : result float :=
  match n with
  | O => mret max_value
  | S n' =>
      v ← vget values k;
      colFixMax_loop values n' (k + 1) (fmax max_value (abs v))
  end.

Definition colFixMax (s : HFactor) (iCol : Z) : result HFactor :=
  start ← vget (mc_start (mc s)) iCol;
  count ← vget (mc_count_a (mc s)) iCol;
  max_value ← colFixMax_loop (mc_value (mc s)) (Z.to_nat count) start 0%float;
  min_pivot ← vset (mc_min_pivot (mc s)) iCol
                   (max_value * pivot_threshold s)%float;
  mret (set_mc s {| mc_start := mc_start (mc s); mc_count_a := mc_count_a (mc s);
                    mc_count_n := mc_count_n (mc s); mc_space := mc_space (mc s);
                    mc_index := mc_index (mc s); mc_value := mc_value (mc s);
                    mc_min_pivot := min_pivot |}).

(** [while (index[idel] != x) idel++]: the scan has no bound of its own;
    it stops at the first slot from [idel] on that holds [x], and leaving
    the vector is the fault.  [rest] is the vector from slot [idel] on. *)
Fixpoint scan_from (rest : list Z) (x : Z) (idel : Z) : result Z :=
  match rest with
  | [] => Fault OutOfBounds
  | y :: rest' =>
      if decide (y = x) then Ok idel 1
      else match scan_from rest' x (idel + 1) with
           | Ok r n => Ok r (S n)
           | Fault f => Fault f
           end
  end.

Definition scan (index : list Z) (x : Z) (idel : Z) : result Z :=
  if decide (0 <= idel) then scan_from (drop (Z.to_nat idel) index) x idel
  else Fault OutOfBounds.

Definition colDelete (s : HFactor) (iCol iRow : Z) : result (float * HFactor) :=
  mc_count_a_iCol_og ← vget (mc_count_a (mc s)) iCol;
  start ← vget (mc_start (mc s)) iCol;
  count ← vget (mc_count_a (mc s)) iCol;
  count_a ← vset (mc_count_a (mc s)) iCol (count - 1);
  let imov := start + (count - 1) in
  idel ← scan (mc_index (mc s)) iRow start;
  pivot_multiplier ← vget (mc_value (mc s)) idel;
  moved_index ← vget (mc_index (mc s)) imov;
  index ← vset (mc_index (mc s)) idel moved_index;
  moved_value ← vget (mc_value (mc s)) imov;
  values ← vset (mc_value (mc s)) idel moved_value;
  mret (pivot_multiplier,
        set_mc s {| mc_start := mc_start (mc s); mc_count_a := count_a;
                    mc_count_n := mc_count_n (mc s); mc_space := mc_space (mc s);
                    mc_index := index; mc_value := values;
                    mc_min_pivot := mc_min_pivot (mc s) |}).

(** ** The row-wise kernel primitives *)

Definition rowInsert (s : HFactor) (iCol iRow : Z) : result HFactor :=
  start ← vget (mr_start (mr s)) iRow;
  count ← vget (mr_count (mr s)) iRow;
  counts ← vset (mr_count (mr s)) iRow (count + 1);
  let iput := start + count in
  index ← vset (mr_index (mr s)) iput iCol;
  mret (set_mr s {| mr_start := mr_start (mr s); mr_count := counts;
                    mr_index := index |}).

Definition rowDelete (s : HFactor) (iCol iRow : Z) : result HFactor :=
  start ← vget (mr_start (mr s)) iRow;
  count ← vget (mr_count (mr s)) iRow;
  counts ← vset (mr_count (mr s)) iRow (count - 1);
  let imov := start + (count - 1) in
  idel ← scan (mr_index (mr s)) iCol start;
  moved_index ← vget (mr_index (mr s)) imov;
  index ← vset (mr_index (mr s)) idel moved_index;
  mret (set_mr s {| mr_start := mr_start (mr s); mr_count := counts;
                    mr_index := index |}).

(** ** The count-bucket lists

    [clinkAdd]/[clinkDel] and [rlinkAdd]/[rlinkDel] are the same code over
    the [col_link_*] and the [row_link_*] vectors; [linkAdd] and [linkDel]
    are that code over either triple. *)

Definition linkAdd (l : CountLinks) (index count : Z) : result CountLinks :=
  mover ← vget (link_first l) count;
  last1 ← vset (link_last l) index (-2 - count);
  next1 ← vset (link_next l) index mover;
  first1 ← vset (link_first l) count index;
  last2 ← (if decide (0 <= mover) then vset last1 mover index else mret last1);
  mret {| link_first := first1; link_next := next1; link_last := last2 |}.

Definition linkDel (l : CountLinks) (index : Z) : result CountLinks :=
  xlast ← vget (link_last l) index;
  xnext ← vget (link_next l) index;
  '(first1, next1) ←
    (if decide (0 <= xlast)
     then next1 ← vset (link_next l) xlast xnext; mret (link_first l, next1)
     else first1 ← vset (link_first l) (- xlast - 2) xnext;
          mret (first1, link_next l));
  last1 ← (if decide (0 <= xnext) then vset (link_last l) xnext xlast
           else mret (link_last l));
  mret {| link_first := first1; link_next := next1; link_last := last1 |}.

Definition clinkAdd (s : HFactor) (index count : Z) : result HFactor :=
  l ← linkAdd (col_link s) index count; mret (set_col_link s l).

Definition clinkDel (s : HFactor) (index : Z) : result HFactor :=
  l ← linkDel (col_link s) index; mret (set_col_link s l).

Definition rlinkAdd (s : HFactor) (index count : Z) : result HFactor :=
  l ← linkAdd (row_link s) index count; mret (set_row_link s l).

Definition rlinkDel (s : HFactor) (index : Z) : result HFactor :=
  l ← linkDel (row_link s) index; mret (set_row_link s l).

(** ** Threshold pivoting

    The pivot search ([buildKernel], [findPivotColSearch],
    [findPivotRowSearch]) is defined in util/HFactor.cpp; the header only
    declares it.  What follows is its acceptance test as the written
    specification gives it. *)

Definition set_u_pivot_value (s : HFactor) (u : list float) : HFactor :=
  {| pivot_threshold := pivot_threshold s; pivot_tolerance := pivot_tolerance s;
     mc := mc s; mr := mr s; col_link := col_link s; row_link := row_link s;
     u_pivot_value := u |}.

(** The live entry [(iRow, jCol)] of the kernel: its slot and its value,
    found as [colDelete] finds it, when it is inside the live span. *)
Definition kernel_entry (s : HFactor) (iRow jCol : Z) : option (Z * float) :=
  start ← vat (mc_start (mc s)) jCol;
  count ← vat (mc_count_a (mc s)) jCol;
  k ← value (scan (mc_index (mc s)) iRow start);
  if decide (k < start + count)
  then v ← vat (mc_value (mc s)) k; Some (k, v)
  else None.

(** Modelled from the spec: the acceptance test of the pivot search, which
    is not in the header.  "A candidate column j is acceptable if the entry
    (i, j) it proposes satisfies |v| >= mc_min_pivot[j]." *)
Definition acceptablePivot (s : HFactor) (iRow jCol : Z) : bool :=
  match kernel_entry s iRow jCol, vat (mc_min_pivot (mc s)) jCol with
  | Some (_, v), Some min_pivot => (min_pivot <=? abs v)%float
  | _, _ => false
  end.

(** Modelled from the spec: choosing the kernel pivot [(iRow, jCol)], which
    is not in the header.  An acceptable candidate is recorded as the next
    entry of [u_pivot_value] ("record the pivot in u_pivot_*",
    "u_pivot_value[k] = the pivot value"); a candidate that is not
    acceptable is not chosen, and neither is one below [pivot_tolerance]
    ("an otherwise-winning candidate below this tolerance is rejected as
    if no pivot existed"). *)
Definition kernelPivot (s : HFactor) (iRow jCol : Z) : option HFactor :=
  if acceptablePivot s iRow jCol then
    '(_, v) ← kernel_entry s iRow jCol;
    if (pivot_tolerance s <=? abs v)%float
    then Some (set_u_pivot_value s (u_pivot_value s ++ [v]))
    else None
  else None.

(** The values of the [count] slots from [start] on. *)
Definition live_values (s : HFactor) (start count : Z) : list float :=
  take (Z.to_nat count) (drop (Z.to_nat start) (mc_value (mc s))).

(** [m] is the maximum of [|v|] over [vs], and 0 when there is nothing
    above 0: no [|v|] exceeds [m], and [m] is 0 or one of the [|v|]. *)
Definition col_abs_max (m : float) (vs : list float) : Prop :=
  (forall v, v ∈ vs -> (m <? abs v)%float = false) /\
  (m = 0%float \/ exists v, v ∈ vs /\ m = abs v).

(** The column store after [colFixMax] has set [mc_min_pivot[iCol]]. *)
Definition col_fixed (s : HFactor) (iCol : Z) (min_pivot : float) : HFactor :=
  set_mc s {| mc_start := mc_start (mc s); mc_count_a := mc_count_a (mc s);
              mc_count_n := mc_count_n (mc s); mc_space := mc_space (mc s);
              mc_index := mc_index (mc s); mc_value := mc_value (mc s);
              mc_min_pivot := vupd (mc_min_pivot (mc s)) iCol min_pivot |}.

(** ** The pivot setters and [update]

    [setPivotThreshold], [setMinAbsPivot] and [update] are declared in the
    header and defined in util/HFactor.cpp; the bounds [kMinPivot*],
    [kMaxPivot*] and the values of [hint] are declared in
    lp_data/HConst.h.  What follows is their behaviour as the written
    specification gives it. *)

Definition set_pivot_threshold (s : HFactor) (v : float) : HFactor :=
  {| pivot_threshold := v; pivot_tolerance := pivot_tolerance s;
     mc := mc s; mr := mr s; col_link := col_link s; row_link := row_link s;
     u_pivot_value := u_pivot_value s |}.

Definition set_pivot_tolerance (s : HFactor) (v : float) : HFactor :=
  {| pivot_threshold := pivot_threshold s; pivot_tolerance := v;
     mc := mc s; mr := mr s; col_link := col_link s; row_link := row_link s;
     u_pivot_value := u_pivot_value s |}.

(** Modelled from the spec: the range test of the two setters, whose
    bodies and bounds are not in the header.  "accept value in (0, 0.5]". *)
Definition pivot_value_accepted (v : float) : bool :=
  (0 <? v)%float && (v <=? 0.5)%float.

(** Modelled from the spec: [setPivotThreshold], whose body is not in the
    header.  "SetPivotThreshold(tau) -- accept value in (0, 0.5]; returns
    whether accepted." *)
Definition setPivotThreshold (s : HFactor) (new_pivot_threshold : float)
    : bool * HFactor :=
  if pivot_value_accepted new_pivot_threshold
  then (true, set_pivot_threshold s new_pivot_threshold)
  else (false, s).

(** Modelled from the spec: [setMinAbsPivot], whose body is not in the
    header.  "SetMinAbsPivot(sigma) -- accept value in (0, 0.5]; returns
    whether accepted." *)
Definition setMinAbsPivot (s : HFactor) (new_pivot_tolerance : float)
    : bool * HFactor :=
  if pivot_value_accepted new_pivot_tolerance
  then (true, set_pivot_tolerance s new_pivot_tolerance)
  else (false, s).

(** Modelled from the spec: the [HVector] of util/HVector.h, of which the
    header only passes pointers.  "A dense array of dimension m, a list of
    indices of nonzeros, a count, and a flag indicating whether the index
    list is trustworthy." *)
Record HVector : Type := {
  hv_count : Z;
  hv_index : list Z;
  hv_array : list float;
  hv_packed : bool
}.

Section Update.

(** The value of [*hint] that asks for reinversion. *)
Variable kHintReinvert : Z.

(** The update rule of the engine's [update_method] ([updateFT],
    [updatePF], [updateMPF] or [updateAPF], all defined in
    util/HFactor.cpp): the state and the hint it leaves. *)
Variable incorporate : HFactor -> HVector -> HVector -> Z -> Z -> HFactor * Z.

(** Modelled from the spec: [update], whose body is not in the header.
    "Pivot validity check: |aq[iRow]| >= pivot_tolerance; otherwise set
    hint to reinvert and skip the in-place modification." *)
Definition update (s : HFactor) (aq ep : HVector) (iRow hint : Z)
    : result (HFactor * Z) :=
  pivot ← vget (hv_array aq) iRow;
  if (pivot_tolerance s <=? abs pivot)%float
  then mret (incorporate s aq ep iRow hint)
  else mret (s, kHintReinvert).

End Update.

(** ** A small kernel

    The 3 x 3 kernel
<<
        2 1 .
        1 3 .
        4 . 5
>>
    stored column-wise and row-wise with spare room after each span, and
    its columns and rows linked in the buckets of their counts. *)
Definition kernel3 : HFactor :=
  {| pivot_threshold := 0.5%float;
     pivot_tolerance := 0x1p-33%float;
     mc := {| mc_start := [0; 5; 9];
              mc_count_a := [3; 2; 1];
              mc_count_n := [0; 0; 0];
              mc_space := [5; 4; 3];
              mc_index := [0; 1; 2; -1; -1;  0; 1; -1; -1;  2; -1; -1];
              mc_value := [2; 1; 4; 0; 0;  1; 3; 0; 0;  5; 0; 0]%float;
              mc_min_pivot := [2; 1.5; 2.5]%float |};
     mr := {| mr_start := [0; 4; 8];
              mr_count := [2; 2; 2];
              mr_index := [0; 1; -1; -1;  0; 1; -1; -1;  0; 2; -1; -1] |};
     col_link := {| link_first := [-1; 2; 1; 0];
                    link_next := [-1; -1; -1];
                    link_last := [-5; -4; -3] |};
     row_link := {| link_first := [-1; -1; 2; -1];
                    link_next := [-1; 0; 1];
                    link_last := [1; 2; -4] |};
     u_pivot_value := [] |}.

(** A drop tolerance for the examples: the double nearest to 1e-14. *)
Definition tiny14 : float := 0x1.6849b86a12b9bp-47%float.

(** ** The vocabulary of the statements

    The states the primitives leave, the spans and views of the kernel, the
    chains of the count-bucket lists, and the examples. *)

(** The column store after [colInsert] has put [(iRow, value)] in slot
    [iput] of column [iCol], whose count was [count]. *)
Definition col_inserted (s : HFactor) (iCol iRow iput count : Z)
    (value : float) : HFactor :=
  set_mc s {| mc_start := mc_start (mc s);
              mc_count_a := vupd (mc_count_a (mc s)) iCol (count + 1);
              mc_count_n := mc_count_n (mc s);
              mc_space := mc_space (mc s);
              mc_index := vupd (mc_index (mc s)) iput iRow;
              mc_value := vupd (mc_value (mc s)) iput value;
              mc_min_pivot := mc_min_pivot (mc s) |}.

(** The column store after [colDelete] has overwritten slot [idel] of
    column [iCol], whose count was [count], with the entry
    [(moved_index, moved_value)]. *)
Definition col_deleted (s : HFactor) (iCol idel count moved_index : Z)
    (moved_value : float) : HFactor :=
  set_mc s {| mc_start := mc_start (mc s);
              mc_count_a := vupd (mc_count_a (mc s)) iCol (count - 1);
              mc_count_n := mc_count_n (mc s);
              mc_space := mc_space (mc s);
              mc_index := vupd (mc_index (mc s)) idel moved_index;
              mc_value := vupd (mc_value (mc s)) idel moved_value;
              mc_min_pivot := mc_min_pivot (mc s) |}.

Definition row_deleted (s : HFactor) (iRow idel count moved_index : Z)
    : HFactor :=
  set_mr s {| mr_start := mr_start (mr s);
              mr_count := vupd (mr_count (mr s)) iRow (count - 1);
              mr_index := vupd (mr_index (mr s)) idel moved_index |}.

(** Column [iCol] starts at [start], has [count] live entries, and its
    live span lies inside both arena vectors. *)
Definition col_span (s : HFactor) (iCol start count : Z) : Prop :=
  vat (mc_start (mc s)) iCol = Some start /\
  vat (mc_count_a (mc s)) iCol = Some count /\
  0 <= start /\
  start + count <= Z.of_nat (length (mc_index (mc s))) /\
  start + count <= Z.of_nat (length (mc_value (mc s))).

Definition row_span (s : HFactor) (iRow start count : Z) : Prop :=
  vat (mr_start (mr s)) iRow = Some start /\
  vat (mr_count (mr s)) iRow = Some count /\
  0 <= start /\
  start + count <= Z.of_nat (length (mr_index (mr s))).

(** The running maximum of the loop, as a fold. *)
Definition abs_max_from (m0 : float) (vs : list float) : float :=
  fold_left (fun m v => fmax m (abs v)) vs m0.

Definition Zsum (l : list Z) : Z := foldr Z.add 0 l.

(** [Σ mc_count_a[j]] and [Σ mr_count[i]]. *)
Definition col_count_sum (s : HFactor) : Z := Zsum (mc_count_a (mc s)).
Definition row_count_sum (s : HFactor) : Z := Zsum (mr_count (mr s)).

(** The indices stored in the [count] slots from [start] on. *)
Definition span_entries (index : list Z) (start count : Z) : list Z :=
  take (Z.to_nat count) (drop (Z.to_nat start) index).

(** The live kernel entries [(row, column)], read off the column view and
    read off the row view. *)
Definition col_entries (s : HFactor) : list (Z * Z) :=
  concat (imap (fun j sc =>
                  (fun i => (i, Z.of_nat j))
                    <$> span_entries (mc_index (mc s)) sc.1 sc.2)
               (zip (mc_start (mc s)) (mc_count_a (mc s)))).

Definition row_entries (s : HFactor) : list (Z * Z) :=
  concat (imap (fun i sc =>
                  (fun j => (Z.of_nat i, j))
                    <$> span_entries (mr_index (mr s)) sc.1 sc.2)
               (zip (mr_start (mr s)) (mr_count (mr s)))).

(** Every span starts in the arena, has a count that is not negative and
    ends in the arena. *)
Definition spans_wf (starts counts : list Z) (arena : Z) : Prop :=
  length starts = length counts /\
  forall j start count,
    vat starts j = Some start -> vat counts j = Some count ->
    0 <= start /\ 0 <= count /\ start + count <= arena.

Definition cols_wf (s : HFactor) : Prop :=
  spans_wf (mc_start (mc s)) (mc_count_a (mc s))
           (Z.of_nat (length (mc_index (mc s)))) /\
  length (mc_value (mc s)) = length (mc_index (mc s)).

Definition rows_wf (s : HFactor) : Prop :=
  spans_wf (mr_start (mr s)) (mr_count (mr s))
           (Z.of_nat (length (mr_index (mr s)))).

(** The kernel between two paired calls: both views are well formed and
    count the same number of entries. *)
Definition kernel_consistent (s : HFactor) : Prop :=
  cols_wf s /\ rows_wf s /\ col_count_sum s = row_count_sum s.

(** The matched pairs: [colInsert(iCol, iRow, value)] then
    [rowInsert(iCol, iRow)]; [colDelete(iCol, iRow)] then
    [rowDelete(iCol, iRow)]. *)
Definition insertPair (kHighsTiny : float) (s : HFactor) (iCol iRow : Z)
    (v : float) : result HFactor :=
  s1 ← colInsert kHighsTiny s iCol iRow v; rowInsert s1 iCol iRow.

Definition deletePair (s : HFactor) (iCol iRow : Z)
    : result (float * HFactor) :=
  '(v, s1) ← colDelete s iCol iRow;
  s2 ← rowDelete s1 iCol iRow;
  mret (v, s2).

(** [(iRow, iCol)] is a live entry of the column view, and of the row
    view. *)
Definition col_has (s : HFactor) (iCol iRow : Z) : Prop :=
  exists start count k,
    vat (mc_start (mc s)) iCol = Some start /\
    vat (mc_count_a (mc s)) iCol = Some count /\
    start <= k < start + count /\ vat (mc_index (mc s)) k = Some iRow.

Definition row_has (s : HFactor) (iCol iRow : Z) : Prop :=
  exists start count k,
    vat (mr_start (mr s)) iRow = Some start /\
    vat (mr_count (mr s)) iRow = Some count /\
    start <= k < start + count /\ vat (mr_index (mr s)) k = Some iCol.

(** One paired call that returns. *)
Inductive kernel_step (kHighsTiny : float) : HFactor -> HFactor -> Prop :=
  | step_insert s iCol iRow v s' n :
      insertPair kHighsTiny s iCol iRow v = Ok s' n ->
      kernel_step kHighsTiny s s'
  | step_delete s iCol iRow v s' n :
      col_has s iCol iRow -> row_has s iCol iRow ->
      deletePair s iCol iRow = Ok (v, s') n ->
      kernel_step kHighsTiny s s'.

(** The row store after [rowInsert] has put [iCol] in slot [iput] of row
    [iRow], whose count was [count]. *)
Definition row_inserted (s : HFactor) (iCol iRow iput count : Z) : HFactor :=
  set_mr s {| mr_start := mr_start (mr s);
              mr_count := vupd (mr_count (mr s)) iRow (count + 1);
              mr_index := vupd (mr_index (mr s)) iput iCol |}.

(** [chain nxt lst prev cur xs]: following [nxt] from [cur] visits exactly
    [xs] and then a negative link; each element's [lst] is the element
    before it, and the first one's is [prev]. *)
Fixpoint chain (nxt lst : list Z) (prev cur : Z) (xs : list Z) : Prop :=
  match xs with
  | [] => cur < 0
  | x :: xs' =>
      cur = x /\ vat lst x = Some prev /\
      exists n, vat nxt x = Some n /\ chain nxt lst x n xs'
  end.

(** The bucket of count [count] holds exactly [xs], head first: the chain
    from [link_first[count]], whose head carries the back-link
    [-2 - count]. *)
Definition bucket (l : CountLinks) (count : Z) (xs : list Z) : Prop :=
  0 <= count /\ NoDup xs /\
  exists head, vat (link_first l) count = Some head /\
               chain (link_next l) (link_last l) (-2 - count) head xs.

(** The links after [linkAdd] of [index] before the old head [mover]. *)
Definition link_added (l : CountLinks) (index count mover : Z) : CountLinks :=
  {| link_first := vupd (link_first l) count index;
     link_next := vupd (link_next l) index mover;
     link_last := if decide (0 <= mover)
                  then vupd (vupd (link_last l) index (-2 - count)) mover index
                  else vupd (link_last l) index (-2 - count) |}.

(** The links after [linkDel] of an index with links [xlast], [xnext]. *)
Definition link_deleted (l : CountLinks) (xlast xnext : Z) : CountLinks :=
  {| link_first := if decide (0 <= xlast) then link_first l
                   else vupd (link_first l) (- xlast - 2) xnext;
     link_next := if decide (0 <= xlast) then vupd (link_next l) xlast xnext
                  else link_next l;
     link_last := if decide (0 <= xnext) then vupd (link_last l) xnext xlast
                  else link_last l |}.

(** The contract of one family of count-bucket lists: [links] reads its
    three vectors off the engine, [set] writes them back, [add] and [del]
    are its two primitives. *)
Definition links_contract
    (links : HFactor -> CountLinks) (set : HFactor -> CountLinks -> HFactor)
    (add : HFactor -> Z -> Z -> result HFactor)
    (del : HFactor -> Z -> result HFactor) : Prop :=
  (* [add] prepends, with the back-link [-2 - count]; then [del] restores *)
  (forall s i count xs,
     bucket (links s) count xs -> i ∉ xs ->
     is_Some (vat (link_next (links s)) i) ->
     is_Some (vat (link_last (links s)) i) ->
     exists mover n1 n2,
       vat (link_first (links s)) count = Some mover /\
       add s i count = Ok (set s (link_added (links s) i count mover)) n1 /\
       let s1 := set s (link_added (links s) i count mover) in
       vat (link_first (links s1)) count = Some i /\
       vat (link_last (links s1)) i = Some (-2 - count) /\
       vat (link_next (links s1)) i = Some mover /\
       bucket (links s1) count (i :: xs) /\
       (forall count' ys, count' <> count -> bucket (links s) count' ys ->
                          i ∉ ys -> bucket (links s1) count' ys) /\
       exists s2,
         del s1 i = Ok s2 n2 /\
         link_first (links s2) = link_first (links s) /\
         (forall j, j <> i ->
            vat (link_next (links s2)) j = vat (link_next (links s)) j /\
            vat (link_last (links s2)) j = vat (link_last (links s)) j) /\
         (forall count' ys, bucket (links s) count' ys -> i ∉ ys ->
                            bucket (links s2) count' ys)) /\
  (* [del] unlinks a linked index, head or not *)
  (forall s i count xs1 xs2,
     bucket (links s) count (xs1 ++ i :: xs2) ->
     exists s' n,
       del s i = Ok s' n /\
       bucket (links s') count (xs1 ++ xs2) /\
       (forall count' ys, count' <> count -> bucket (links s) count' ys ->
                          bucket (links s') count' ys)) /\
  (* [del] makes at most four vector accesses *)
  (forall s i s' n, del s i = Ok s' n -> (n <= 4)%nat).

(** [kernel3] with column 0 taken out of the bucket of count 3, as when it
    is about to be relinked at another count. *)
Definition kernel3_unlinked : HFactor :=
  set_col_link kernel3 {| link_first := [-1; 2; 1; -1];
                          link_next := [-1; -1; -1];
                          link_last := [-5; -4; -3] |}.

(** A vector [aq = (1, 2^-40, 3)] and an update rule that records the
    pivot it is given. *)
Definition aq3 : HVector :=
  {| hv_count := 3; hv_index := [0; 1; 2];
     hv_array := [1; 0x1p-40; 3]%float; hv_packed := false |}.

Definition record_rule (s : HFactor) (aq ep : HVector) (iRow hint : Z)
    : HFactor * Z :=
  (set_u_pivot_value s (default [] (v ← vat (hv_array aq) iRow; Some [v])),
   hint).

(** ** More vocabulary: the contents of a column, free slots, agreeing views *)

(** The live entries of a column, each index with its value. *)
Definition col_pairs (s : HFactor) (start count : Z) : list (Z * float) :=
  zip (span_entries (mc_index (mc s)) start count) (live_values s start count).

(** The engine with slot [p] of the column arena holding [(iRow, value)]
    and everything else as in [s]. *)
Definition col_slot_written (s : HFactor) (p iRow : Z) (value : float)
    : HFactor :=
  set_mc s {| mc_start := mc_start (mc s);
              mc_count_a := mc_count_a (mc s);
              mc_count_n := mc_count_n (mc s);
              mc_space := mc_space (mc s);
              mc_index := vupd (mc_index (mc s)) p iRow;
              mc_value := vupd (mc_value (mc s)) p value;
              mc_min_pivot := mc_min_pivot (mc s) |}.

(** The engine with slot [p] of the row arena holding [iCol]. *)
Definition row_slot_written (s : HFactor) (p iCol : Z) : HFactor :=
  set_mr s {| mr_start := mr_start (mr s);
              mr_count := mr_count (mr s);
              mr_index := vupd (mr_index (mr s)) p iCol |}.

(** No slot is in the live span of two columns (or rows). *)
Definition spans_disjoint (starts counts : list Z) : Prop :=
  forall j j' sj cj sj' cj' p,
    j <> j' ->
    vat starts j = Some sj -> vat counts j = Some cj ->
    vat starts j' = Some sj' -> vat counts j' = Some cj' ->
    sj <= p < sj + cj -> ~ (sj' <= p < sj' + cj').

(** Slot [p] is in the live span of no column (or row) other than [i]. *)
Definition slot_free (starts counts : list Z) (i p : Z) : Prop :=
  forall j sj cj,
    j <> i -> vat starts j = Some sj -> vat counts j = Some cj ->
    ~ (sj <= p < sj + cj).

(** The two views hold the same entries: both are well formed, no two live
    spans overlap, and the entries [(row, column)] read off the columns are
    those read off the rows, in some order. *)
Definition kernel_agree (s : HFactor) : Prop :=
  cols_wf s /\ rows_wf s /\
  spans_disjoint (mc_start (mc s)) (mc_count_a (mc s)) /\
  spans_disjoint (mr_start (mr s)) (mr_count (mr s)) /\
  col_entries s ≡ₚ row_entries s.

(** The entries of a view: the span of each column (or row) [j], mapped by
    [f j]; and the span of one [j]. *)
Definition view_entries {B} (f : nat -> Z -> B) (index starts counts : list Z)
    : list B :=
  concat (imap (fun j sc => f j <$> span_entries index sc.1 sc.2)
               (zip starts counts)).

Definition view_span {B} (f : nat -> Z -> B) (index starts counts : list Z)
    (j : nat) : list B :=
  match zip starts counts !! j with
  | Some sc => f j <$> span_entries index sc.1 sc.2
  | None => []
  end.

(** The column store after [colStoreN] has parked [(iRow, value)] in slot
    [iput] of column [iCol], whose parked count was [count]. *)
Definition col_stored (s : HFactor) (iCol iRow iput count : Z)
    (value : float) : HFactor :=
  set_mc s {| mc_start := mc_start (mc s);
              mc_count_a := mc_count_a (mc s);
              mc_count_n := vupd (mc_count_n (mc s)) iCol (count + 1);
              mc_space := mc_space (mc s);
              mc_index := vupd (mc_index (mc s)) iput iRow;
              mc_value := vupd (mc_value (mc s)) iput value;
              mc_min_pivot := mc_min_pivot (mc s) |}.

(** Column [iCol] with its room: the live entries fill [count_a] slots from
    [start] up, the parked entries fill [count_n] slots from
    [start + space] down, and the room of [space] slots lies inside both
    arena vectors. *)
Definition col_room (s : HFactor) (iCol start space count_a count_n : Z)
    : Prop :=
  vat (mc_start (mc s)) iCol = Some start /\
  vat (mc_space (mc s)) iCol = Some space /\
  vat (mc_count_a (mc s)) iCol = Some count_a /\
  vat (mc_count_n (mc s)) iCol = Some count_n /\
  0 <= start /\ 0 <= count_a /\ 0 <= count_n /\
  count_a + count_n <= space /\
  start + space <= Z.of_nat (length (mc_index (mc s))) /\
  length (mc_value (mc s)) = length (mc_index (mc s)).

(** [kernel3] with two parked entries counted in each column: column 0 has
    three live and two parked entries in a room of five. *)
Definition kernel3_full : HFactor :=
  set_mc kernel3 {| mc_start := mc_start (mc kernel3);
                    mc_count_a := mc_count_a (mc kernel3);
                    mc_count_n := [2; 2; 2];
                    mc_space := mc_space (mc kernel3);
                    mc_index := mc_index (mc kernel3);
                    mc_value := mc_value (mc kernel3);
                    mc_min_pivot := mc_min_pivot (mc kernel3) |}.

(** ** The kernel loop of Build

    [buildKernel] is declared in the header and defined in
    util/HFactor.cpp.  What follows is its loop as the written
    specification gives it (section 4.3), over the header's [colFixMax]:
    the pivots it chooses, and what keeps [mc_min_pivot] in step with the
    columns between one pivot and the next. *)

(** The live values of column [j], when the kernel has a column [j]. *)
Definition column_values (s : HFactor) (j : Z) : option (list float) :=
  start ← vat (mc_start (mc s)) j;
  count ← vat (mc_count_a (mc s)) j;
  Some (live_values s start count).

(** Modelled from the spec: the column view holds "[mc_min_pivot[j]] = (max
    |column entry|) · τ".  The header's [colFixMax] is what computes it;
    here it is called on each column of a list, in order. *)
Fixpoint refreshThresholds (s : HFactor) (cols : list Z) : result HFactor :=
  match cols with
  | [] => mret s
  | j :: cols' => s1 ← colFixMax s j; refreshThresholds s1 cols'
  end.

(** Modelled from the spec: the elimination of one pivot, steps 5 and 6 of
    section 4.3 ("for each other column j' with a nonzero in the pivot row
    ... subtract m · (pivot column) from column j', inserting new fill or
    updating existing entries"; "for every touched column/row").  The
    arithmetic is left open: [s'] is any state after [s] that has the same
    configuration and the same pivots recorded, and in which every column
    outside [touched] has the live values and the [mc_min_pivot] it had. *)
Definition eliminated (s s' : HFactor) (touched : list Z) : Prop :=
  pivot_threshold s' = pivot_threshold s /\
  pivot_tolerance s' = pivot_tolerance s /\
  u_pivot_value s' = u_pivot_value s /\
  forall j, j ∉ touched ->
    column_values s' j = column_values s j /\
    vat (mc_min_pivot (mc s')) j = vat (mc_min_pivot (mc s)) j.

(** Modelled from the spec: the loop of section 4.3.  Each round chooses a
    candidate [(iRow, jCol)] that passes the acceptance test and records it
    (steps 2 and 7, [kernelPivot]), eliminates (steps 5 and 6,
    [eliminated]) and brings [mc_min_pivot] of the touched columns up to
    date ([refreshThresholds]).  How the search picks among the acceptable
    candidates (steps 1 to 3) is left open: the loop is a relation.  It
    may stop after any round; the second argument lists, for each pivot
    chosen, the state it was chosen in and its row and column. *)
Inductive kernelLoop : HFactor -> list (HFactor * Z * Z) -> HFactor -> Prop :=
  | loop_stop s : kernelLoop s [] s
  | loop_pivot s iRow jCol s1 touched s2 s3 n pivots s' :
      kernelPivot s iRow jCol = Some s1 ->
      eliminated s1 s2 touched ->
      refreshThresholds s2 touched = Ok s3 n ->
      kernelLoop s3 pivots s' ->
      kernelLoop s ((s, iRow, jCol) :: pivots) s'.

(** Modelled from the spec: [buildKernel] on the kernel that BuildSimple
    has populated ("remaining basic columns/rows populate the active
    kernel"): [mc_min_pivot] is set for every column of the kernel, then
    the loop runs. *)
Definition buildKernel (s0 : HFactor) (pivots : list (HFactor * Z * Z))
    (s' : HFactor) : Prop :=
  exists s n,
    refreshThresholds s0 (seqZ 0 (Z.of_nat (length (mc_start (mc s0)))))
    = Ok s n /\
    kernelLoop s pivots s'.

(** [mc_min_pivot[j]] is what [colFixMax] computes from the live values of
    column [j] as they are now. *)
Definition col_fresh (s : HFactor) (j : Z) : Prop :=
  forall vs, column_values s j = Some vs ->
    vat (mc_min_pivot (mc s)) j
    = Some (abs_max_from 0 vs * pivot_threshold s)%float.

Definition thresholds_fresh (s : HFactor) : Prop := forall j, col_fresh s j.

(** The threshold-pivoting bound for the pivot [(iRow, jCol)] of value [v]
    chosen in state [s]: [v] is the live entry [(iRow, jCol)], and [|v|] is
    at least [pivot_threshold] times the maximum absolute live entry of
    column [jCol]. *)
Definition threshold_bound (s : HFactor) (iRow jCol : Z) (v : float) : Prop :=
  exists k start count max_value,
    vat (mc_start (mc s)) jCol = Some start /\
    vat (mc_count_a (mc s)) jCol = Some count /\
    start <= k < start + count /\
    vat (mc_index (mc s)) k = Some iRow /\
    vat (mc_value (mc s)) k = Some v /\
    col_abs_max max_value (live_values s start count) /\
    (max_value * pivot_threshold s <=? abs v)%float = true.

(** [kernel3] after the pivot 4 at (2, 0) has been recorded. *)
Definition kernel3_pivoted : HFactor := set_u_pivot_value kernel3 [4%float].

(** [kernel3_pivoted] after the elimination of that pivot.  Column 0 and
    row 2 have left the kernel.  Column 2 had 5 in the pivot row: with the
    multiplier 5 / 4 it has lost that entry and gained the fill -2.5 in
    row 0 and -1.25 in row 1.  Column 1 is untouched.  [mc_min_pivot] is
    not yet brought up to date. *)
Definition kernel3_eliminated : HFactor :=
  {| pivot_threshold := 0.5%float;
     pivot_tolerance := 0x1p-33%float;
     mc := {| mc_start := [0; 5; 9];
              mc_count_a := [0; 2; 2];
              mc_count_n := [0; 0; 0];
              mc_space := [5; 4; 3];
              mc_index := [0; 1; 2; -1; -1;  0; 1; -1; -1;  0; 1; -1];
              mc_value := [2; 1; 4; 0; 0;  1; 3; 0; 0;  -2.5; -1.25; 0]%float;
              mc_min_pivot := [2; 1.5; 2.5]%float |};
     mr := {| mr_start := [0; 4; 8];
              mr_count := [2; 2; 0];
              mr_index := [1; 2; -1; -1;  1; 2; -1; -1;  0; 2; -1; -1] |};
     col_link := {| link_first := [-1; -1; 2; -1];
                    link_next := [-1; -1; 1];
                    link_last := [-5; 2; -4] |};
     row_link := {| link_first := [-1; -1; 1; -1];
                    link_next := [-1; 0; 1];
                    link_last := [1; -4; -4] |};
     u_pivot_value := [4%float] |}.

(** [kernel3_eliminated] with the thresholds of the touched columns 0 and 2
    brought up to date. *)
Definition kernel3_refreshed : HFactor :=
  col_fixed (col_fixed kernel3_eliminated 0 0%float) 2 1.25%float.

(** * HighsInfo: the info struct and its records

    A shallow embedding of lp_data/HighsInfo.h: the classes [InfoRecord],
    [InfoRecordInt] and [InfoRecordDouble], the struct [HighsInfoStruct],
    and the constructors and assignment operators of [class HighsInfo].

    A record holds a pointer to a member of a [HighsInfo] object, and its
    constructor writes the default value through that pointer.  Objects
    live in a heap indexed by address; a pointer is the address of an
    object with the member it designates; a write through a pointer to no
    object is undefined behaviour and is modelled as [None].
    [int64_t] and [HighsInt] are [Z], as above. *)

(** [HighsInfoType], declared in lp_data/HConst.h: the two values the
    header uses. *)
Inductive HighsInfoType : Type := kInt | kDouble.

Record HighsInfoStruct : Type := {
  valid : bool;
  mip_node_count : Z;
  simplex_iteration_count : Z;
  ipm_iteration_count : Z;
  crossover_iteration_count : Z;
  primal_status : Z;
  dual_status : Z;
  objective_function_value : float;
  mip_dual_bound : float;
  mip_gap : float;
  num_primal_infeasibilities : Z;
  max_primal_infeasibility : float;
  sum_primal_infeasibilities : float;
  num_dual_infeasibilities : Z;
  max_dual_infeasibility : float;
  sum_dual_infeasibilities : float
}.

(** The members a [HighsInt*] can point to, and those a [double*] can. *)
Inductive IntMember : Type :=
  | m_simplex_iteration_count
  | m_ipm_iteration_count
  | m_crossover_iteration_count
  | m_primal_status
  | m_dual_status
  | m_num_primal_infeasibilities
  | m_num_dual_infeasibilities.

Inductive DoubleMember : Type :=
  | m_objective_function_value
  | m_mip_dual_bound
  | m_mip_gap
  | m_max_primal_infeasibility
  | m_sum_primal_infeasibilities
  | m_max_dual_infeasibility
  | m_sum_dual_infeasibilities.

Definition get_int (s : HighsInfoStruct) (m : IntMember) : Z :=
  match m with
  | m_simplex_iteration_count => simplex_iteration_count s
  | m_ipm_iteration_count => ipm_iteration_count s
  | m_crossover_iteration_count => crossover_iteration_count s
  | m_primal_status => primal_status s
  | m_dual_status => dual_status s
  | m_num_primal_infeasibilities => num_primal_infeasibilities s
  | m_num_dual_infeasibilities => num_dual_infeasibilities s
  end.

Definition get_double (s : HighsInfoStruct) (m : DoubleMember) : float :=
  match m with
  | m_objective_function_value => objective_function_value s
  | m_mip_dual_bound => mip_dual_bound s
  | m_mip_gap => mip_gap s
  | m_max_primal_infeasibility => max_primal_infeasibility s
  | m_sum_primal_infeasibilities => sum_primal_infeasibilities s
  | m_max_dual_infeasibility => max_dual_infeasibility s
  | m_sum_dual_infeasibilities => sum_dual_infeasibilities s
  end.

Definition set_int (s : HighsInfoStruct) (m : IntMember) (v : Z)
    : HighsInfoStruct :=
  match m with
  | m_simplex_iteration_count =>
      {| valid := valid s; mip_node_count := mip_node_count s;
         simplex_iteration_count := v;
         ipm_iteration_count := ipm_iteration_count s;
         crossover_iteration_count := crossover_iteration_count s;
         primal_status := primal_status s; dual_status := dual_status s;
         objective_function_value := objective_function_value s;
         mip_dual_bound := mip_dual_bound s; mip_gap := mip_gap s;
         num_primal_infeasibilities := num_primal_infeasibilities s;
         max_primal_infeasibility := max_primal_infeasibility s;
         sum_primal_infeasibilities := sum_primal_infeasibilities s;
         num_dual_infeasibilities := num_dual_infeasibilities s;
         max_dual_infeasibility := max_dual_infeasibility s;
         sum_dual_infeasibilities := sum_dual_infeasibilities s |}
  | m_ipm_iteration_count =>
      {| valid := valid s; mip_node_count := mip_node_count s;
         simplex_iteration_count := simplex_iteration_count s;
         ipm_iteration_count := v;
         crossover_iteration_count := crossover_iteration_count s;
         primal_status := primal_status s; dual_status := dual_status s;
         objective_function_value := objective_function_value s;
         mip_dual_bound := mip_dual_bound s; mip_gap := mip_gap s;
         num_primal_infeasibilities := num_primal_infeasibilities s;
         max_primal_infeasibility := max_primal_infeasibility s;
         sum_primal_infeasibilities := sum_primal_infeasibilities s;
         num_dual_infeasibilities := num_dual_infeasibilities s;
         max_dual_infeasibility := max_dual_infeasibility s;
         sum_dual_infeasibilities := sum_dual_infeasibilities s |}
  | m_crossover_iteration_count =>
      {| valid := valid s; mip_node_count := mip_node_count s;
         simplex_iteration_count := simplex_iteration_count s;
         ipm_iteration_count := ipm_iteration_count s;
         crossover_iteration_count := v; primal_status := primal_status s;
         dual_status := dual_status s;
         objective_function_value := objective_function_value s;
         mip_dual_bound := mip_dual_bound s; mip_gap := mip_gap s;
         num_primal_infeasibilities := num_primal_infeasibilities s;
         max_primal_infeasibility := max_primal_infeasibility s;
         sum_primal_infeasibilities := sum_primal_infeasibilities s;
         num_dual_infeasibilities := num_dual_infeasibilities s;
         max_dual_infeasibility := max_dual_infeasibility s;
         sum_dual_infeasibilities := sum_dual_infeasibilities s |}
  | m_primal_status =>
      {| valid := valid s; mip_node_count := mip_node_count s;
         simplex_iteration_count := simplex_iteration_count s;
         ipm_iteration_count := ipm_iteration_count s;
         crossover_iteration_count := crossover_iteration_count s;
         primal_status := v; dual_status := dual_status s;
         objective_function_value := objective_function_value s;
         mip_dual_bound := mip_dual_bound s; mip_gap := mip_gap s;
         num_primal_infeasibilities := num_primal_infeasibilities s;
         max_primal_infeasibility := max_primal_infeasibility s;
         sum_primal_infeasibilities := sum_primal_infeasibilities s;
         num_dual_infeasibilities := num_dual_infeasibilities s;
         max_dual_infeasibility := max_dual_infeasibility s;
         sum_dual_infeasibilities := sum_dual_infeasibilities s |}
  | m_dual_status =>
      {| valid := valid s; mip_node_count := mip_node_count s;
         simplex_iteration_count := simplex_iteration_count s;
         ipm_iteration_count := ipm_iteration_count s;
         crossover_iteration_count := crossover_iteration_count s;
         primal_status := primal_status s; dual_status := v;
         objective_function_value := objective_function_value s;
         mip_dual_bound := mip_dual_bound s; mip_gap := mip_gap s;
         num_primal_infeasibilities := num_primal_infeasibilities s;
         max_primal_infeasibility := max_primal_infeasibility s;
         sum_primal_infeasibilities := sum_primal_infeasibilities s;
         num_dual_infeasibilities := num_dual_infeasibilities s;
         max_dual_infeasibility := max_dual_infeasibility s;
         sum_dual_infeasibilities := sum_dual_infeasibilities s |}
  | m_num_primal_infeasibilities =>
      {| valid := valid s; mip_node_count := mip_node_count s;
         simplex_iteration_count := simplex_iteration_count s;
         ipm_iteration_count := ipm_iteration_count s;
         crossover_iteration_count := crossover_iteration_count s;
         primal_status := primal_status s; dual_status := dual_status s;
         objective_function_value := objective_function_value s;
         mip_dual_bound := mip_dual_bound s; mip_gap := mip_gap s;
         num_primal_infeasibilities := v;
         max_primal_infeasibility := max_primal_infeasibility s;
         sum_primal_infeasibilities := sum_primal_infeasibilities s;
         num_dual_infeasibilities := num_dual_infeasibilities s;
         max_dual_infeasibility := max_dual_infeasibility s;
         sum_dual_infeasibilities := sum_dual_infeasibilities s |}
  | m_num_dual_infeasibilities =>
      {| valid := valid s; mip_node_count := mip_node_count s;
         simplex_iteration_count := simplex_iteration_count s;
         ipm_iteration_count := ipm_iteration_count s;
         crossover_iteration_count := crossover_iteration_count s;
         primal_status := primal_status s; dual_status := dual_status s;
         objective_function_value := objective_function_value s;
         mip_dual_bound := mip_dual_bound s; mip_gap := mip_gap s;
         num_primal_infeasibilities := num_primal_infeasibilities s;
         max_primal_infeasibility := max_primal_infeasibility s;
         sum_primal_infeasibilities := sum_primal_infeasibilities s;
         num_dual_infeasibilities := v;
         max_dual_infeasibility := max_dual_infeasibility s;
         sum_dual_infeasibilities := sum_dual_infeasibilities s |}
  end.

Definition set_double (s : HighsInfoStruct) (m : DoubleMember) (v : float)
    : HighsInfoStruct :=
  match m with
  | m_objective_function_value =>
      {| valid := valid s; mip_node_count := mip_node_count s;
         simplex_iteration_count := simplex_iteration_count s;
         ipm_iteration_count := ipm_iteration_count s;
         crossover_iteration_count := crossover_iteration_count s;
         primal_status := primal_status s; dual_status := dual_status s;
         objective_function_value := v; mip_dual_bound := mip_dual_bound s;
         mip_gap := mip_gap s;
         num_primal_infeasibilities := num_primal_infeasibilities s;
         max_primal_infeasibility := max_primal_infeasibility s;
         sum_primal_infeasibilities := sum_primal_infeasibilities s;
         num_dual_infeasibilities := num_dual_infeasibilities s;
         max_dual_infeasibility := max_dual_infeasibility s;
         sum_dual_infeasibilities := sum_dual_infeasibilities s |}
  | m_mip_dual_bound =>
      {| valid := valid s; mip_node_count := mip_node_count s;
         simplex_iteration_count := simplex_iteration_count s;
         ipm_iteration_count := ipm_iteration_count s;
         crossover_iteration_count := crossover_iteration_count s;
         primal_status := primal_status s; dual_status := dual_status s;
         objective_function_value := objective_function_value s;
         mip_dual_bound := v; mip_gap := mip_gap s;
         num_primal_infeasibilities := num_primal_infeasibilities s;
         max_primal_infeasibility := max_primal_infeasibility s;
         sum_primal_infeasibilities := sum_primal_infeasibilities s;
         num_dual_infeasibilities := num_dual_infeasibilities s;
         max_dual_infeasibility := max_dual_infeasibility s;
         sum_dual_infeasibilities := sum_dual_infeasibilities s |}
  | m_mip_gap =>
      {| valid := valid s; mip_node_count := mip_node_count s;
         simplex_iteration_count := simplex_iteration_count s;
         ipm_iteration_count := ipm_iteration_count s;
         crossover_iteration_count := crossover_iteration_count s;
         primal_status := primal_status s; dual_status := dual_status s;
         objective_function_value := objective_function_value s;
         mip_dual_bound := mip_dual_bound s; mip_gap := v;
         num_primal_infeasibilities := num_primal_infeasibilities s;
         max_primal_infeasibility := max_primal_infeasibility s;
         sum_primal_infeasibilities := sum_primal_infeasibilities s;
         num_dual_infeasibilities := num_dual_infeasibilities s;
         max_dual_infeasibility := max_dual_infeasibility s;
         sum_dual_infeasibilities := sum_dual_infeasibilities s |}
  | m_max_primal_infeasibility =>
      {| valid := valid s; mip_node_count := mip_node_count s;
         simplex_iteration_count := simplex_iteration_count s;
         ipm_iteration_count := ipm_iteration_count s;
         crossover_iteration_count := crossover_iteration_count s;
         primal_status := primal_status s; dual_status := dual_status s;
         objective_function_value := objective_function_value s;
         mip_dual_bound := mip_dual_bound s; mip_gap := mip_gap s;
         num_primal_infeasibilities := num_primal_infeasibilities s;
         max_primal_infeasibility := v;
         sum_primal_infeasibilities := sum_primal_infeasibilities s;
         num_dual_infeasibilities := num_dual_infeasibilities s;
         max_dual_infeasibility := max_dual_infeasibility s;
         sum_dual_infeasibilities := sum_dual_infeasibilities s |}
  | m_sum_primal_infeasibilities =>
      {| valid := valid s; mip_node_count := mip_node_count s;
         simplex_iteration_count := simplex_iteration_count s;
         ipm_iteration_count := ipm_iteration_count s;
         crossover_iteration_count := crossover_iteration_count s;
         primal_status := primal_status s; dual_status := dual_status s;
         objective_function_value := objective_function_value s;
         mip_dual_bound := mip_dual_bound s; mip_gap := mip_gap s;
         num_primal_infeasibilities := num_primal_infeasibilities s;
         max_primal_infeasibility := max_primal_infeasibility s;
         sum_primal_infeasibilities := v;
         num_dual_infeasibilities := num_dual_infeasibilities s;
         max_dual_infeasibility := max_dual_infeasibility s;
         sum_dual_infeasibilities := sum_dual_infeasibilities s |}
  | m_max_dual_infeasibility =>
      {| valid := valid s; mip_node_count := mip_node_count s;
         simplex_iteration_count := simplex_iteration_count s;
         ipm_iteration_count := ipm_iteration_count s;
         crossover_iteration_count := crossover_iteration_count s;
         primal_status := primal_status s; dual_status := dual_status s;
         objective_function_value := objective_function_value s;
         mip_dual_bound := mip_dual_bound s; mip_gap := mip_gap s;
         num_primal_infeasibilities := num_primal_infeasibilities s;
         max_primal_infeasibility := max_primal_infeasibility s;
         sum_primal_infeasibilities := sum_primal_infeasibilities s;
         num_dual_infeasibilities := num_dual_infeasibilities s;
         max_dual_infeasibility := v;
         sum_dual_infeasibilities := sum_dual_infeasibilities s |}
  | m_sum_dual_infeasibilities =>
      {| valid := valid s; mip_node_count := mip_node_count s;
         simplex_iteration_count := simplex_iteration_count s;
         ipm_iteration_count := ipm_iteration_count s;
         crossover_iteration_count := crossover_iteration_count s;
         primal_status := primal_status s; dual_status := dual_status s;
         objective_function_value := objective_function_value s;
         mip_dual_bound := mip_dual_bound s; mip_gap := mip_gap s;
         num_primal_infeasibilities := num_primal_infeasibilities s;
         max_primal_infeasibility := max_primal_infeasibility s;
         sum_primal_infeasibilities := sum_primal_infeasibilities s;
         num_dual_infeasibilities := num_dual_infeasibilities s;
         max_dual_infeasibility := max_dual_infeasibility s;
         sum_dual_infeasibilities := v |}
  end.

(** [InfoRecordInt] and [InfoRecordDouble] with the members of their base
    class [InfoRecord]; [type] is [kInt] for the one and [kDouble] for the
    other.  [value] is the pointer: an address and a member. *)
Inductive InfoRecord : Type :=
  | InfoRecordInt (name description : string) (advanced : bool)
      (value : nat * IntMember) (default_value : Z)
  | InfoRecordDouble (name description : string) (advanced : bool)
      (value : nat * DoubleMember) (default_value : float).

Definition record_type (r : InfoRecord) : HighsInfoType :=
  match r with
  | InfoRecordInt _ _ _ _ _ => kInt
  | InfoRecordDouble _ _ _ _ _ => kDouble
  end.

Definition record_name (r : InfoRecord) : string :=
  match r with
  | InfoRecordInt name _ _ _ _ => name
  | InfoRecordDouble name _ _ _ _ => name
  end.

(** The object a record points into. *)
Definition record_target (r : InfoRecord) : nat :=
  match r with
  | InfoRecordInt _ _ _ value _ => value.1
  | InfoRecordDouble _ _ _ value _ => value.1
  end.

(** [class HighsInfo : public HighsInfoStruct]: the members of the struct
    and the vector [records]. *)
Record HighsInfo : Type := {
  base : HighsInfoStruct;
  records : list InfoRecord
}.

Abbreviation Heap := (gmap nat HighsInfo).

(** [*p = v]. *)
Definition store_int (h : Heap) (p : nat * IntMember) (v : Z) : option Heap :=
  o ← h !! p.1;
  Some (<[p.1 := {| base := set_int (base o) p.2 v; records := records o |}]> h).

Definition store_double (h : Heap) (p : nat * DoubleMember) (v : float)
    : option Heap :=
  o ← h !! p.1;
  Some (<[p.1 := {| base := set_double (base o) p.2 v;
                    records := records o |}]> h).

(** [new InfoRecordInt(Xname, Xdescription, Xadvanced, Xvalue_pointer,
    Xdefault_value)]: the constructor ends with [*value = default_value]. *)
Definition new_InfoRecordInt (h : Heap) (Xname Xdescription : string)
    (Xadvanced : bool) (Xvalue_pointer : nat * IntMember) (Xdefault_value : Z)
    : option (InfoRecord * Heap) :=
  h' ← store_int h Xvalue_pointer Xdefault_value;
  Some (InfoRecordInt Xname Xdescription Xadvanced Xvalue_pointer
          Xdefault_value, h').

Definition new_InfoRecordDouble (h : Heap) (Xname Xdescription : string)
    (Xadvanced : bool) (Xvalue_pointer : nat * DoubleMember)
    (Xdefault_value : float) : option (InfoRecord * Heap) :=
  h' ← store_double h Xvalue_pointer Xdefault_value;
  Some (InfoRecordDouble Xname Xdescription Xadvanced Xvalue_pointer
          Xdefault_value, h').

(** [records.push_back(r)] in the object at [this]. *)
Definition push_back (h : Heap) (this : nat) (r : InfoRecord) : option Heap :=
  o ← h !! this;
  Some (<[this := {| base := base o; records := records o ++ [r] |}]> h).

(** [HighsInfoStruct::operator=]: the members of [this] become those of
    [s]. *)
Definition struct_assign (h : Heap) (this : nat) (s : HighsInfoStruct)
    : option Heap :=
  o ← h !! this;
  Some (<[this := {| base := s; records := records o |}]> h).

(** Storage for an object at [this] whose constructor has not run its body
    yet: the members of the struct hold whatever [junk] the storage held,
    and [records] is the empty vector. *)
Definition allocated (h : Heap) (this : nat) (junk : HighsInfoStruct) : Heap :=
  <[this := {| base := junk; records := [] |}]> h.

Section HighsInfoMembers.

(** [kHighsPrimalDualStatusNotset], declared in lp_data/HConst.h. *)
Variable kHighsPrimalDualStatusNotset : Z.

(** What [std::move] leaves in the vector moved from: the standard leaves
    it unspecified. *)
Variable moved_from : list InfoRecord -> list InfoRecord.

Definition initRecords (this : nat) (h : Heap) : option Heap :=
  let advanced := false in
  '(record_int, h) ← new_InfoRecordInt h "simplex_iteration_count"
      "Iteration count for simplex solver"
      advanced (this, m_simplex_iteration_count) 0;
  h ← push_back h this record_int;
  '(record_int, h) ← new_InfoRecordInt h "ipm_iteration_count"
      "Iteration count for IPM solver"
      advanced (this, m_ipm_iteration_count) 0;
  h ← push_back h this record_int;
  '(record_int, h) ← new_InfoRecordInt h "crossover_iteration_count"
      "Iteration count for crossover"
      advanced (this, m_crossover_iteration_count) 0;
  h ← push_back h this record_int;
  '(record_int, h) ← new_InfoRecordInt h "primal_status"
      "Primal status of the model: -1 => Not set; 0 => No solution; 1 => Unknown; 2 => Infeasible point; 3 => Feasible point"
      advanced (this, m_primal_status) kHighsPrimalDualStatusNotset;
  h ← push_back h this record_int;
  '(record_int, h) ← new_InfoRecordInt h "dual_status"
      "Dual status of the model: -1 => Not set; 0 => No solution; 1 => Unknown; 2 => Infeasible point; 3 => Feasible point"
      advanced (this, m_dual_status) kHighsPrimalDualStatusNotset;
  h ← push_back h this record_int;
  '(record_double, h) ← new_InfoRecordDouble h "objective_function_value"
      "Objective function value"
      advanced (this, m_objective_function_value) 0%float;
  h ← push_back h this record_double;
  '(record_int, h) ← new_InfoRecordInt h "num_primal_infeasibilities"
      "Number of primal infeasibilities"
      advanced (this, m_num_primal_infeasibilities) (-1);
  h ← push_back h this record_int;
  '(record_double, h) ← new_InfoRecordDouble h "max_primal_infeasibility"
      "Maximum primal infeasibility"
      advanced (this, m_max_primal_infeasibility) 0%float;
  h ← push_back h this record_double;
  '(record_double, h) ← new_InfoRecordDouble h "sum_primal_infeasibilities"
      "Sum of primal infeasibilities"
      advanced (this, m_sum_primal_infeasibilities) 0%float;
  h ← push_back h this record_double;
  '(record_int, h) ← new_InfoRecordInt h "num_dual_infeasibilities"
      "Number of dual infeasibilities"
      advanced (this, m_num_dual_infeasibilities) (-1);
  h ← push_back h this record_int;
  '(record_double, h) ← new_InfoRecordDouble h "max_dual_infeasibility"
      "Maximum dual infeasibility"
      advanced (this, m_max_dual_infeasibility) 0%float;
  h ← push_back h this record_double;
  '(record_double, h) ← new_InfoRecordDouble h "sum_dual_infeasibilities"
      "Sum of dual infeasibilities"
      advanced (this, m_sum_dual_infeasibilities) 0%float;
  h ← push_back h this record_double;
  Some h.

(** [HighsInfo() { initRecords(); }] *)
Definition HighsInfo_default (this : nat) (junk : HighsInfoStruct) (h : Heap)
    : option Heap :=
  initRecords this (allocated h this junk).

(** [HighsInfo(const HighsInfo& info)] *)
Definition HighsInfo_copy (this : nat) (junk : HighsInfoStruct) (info : nat)
    (h : Heap) : option Heap :=
  h ← initRecords this (allocated h this junk);
  o ← h !! info;
  struct_assign h this (base o).

(** [HighsInfo(HighsInfo&& info)]: [records = std::move(info.records)],
    then the struct is assigned. *)
Definition HighsInfo_move (this : nat) (junk : HighsInfoStruct) (info : nat)
    (h : Heap) : option Heap :=
  let h := allocated h this junk in
  o ← h !! info;
  t ← h !! this;
  let h := <[info := {| base := base o; records := moved_from (records o) |}]>
             (<[this := {| base := base t; records := records o |}]> h) in
  o ← h !! info;
  struct_assign h this (base o).

(** [const HighsInfo& operator=(const HighsInfo& other)] *)
Definition assign (this other : nat) (h : Heap) : option Heap :=
  if decide (other <> this) then
    t ← h !! this;
    h ← (if decide (length (records t) = 0%nat) then initRecords this h
         else Some h);
    o ← h !! other;
    struct_assign h this (base o)
  else Some h.

(** [const HighsInfo& operator=(HighsInfo&& other)]: the body is that of
    the copy assignment; nothing is moved. *)
Definition move_assign (this other : nat) (h : Heap) : option Heap :=
  if decide (other <> this) then
    t ← h !! this;
    h ← (if decide (length (records t) = 0%nat) then initRecords this h
         else Some h);
    o ← h !! other;
    struct_assign h this (base o)
  else Some h.

End HighsInfoMembers.

(** Every record of the object points into the object at [a]. *)
Definition records_into (a : nat) (o : HighsInfo) : Prop :=
  Forall (fun r => record_target r = a) (records o).

(** The member a record points to holds the record's default value. *)
Definition holds_default (s : HighsInfoStruct) (r : InfoRecord) : Prop :=
  match r with
  | InfoRecordInt _ _ _ value default_value =>
      get_int s value.2 = default_value
  | InfoRecordDouble _ _ _ value default_value =>
      get_double s value.2 = default_value
  end.

(** The four members of the struct that no record points to. *)
Definition unrecorded (s : HighsInfoStruct)
    : bool * Z * float * float :=
  (valid s, mip_node_count s, mip_dual_bound s, mip_gap s).

(** Members as storage may hold them before a constructor runs. *)
Definition info_junk : HighsInfoStruct :=
  {| valid := true; mip_node_count := 77;
     simplex_iteration_count := 1; ipm_iteration_count := 2;
     crossover_iteration_count := 3; primal_status := 4; dual_status := 5;
     objective_function_value := 6; mip_dual_bound := 7; mip_gap := 8;
     num_primal_infeasibilities := 9; max_primal_infeasibility := 10;
     sum_primal_infeasibilities := 11; num_dual_infeasibilities := 12;
     max_dual_infeasibility := 13; sum_dual_infeasibilities := 14 |}.

(** ** Order facts about binary64 comparisons

    The comparisons of [float] are specified through [SFcompare] on
    [spec_float]; NaN is comparable with nothing. *)

Module F64.

Ltac cmp_cases :=
  repeat match goal with
  | |- context [PosDef.Pos.compare_cont Eq ?p ?q] =>
      change (PosDef.Pos.compare_cont Eq p q) with (Pos.compare p q)
  end;
  repeat match goal with
  | |- context [Z.compare ?a ?b] => destruct (Z.compare_spec a b)
  | |- context [Pos.compare ?a ?b] => destruct (Pos.compare_spec a b)
  end; simpl; intros; subst; try discriminate; try reflexivity; try lia.

Lemma SFcompare_refl_not_Lt (x : spec_float) : SFcompare x x <> Some Lt.
Proof.
  destruct x as [s|s| |s m e]; simpl; try discriminate;
    destruct s; try discriminate; cmp_cases.
Qed.

Lemma SFcompare_Lt_trans (x y z : spec_float) :
  SFcompare x y = Some Lt -> SFcompare y z = Some Lt -> SFcompare x z = Some Lt.
Proof.
  destruct x as [sx|sx| |sx mx ex], y as [sy|sy| |sy my ey],
    z as [sz|sz| |sz mz ez]; simpl; try discriminate;
    try (destruct sx; try discriminate); try (destruct sy; try discriminate);
    try (destruct sz; try discriminate); try reflexivity; cmp_cases.
Qed.

Lemma SFcompare_Lt_Gt (x y : spec_float) :
  SFcompare x y = Some Lt -> SFcompare y x = Some Gt.
Proof.
  destruct x as [sx|sx| |sx mx ex], y as [sy|sy| |sy my ey]; simpl;
    try discriminate;
    try (destruct sx; try discriminate); try (destruct sy; try discriminate);
    try reflexivity; cmp_cases.
Qed.

(** [x < x] is false for every double, NaN included. *)
Lemma ltb_irrefl (x : float) : (x <? x)%float = false.
Proof.
  rewrite FloatAxioms.ltb_spec. unfold SFltb.
  pose proof (SFcompare_refl_not_Lt (Prim2SF x)) as H.
  destruct (SFcompare (Prim2SF x) (Prim2SF x)) as [[]|]; congruence.
Qed.

Lemma ltb_trans (x y z : float) :
  (x <? y)%float = true -> (y <? z)%float = true -> (x <? z)%float = true.
Proof.
  rewrite !FloatAxioms.ltb_spec. unfold SFltb. intros Hxy Hyz.
  destruct (SFcompare (Prim2SF x) (Prim2SF y)) as [[]|] eqn:E1; try discriminate.
  destruct (SFcompare (Prim2SF y) (Prim2SF z)) as [[]|] eqn:E2; try discriminate.
  now rewrite (SFcompare_Lt_trans _ _ _ E1 E2).
Qed.

(** [x < y] excludes [y <= x]. *)
Lemma ltb_leb_false (x y : float) :
  (x <? y)%float = true -> (y <=? x)%float = false.
Proof.
  rewrite FloatAxioms.ltb_spec, FloatAxioms.leb_spec. unfold SFltb, SFleb. intros H.
  destruct (SFcompare (Prim2SF x) (Prim2SF y)) as [[]|] eqn:E; try discriminate.
  now rewrite (SFcompare_Lt_Gt _ _ E).
Qed.

(** [y <= x] excludes [x < y]. *)
Lemma leb_ltb_false (x y : float) :
  (y <=? x)%float = true -> (x <? y)%float = false.
Proof.
  intros H. destruct (x <? y)%float eqn:E; [|reflexivity].
  apply ltb_leb_false in E. congruence.
Qed.

(** [0 * tau] compares equal to 0 for a threshold in [[0, 0.5]]. *)
Lemma mul_zero_threshold (tau : float) :
  (0 <=? tau)%float = true -> (tau <=? 0.5)%float = true ->
  (0 * tau =? 0)%float = true.
Proof.
  rewrite !FloatAxioms.leb_spec, FloatAxioms.eqb_spec, FloatAxioms.mul_spec.
  change (Prim2SF 0) with (S754_zero false).
  change (Prim2SF 0.5) with (S754_finite false 4503599627370496 (-53)).
  destruct (Prim2SF tau) as [sg|sg| |sg m e]; simpl; try discriminate.
  - now destruct sg.
  - destruct sg; discriminate.
  - now destruct sg.
Qed.

Lemma fmax_keeps_bound (m b x : float) :
  (m <? x)%float = false -> (b <? x)%float = false ->
  (fmax m b <? x)%float = false.
Proof. unfold fmax. now destruct (m <? b)%float. Qed.

Lemma fmax_bounds_left (m b x : float) :
  (m <? x)%float = false -> (fmax m b <? x)%float = false.
Proof.
  unfold fmax. intros Hm. destruct (m <? b)%float eqn:E; [|exact Hm].
  destruct (b <? x)%float eqn:E'; [|reflexivity].
  rewrite (ltb_trans _ _ _ E E') in Hm. discriminate.
Qed.

Lemma fmax_bounds_right (m b : float) : (fmax m b <? b)%float = false.
Proof.
  unfold fmax. destruct (m <? b)%float eqn:E; [apply ltb_irrefl | exact E].
Qed.

End F64.

(** ** Vectors: the laws of [vat], [vupd], [vget] and [vset] *)

Section VectorLaws.
Context {A : Type}.
Implicit Types (v : list A) (i j : Z) (x : A).

Lemma vat_Some v i x :
  vat v i = Some x <-> 0 <= i /\ v !! Z.to_nat i = Some x.
Proof.
  unfold vat. destruct (decide (0 <= i)) as [Hi|Hi].
  - split; [now split | now intros [_ ?]].
  - split; [discriminate | intros [? _]; contradiction].
Qed.

Lemma vat_range v i :
  is_Some (vat v i) <-> 0 <= i < Z.of_nat (length v).
Proof.
  unfold vat. case_decide.
  - rewrite lookup_lt_is_Some. lia.
  - split; [intros [? ?]; discriminate | lia].
Qed.

Lemma vat_None v i :
  vat v i = None <-> ~ (0 <= i < Z.of_nat (length v)).
Proof. rewrite <- vat_range, eq_None_not_Some. tauto. Qed.

Lemma vat_lt v i x : vat v i = Some x -> 0 <= i < Z.of_nat (length v).
Proof. intros H. apply vat_range. eauto. Qed.

Lemma vupd_length v i x : length (vupd v i x) = length v.
Proof. apply length_insert. Qed.

Lemma vat_vupd_eq v i x :
  0 <= i < Z.of_nat (length v) -> vat (vupd v i x) i = Some x.
Proof.
  intros H. apply vat_Some. split; [lia|].
  apply list_lookup_insert_eq. lia.
Qed.

Lemma vat_vupd_ne v i j x :
  0 <= i -> i <> j -> vat (vupd v i x) j = vat v j.
Proof.
  intros Hi Hne. unfold vat, vupd. case_decide; [|reflexivity].
  apply list_lookup_insert_ne. lia.
Qed.

Lemma vget_Ok v i x : vat v i = Some x -> vget v i = Ok x 1.
Proof. unfold vget. now intros ->. Qed.

Lemma vset_Ok v i x :
  0 <= i < Z.of_nat (length v) -> vset v i x = Ok (vupd v i x) 1.
Proof.
  intros H. apply vat_range in H as [y H]. unfold vset. now rewrite H.
Qed.

Lemma vget_inv v i x n : vget v i = Ok x n -> vat v i = Some x /\ n = 1%nat.
Proof. unfold vget. destruct (vat v i); intros H; inversion H; auto. Qed.

Lemma vset_inv v i x w n :
  vset v i x = Ok w n ->
  0 <= i < Z.of_nat (length v) /\ w = vupd v i x /\ n = 1%nat.
Proof.
  unfold vset. destruct (vat v i) eqn:E; intros H; inversion H.
  split; [eapply vat_lt; eauto | auto].
Qed.

End VectorLaws.

(** ** [colInsert] *)

Lemma colInsert_tiny kHighsTiny s iCol iRow value :
  (abs value <? kHighsTiny)%float = true ->
  colInsert kHighsTiny s iCol iRow value = Fault AssertionFailed.
Proof. intros H. unfold colInsert. now rewrite H. Qed.

Lemma colInsert_Ok kHighsTiny s iCol iRow value start count :
  (abs value <? kHighsTiny)%float = false ->
  vat (mc_start (mc s)) iCol = Some start ->
  vat (mc_count_a (mc s)) iCol = Some count ->
  0 <= start + count < Z.of_nat (length (mc_index (mc s))) ->
  start + count < Z.of_nat (length (mc_value (mc s))) ->
  colInsert kHighsTiny s iCol iRow value
  = Ok (col_inserted s iCol iRow (start + count) count value) 5.
Proof.
  intros Hbig Hstart Hcount Hindex Hvalue. unfold colInsert.
  rewrite Hbig, (vget_Ok _ _ _ Hstart). simpl.
  rewrite (vget_Ok _ _ _ Hcount). simpl.
  rewrite (vset_Ok (mc_count_a (mc s)) iCol) by (eapply vat_lt; eauto).
  simpl. rewrite (vset_Ok (mc_index (mc s))) by lia. simpl.
  rewrite (vset_Ok (mc_value (mc s))) by lia. reflexivity.
Qed.

(** C9.  [colInsert] with [|value| < kHighsTiny] stops at the assertion,
    whatever the indices; with [|value| >= kHighsTiny] the assertion branch
    is not taken, and for a column [iCol] whose next slot
    [mc_start[iCol] + mc_count_a[iCol]] lies in the arena the call stores
    [(iRow, value)] in that slot and raises [mc_count_a[iCol]] by one,
    leaving every other member as it was. *)
Theorem colInsert_assert_or_append
    (kHighsTiny : float) (s : HFactor) (iCol iRow : Z) (value : float) :
  ((abs value <? kHighsTiny)%float = true ->
   colInsert kHighsTiny s iCol iRow value = Fault AssertionFailed) /\
  ((kHighsTiny <=? abs value)%float = true ->
   colInsert kHighsTiny s iCol iRow value <> Fault AssertionFailed /\
   forall start count,
     vat (mc_start (mc s)) iCol = Some start ->
     vat (mc_count_a (mc s)) iCol = Some count ->
     0 <= start + count < Z.of_nat (length (mc_index (mc s))) ->
     start + count < Z.of_nat (length (mc_value (mc s))) ->
     colInsert kHighsTiny s iCol iRow value
     = Ok (col_inserted s iCol iRow (start + count) count value) 5).
Proof.
  split; [apply colInsert_tiny|].
  intros Hge. apply F64.leb_ltb_false in Hge. split.
  - unfold colInsert. rewrite Hge.
    destruct (vget (mc_start (mc s)) iCol) as [a n|f] eqn:E1; simpl;
      [|unfold vget in E1; destruct (vat _ _); congruence].
    destruct (vget (mc_count_a (mc s)) iCol) as [b m|f] eqn:E2; simpl;
      [|unfold vget in E2; destruct (vat _ _); congruence].
    unfold vset.
    repeat (destruct (vat _ _); simpl; try congruence).
  - intros start count. now apply colInsert_Ok.
Qed.

(** ** The unbounded scan of [colDelete] and [rowDelete] *)

Lemma scan_from_inv rest x idel r n :
  scan_from rest x idel = Ok r n ->
  exists j : nat,
    r = idel + Z.of_nat j /\ rest !! j = Some x /\
    (forall j' : nat, (j' < j)%nat -> rest !! j' <> Some x) /\ n = S j.
Proof.
  revert idel r n. induction rest as [|y rest IH]; intros idel r n; simpl.
  - discriminate.
  - destruct (decide (y = x)) as [->|Hne].
    + intros H. inversion H; subst. exists 0%nat.
      repeat split; [lia | intros j' Hj'; lia].
    + destruct (scan_from rest x (idel + 1)) as [r' n'|f] eqn:E; [|discriminate].
      intros H. inversion H; subst.
      destruct (IH _ _ _ E) as (j & -> & Hj & Hfirst & ->).
      exists (S j). repeat split; [lia | exact Hj |].
      intros [|j'] Hlt; simpl; [congruence | apply Hfirst; lia].
Qed.

Lemma scan_from_total rest x idel (j : nat) :
  rest !! j = Some x -> exists r n, scan_from rest x idel = Ok r n.
Proof.
  revert idel j. induction rest as [|y rest IH]; intros idel j; simpl.
  - destruct j; discriminate.
  - destruct (decide (y = x)) as [->|Hne]; [eauto|].
    destruct j as [|j]; simpl; [congruence|]. intros Hj.
    destruct (IH (idel + 1) j Hj) as (r & n & ->). eauto.
Qed.

Lemma scan_from_fault rest x idel f :
  scan_from rest x idel = Fault f -> f = OutOfBounds.
Proof.
  revert idel. induction rest as [|y rest IH]; intros idel; simpl.
  - intros H. inversion H. reflexivity.
  - destruct (decide (y = x)); [discriminate|].
    destruct (scan_from rest x (idel + 1)) eqn:E; [discriminate|].
    intros H. inversion H; subst. eapply IH; eauto.
Qed.

(** A successful scan from [start] stops at the first slot holding [x]. *)
Lemma scan_inv index x start r n :
  scan index x start = Ok r n ->
  0 <= start <= r /\ vat index r = Some x /\
  (forall k, start <= k < r -> vat index k <> Some x).
Proof.
  unfold scan. destruct (decide (0 <= start)) as [H0|]; [|discriminate].
  intros H. apply scan_from_inv in H as (j & -> & Hj & Hfirst & _).
  rewrite lookup_drop in Hj. split; [lia|]. split.
  - apply vat_Some. split; [lia|].
    now replace (Z.to_nat (start + Z.of_nat j)) with (Z.to_nat start + j)%nat by lia.
  - intros k Hk Hat. apply vat_Some in Hat as [_ Hat].
    apply (Hfirst (Z.to_nat (k - start))); [lia|].
    rewrite lookup_drop.
    now replace (Z.to_nat start + Z.to_nat (k - start))%nat with (Z.to_nat k) by lia.
Qed.

(** When [x] is stored at some slot [k >= start], the scan succeeds, at or
    before [k]. *)
Lemma scan_present index x start k :
  0 <= start <= k -> vat index k = Some x ->
  exists idel n,
    scan index x start = Ok idel n /\ start <= idel <= k /\
    vat index idel = Some x /\
    (forall k', start <= k' < idel -> vat index k' <> Some x).
Proof.
  intros Hk Hat.
  assert (exists r n, scan index x start = Ok r n) as (r & n & Hscan).
  { unfold scan. destruct (decide (0 <= start)); [|lia].
    apply (scan_from_total _ _ _ (Z.to_nat (k - start))).
    rewrite lookup_drop. apply vat_Some in Hat as [_ Hat].
    now replace (Z.to_nat start + Z.to_nat (k - start))%nat with (Z.to_nat k) by lia. }
  exists r, n. destruct (scan_inv _ _ _ _ _ Hscan) as (Hr & Hx & Hfirst).
  repeat split; try assumption; try lia.
  destruct (Z_le_gt_dec r k); [assumption|].
  exfalso. apply (Hfirst k); [lia | assumption].
Qed.

(** When [x] is in no slot of [start .. start + count - 1], the scan either
    leaves the vector or stops outside that span. *)
Lemma scan_absent index x start count :
  (forall k, start <= k < start + count -> vat index k <> Some x) ->
  scan index x start = Fault OutOfBounds \/
  exists idel n, scan index x start = Ok idel n /\ start + count <= idel /\
                 vat index idel = Some x.
Proof.
  intros Habs. destruct (scan index x start) as [r n|f] eqn:E.
  - right. exists r, n. destruct (scan_inv _ _ _ _ _ E) as (Hr & Hx & _).
    repeat split; [|assumption].
    destruct (Z_le_gt_dec (start + count) r); [assumption|].
    exfalso. apply (Habs r); [lia | assumption].
  - left. f_equal. unfold scan in E.
    destruct (decide (0 <= start)); [|congruence].
    eapply scan_from_fault; eauto.
Qed.

Lemma vget_fault {A} (v : list A) i f : vget v i = Fault f -> f = OutOfBounds.
Proof. unfold vget. destruct (vat v i); intros H; now inversion H. Qed.

Lemma vset_fault {A} (v : list A) i x f : vset v i x = Fault f -> f = OutOfBounds.
Proof. unfold vset. destruct (vat v i); intros H; now inversion H. Qed.

Lemma scan_fault index x start f : scan index x start = Fault f -> f = OutOfBounds.
Proof.
  unfold scan. destruct (decide (0 <= start)).
  - apply scan_from_fault.
  - intros H. now inversion H.
Qed.

(** One step of a computation whose next access is known to succeed. *)
Ltac mstep :=
  first [ erewrite vget_Ok by eassumption
        | rewrite vset_Ok by (first [lia | eapply vat_lt; eassumption]) ];
  simpl.

(** One step of a computation whose next access may fault: [x] names the
    value read or the vector written, [E] what is known of it. *)
Ltac mcase_as x E :=
  match goal with
  | |- context [mbind _ (vget ?v ?i)] =>
      let n := fresh "n" in let f := fresh "f" in
      destruct (vget v i) as [x n|f] eqn:E; simpl;
      [apply vget_inv in E as [E ->] | now apply vget_fault in E]
  | |- context [mbind _ (vset ?v ?i ?y)] =>
      let n := fresh "n" in let f := fresh "f" in
      destruct (vset v i y) as [x n|f] eqn:E; simpl;
      [apply vset_inv in E as (E & -> & ->) | now apply vset_fault in E]
  end.

Ltac mcase E := let x := fresh "a" in mcase_as x E.

(** ** [colDelete] and [rowDelete] *)

Lemma colDelete_present s iCol iRow start count k :
  col_span s iCol start count ->
  start <= k < start + count ->
  vat (mc_index (mc s)) k = Some iRow ->
  exists idel pivot_multiplier moved_index moved_value n,
    start <= idel <= k /\
    vat (mc_index (mc s)) idel = Some iRow /\
    (forall k', start <= k' < idel -> vat (mc_index (mc s)) k' <> Some iRow) /\
    vat (mc_value (mc s)) idel = Some pivot_multiplier /\
    vat (mc_index (mc s)) (start + count - 1) = Some moved_index /\
    vat (mc_value (mc s)) (start + count - 1) = Some moved_value /\
    colDelete s iCol iRow
    = Ok (pivot_multiplier,
          col_deleted s iCol idel count moved_index moved_value) n.
Proof.
  intros (Hstart & Hcount & H0 & Hli & Hlv) Hk Hat.
  destruct (scan_present _ _ start k ltac:(lia) Hat)
    as (idel & n & Hscan & Hidel & Hx & Hfirst).
  destruct (proj2 (vat_range (mc_value (mc s)) idel) ltac:(lia)) as [pm Hpm].
  destruct (proj2 (vat_range (mc_index (mc s)) (start + count - 1)) ltac:(lia))
    as [mi Hmi].
  destruct (proj2 (vat_range (mc_value (mc s)) (start + count - 1)) ltac:(lia))
    as [mv Hmv].
  exists idel, pm, mi, mv. eexists. repeat split; try assumption; try lia.
  unfold colDelete. repeat mstep. rewrite Hscan. simpl.
  replace (start + (count - 1)) with (start + count - 1) by lia.
  repeat mstep. reflexivity.
Qed.

Lemma colDelete_absent s iCol iRow start count :
  vat (mc_start (mc s)) iCol = Some start ->
  vat (mc_count_a (mc s)) iCol = Some count ->
  (forall k, start <= k < start + count ->
             vat (mc_index (mc s)) k <> Some iRow) ->
  match colDelete s iCol iRow with
  | Fault f => f = OutOfBounds
  | Ok (pivot_multiplier, s') _ =>
      exists idel moved_index moved_value,
        start + count <= idel /\
        vat (mc_index (mc s)) idel = Some iRow /\
        vat (mc_value (mc s)) idel = Some pivot_multiplier /\
        s' = col_deleted s iCol idel count moved_index moved_value
  end.
Proof.
  intros Hstart Hcount Habs. unfold colDelete. repeat mstep.
  destruct (scan_absent _ _ _ _ Habs) as [E|(idel & n & E & Hge & Hx)];
    rewrite E; simpl; [reflexivity|].
  mcase E1. mcase E2. mcase E3. mcase E4. mcase E5.
  exists idel. do 2 eexists. repeat split; assumption.
Qed.

Lemma rowDelete_present s iCol iRow start count k :
  row_span s iRow start count ->
  start <= k < start + count ->
  vat (mr_index (mr s)) k = Some iCol ->
  exists idel moved_index n,
    start <= idel <= k /\
    vat (mr_index (mr s)) idel = Some iCol /\
    (forall k', start <= k' < idel -> vat (mr_index (mr s)) k' <> Some iCol) /\
    vat (mr_index (mr s)) (start + count - 1) = Some moved_index /\
    rowDelete s iCol iRow = Ok (row_deleted s iRow idel count moved_index) n.
Proof.
  intros (Hstart & Hcount & H0 & Hli) Hk Hat.
  destruct (scan_present _ _ start k ltac:(lia) Hat)
    as (idel & n & Hscan & Hidel & Hx & Hfirst).
  destruct (proj2 (vat_range (mr_index (mr s)) (start + count - 1)) ltac:(lia))
    as [mi Hmi].
  exists idel, mi. eexists. repeat split; try assumption; try lia.
  unfold rowDelete. repeat mstep. rewrite Hscan. simpl.
  replace (start + (count - 1)) with (start + count - 1) by lia.
  repeat mstep. reflexivity.
Qed.

Lemma rowDelete_absent s iCol iRow start count :
  vat (mr_start (mr s)) iRow = Some start ->
  vat (mr_count (mr s)) iRow = Some count ->
  (forall k, start <= k < start + count ->
             vat (mr_index (mr s)) k <> Some iCol) ->
  match rowDelete s iCol iRow with
  | Fault f => f = OutOfBounds
  | Ok s' _ =>
      exists idel moved_index,
        start + count <= idel /\
        vat (mr_index (mr s)) idel = Some iCol /\
        s' = row_deleted s iRow idel count moved_index
  end.
Proof.
  intros Hstart Hcount Habs. unfold rowDelete. repeat mstep.
  destruct (scan_absent _ _ _ _ Habs) as [E|(idel & n & E & Hge & Hx)];
    rewrite E; simpl; [reflexivity|].
  mcase E1. mcase E2.
  exists idel. eexists. repeat split; assumption.
Qed.

(** C10.  [colDelete(iCol, iRow)] on a column whose live span
    [start .. start + count - 1] lies in the arena.  If [iRow] is the index
    of a live entry, the scan stops inside the live span, at the first slot
    [idel] holding [iRow]; the call returns the value stored there, lowers
    [mc_count_a[iCol]] by one and overwrites slot [idel] with the last live
    entry (index and value), changing nothing else.  If [iRow] is the index
    of no live entry, nothing stops the scan at the end of the span: the
    call either leaves the vector or deletes at a slot outside the live
    span.  [rowDelete(iCol, iRow)] does the same on [mr_index] and
    [mr_count], with no value to return. *)
Theorem delete_contract (s : HFactor) (iCol iRow : Z) :
  (forall start count, col_span s iCol start count ->
     ((exists k, start <= k < start + count /\
                 vat (mc_index (mc s)) k = Some iRow) ->
      exists idel pivot_multiplier moved_index moved_value n,
        start <= idel < start + count /\
        vat (mc_index (mc s)) idel = Some iRow /\
        (forall k', start <= k' < idel ->
                    vat (mc_index (mc s)) k' <> Some iRow) /\
        vat (mc_value (mc s)) idel = Some pivot_multiplier /\
        vat (mc_index (mc s)) (start + count - 1) = Some moved_index /\
        vat (mc_value (mc s)) (start + count - 1) = Some moved_value /\
        colDelete s iCol iRow
        = Ok (pivot_multiplier,
              col_deleted s iCol idel count moved_index moved_value) n) /\
     ((forall k, start <= k < start + count ->
                 vat (mc_index (mc s)) k <> Some iRow) ->
      match colDelete s iCol iRow with
      | Fault f => f = OutOfBounds
      | Ok (pivot_multiplier, s') _ =>
          exists idel moved_index moved_value,
            start + count <= idel /\
            vat (mc_index (mc s)) idel = Some iRow /\
            vat (mc_value (mc s)) idel = Some pivot_multiplier /\
            s' = col_deleted s iCol idel count moved_index moved_value
      end)) /\
  (forall start count, row_span s iRow start count ->
     ((exists k, start <= k < start + count /\
                 vat (mr_index (mr s)) k = Some iCol) ->
      exists idel moved_index n,
        start <= idel < start + count /\
        vat (mr_index (mr s)) idel = Some iCol /\
        (forall k', start <= k' < idel ->
                    vat (mr_index (mr s)) k' <> Some iCol) /\
        vat (mr_index (mr s)) (start + count - 1) = Some moved_index /\
        rowDelete s iCol iRow
        = Ok (row_deleted s iRow idel count moved_index) n) /\
     ((forall k, start <= k < start + count ->
                 vat (mr_index (mr s)) k <> Some iCol) ->
      match rowDelete s iCol iRow with
      | Fault f => f = OutOfBounds
      | Ok s' _ =>
          exists idel moved_index,
            start + count <= idel /\
            vat (mr_index (mr s)) idel = Some iCol /\
            s' = row_deleted s iRow idel count moved_index
      end)).
Proof.
  split; intros start count Hspan; split.
  - intros (k & Hk & Hat).
    destruct (colDelete_present _ _ _ _ _ _ Hspan Hk Hat)
      as (idel & pm & mi & mv & n & H1 & H2 & H3 & H4 & H5 & H6 & H7).
    exists idel, pm, mi, mv, n. repeat split; try assumption; lia.
  - destruct Hspan as (Hstart & Hcount & _). now apply colDelete_absent.
  - intros (k & Hk & Hat).
    destruct (rowDelete_present _ _ _ _ _ _ Hspan Hk Hat)
      as (idel & mi & n & H1 & H2 & H3 & H4 & H5).
    exists idel, mi, n. repeat split; try assumption; lia.
  - destruct Hspan as (Hstart & Hcount & _). now apply rowDelete_absent.
Qed.

(** Column 0 of [kernel3] holds rows 0, 1, 2.  Deleting row 0 returns 2 and
    leaves rows 2, 1 in the first two slots: the last entry took the
    vacated slot.  Row 0 is not in column 2, whose span is slot 9: the
    scan from slot 9 leaves the vector. *)
Lemma delete_contract_witness :
  col_span kernel3 0 0 3 /\
  (exists idel pivot_multiplier moved_index moved_value n,
     0 <= idel < 0 + 3 /\
     vat (mc_index (mc kernel3)) idel = Some 0 /\
     (forall k', 0 <= k' < idel -> vat (mc_index (mc kernel3)) k' <> Some 0) /\
     vat (mc_value (mc kernel3)) idel = Some pivot_multiplier /\
     vat (mc_index (mc kernel3)) (0 + 3 - 1) = Some moved_index /\
     vat (mc_value (mc kernel3)) (0 + 3 - 1) = Some moved_value /\
     colDelete kernel3 0 0
     = Ok (pivot_multiplier,
           col_deleted kernel3 0 idel 3 moved_index moved_value) n) /\
  colDelete kernel3 0 0
  = Ok (2%float, col_deleted kernel3 0 0 3 2 4%float) 10 /\
  take 2 (mc_index (mc (col_deleted kernel3 0 0 3 2 4%float))) = [2; 1] /\
  colDelete kernel3 2 0 = Fault OutOfBounds.
Proof.
  assert (Hspan : col_span kernel3 0 0 3).
  { repeat split; try reflexivity; simpl; lia. }
  split; [exact Hspan|]. split.
  - apply (proj1 (proj1 (delete_contract kernel3 0 0) 0 3 Hspan)).
    exists 0. split; [lia | reflexivity].
  - repeat split; reflexivity.
Defined.

(** With the drop tolerance [tiny14]: the value [2^-67] stops at the
    assertion, and [0.25] goes to slot [5 + 2] of column 1 of [kernel3]. *)
Lemma colInsert_assert_or_append_witness :
  colInsert tiny14 kernel3 1 2 0x1p-67 = Fault AssertionFailed /\
  colInsert tiny14 kernel3 1 2 0.25 <> Fault AssertionFailed /\
  colInsert tiny14 kernel3 1 2 0.25
  = Ok (col_inserted kernel3 1 2 (5 + 2) 2 0.25) 5.
Proof.
  split.
  - apply (proj1 (colInsert_assert_or_append tiny14 kernel3 1 2 0x1p-67)).
    reflexivity.
  - destruct (proj2 (colInsert_assert_or_append tiny14 kernel3 1 2 0.25)
                eq_refl) as [Hno Hok].
    split; [exact Hno|].
    apply Hok; try reflexivity; simpl; lia.
Defined.

(** ** [colFixMax] *)

Lemma colFixMax_loop_Ok values (n : nat) k m0 :
  0 <= k -> k + Z.of_nat n <= Z.of_nat (length values) ->
  colFixMax_loop values n k m0
  = Ok (abs_max_from m0 (take n (drop (Z.to_nat k) values))) n.
Proof.
  revert k m0. induction n as [|n IH]; intros k m0 Hk Hlen.
  - reflexivity.
  - destruct (proj2 (vat_range values k) ltac:(lia)) as [v Hv].
    cbn [colFixMax_loop]. rewrite (vget_Ok _ _ _ Hv). simpl.
    rewrite IH by lia. apply vat_Some in Hv as [_ Hv].
    rewrite (drop_S _ _ _ Hv). simpl.
    now replace (Z.to_nat (k + 1)) with (S (Z.to_nat k)) by lia.
Qed.

Lemma abs_max_from_bound vs m0 x :
  (m0 <? x)%float = false ->
  (forall v, v ∈ vs -> (abs v <? x)%float = false) ->
  (abs_max_from m0 vs <? x)%float = false.
Proof.
  revert m0. induction vs as [|v vs IH]; intros m0 Hm Hvs; [exact Hm|].
  simpl. apply IH.
  - apply F64.fmax_keeps_bound; [exact Hm | apply Hvs; left].
  - intros w Hw. apply Hvs. now right.
Qed.

Lemma abs_max_from_above_start vs m0 x :
  (m0 <? x)%float = false -> (abs_max_from m0 vs <? x)%float = false.
Proof.
  revert m0. induction vs as [|v vs IH]; intros m0 Hm; [exact Hm|].
  simpl. apply IH. now apply F64.fmax_bounds_left.
Qed.

Lemma abs_max_from_upper vs m0 v :
  v ∈ vs -> (abs_max_from m0 vs <? abs v)%float = false.
Proof.
  revert m0. induction vs as [|w vs IH]; intros m0 Hin.
  - inversion Hin.
  - simpl. apply elem_of_cons in Hin as [->|Hin].
    + apply abs_max_from_above_start, F64.fmax_bounds_right.
    + now apply IH.
Qed.

Lemma abs_max_from_attained vs m0 :
  abs_max_from m0 vs = m0 \/ exists v, v ∈ vs /\ abs_max_from m0 vs = abs v.
Proof.
  revert m0. induction vs as [|w vs IH]; intros m0; [now left|].
  simpl. destruct (IH (fmax m0 (abs w))) as [E|(v & Hv & E)].
  - rewrite E. unfold fmax. destruct (m0 <? abs w)%float.
    + right. exists w. split; [left | reflexivity].
    + now left.
  - right. exists v. split; [now right | exact E].
Qed.

Lemma abs_max_from_is_max vs : col_abs_max (abs_max_from 0 vs) vs.
Proof.
  split.
  - intros v Hv. now apply abs_max_from_upper.
  - apply abs_max_from_attained.
Qed.

Lemma colFixMax_Ok s iCol start count :
  col_span s iCol start count ->
  is_Some (vat (mc_min_pivot (mc s)) iCol) ->
  colFixMax s iCol
  = Ok (col_fixed s iCol
          (abs_max_from 0 (live_values s start count) * pivot_threshold s))
       (3 + Z.to_nat count).
Proof.
  intros (Hstart & Hcount & H0 & _ & Hlv) Hmp. unfold colFixMax.
  repeat mstep. unfold live_values.
  destruct (Z.to_nat count) as [|n] eqn:En.
  - simpl. rewrite vset_Ok by (now apply vat_range). reflexivity.
  - rewrite colFixMax_loop_Ok by lia. simpl.
    rewrite vset_Ok by (now apply vat_range). simpl.
    unfold col_fixed. f_equal. lia.
Qed.

Lemma colFixMax_min_pivot_in_range s iCol s1 n :
  colFixMax s iCol = Ok s1 n -> is_Some (vat (mc_min_pivot (mc s)) iCol).
Proof.
  unfold colFixMax. mcase E1. mcase E2.
  destruct (colFixMax_loop _ _ _ _) as [m k|f]; simpl; [|discriminate].
  mcase E3. intros _. now apply vat_range.
Qed.

Lemma kernel_entry_inv s iRow jCol k v :
  kernel_entry s iRow jCol = Some (k, v) ->
  exists start count,
    vat (mc_start (mc s)) jCol = Some start /\
    vat (mc_count_a (mc s)) jCol = Some count /\
    start <= k < start + count /\
    vat (mc_index (mc s)) k = Some iRow /\
    (forall k', start <= k' < k -> vat (mc_index (mc s)) k' <> Some iRow) /\
    vat (mc_value (mc s)) k = Some v.
Proof.
  unfold kernel_entry.
  destruct (vat (mc_start (mc s)) jCol) as [start|]; simpl; [|discriminate].
  destruct (vat (mc_count_a (mc s)) jCol) as [count|]; simpl; [|discriminate].
  destruct (scan (mc_index (mc s)) iRow start) as [r n|f] eqn:E; simpl;
    [|discriminate].
  destruct (decide (r < start + count)) as [Hr|]; [|discriminate].
  destruct (vat (mc_value (mc s)) r) as [w|] eqn:Ew; simpl; [|discriminate].
  intros H. inversion H; subst.
  destruct (scan_inv _ _ _ _ _ E) as (Hk & Hx & Hfirst).
  exists start, count. repeat split; try assumption; lia.
Qed.

Lemma acceptablePivot_inv s iRow jCol :
  acceptablePivot s iRow jCol = true ->
  exists k v min_pivot,
    kernel_entry s iRow jCol = Some (k, v) /\
    vat (mc_min_pivot (mc s)) jCol = Some min_pivot /\
    (min_pivot <=? abs v)%float = true.
Proof.
  unfold acceptablePivot.
  destruct (kernel_entry s iRow jCol) as [[k v]|]; [|discriminate].
  destruct (vat (mc_min_pivot (mc s)) jCol) as [mp|]; [|discriminate].
  intros H. exists k, v, mp. auto.
Qed.

(** C4.  For a column [iCol] whose live span lies in the arena,
    [colFixMax] sets [mc_min_pivot[iCol]] to [max_value * pivot_threshold],
    where [max_value] is the maximum of [|mc_value[k]|] over the live slots
    [mc_start[iCol] .. mc_start[iCol] + mc_count_a[iCol] - 1]; with no live
    entry [max_value] is 0, and the product compares equal to 0 for a
    threshold in its range [[0, 0.5]].  A candidate [(iRow, jCol)] is
    acceptable only if it is a live entry of column [jCol] whose magnitude
    is at least [mc_min_pivot[jCol]]. *)
Theorem colFixMax_threshold (s : HFactor) (iCol start count : Z)
    (Hspan : col_span s iCol start count)
    (Hmp : is_Some (vat (mc_min_pivot (mc s)) iCol)) :
  (exists max_value n,
     col_abs_max max_value (live_values s start count) /\
     colFixMax s iCol
     = Ok (col_fixed s iCol (max_value * pivot_threshold s)) n /\
     vat (mc_min_pivot
            (mc (col_fixed s iCol (max_value * pivot_threshold s)))) iCol
     = Some (max_value * pivot_threshold s)%float /\
     (count <= 0 ->
      max_value = 0%float /\
      ((0 <=? pivot_threshold s)%float = true ->
       (pivot_threshold s <=? 0.5)%float = true ->
       (max_value * pivot_threshold s =? 0)%float = true))) /\
  (forall s' iRow jCol,
     acceptablePivot s' iRow jCol = true ->
     exists k v min_pivot start' count',
       vat (mc_start (mc s')) jCol = Some start' /\
       vat (mc_count_a (mc s')) jCol = Some count' /\
       start' <= k < start' + count' /\
       vat (mc_index (mc s')) k = Some iRow /\
       vat (mc_value (mc s')) k = Some v /\
       vat (mc_min_pivot (mc s')) jCol = Some min_pivot /\
       (min_pivot <=? abs v)%float = true).
Proof.
  split.
  - exists (abs_max_from 0 (live_values s start count)), (3 + Z.to_nat count)%nat.
    split; [apply abs_max_from_is_max|].
    split; [now apply colFixMax_Ok|]. split.
    + simpl. apply vat_vupd_eq. now apply vat_range.
    + intros Hc. unfold live_values.
      replace (Z.to_nat count) with 0%nat by lia. simpl.
      split; [reflexivity|]. apply F64.mul_zero_threshold.
  - intros s' iRow jCol Hacc.
    destruct (acceptablePivot_inv _ _ _ Hacc) as (k & v & mp & He & Hm & Hle).
    destruct (kernel_entry_inv _ _ _ _ _ He)
      as (st & ct & H1 & H2 & H3 & H4 & _ & H6).
    exists k, v, mp, st, ct. auto 10.
Qed.

(** Column 0 of [kernel3] holds 2, 1, 4 and the threshold is 0.5:
    [colFixMax] stores 4 * 0.5 = 2. *)
Lemma colFixMax_threshold_witness :
  col_span kernel3 0 0 3 /\
  is_Some (vat (mc_min_pivot (mc kernel3)) 0) /\
  colFixMax kernel3 0 = Ok (col_fixed kernel3 0 2%float) 6 /\
  acceptablePivot kernel3 2 0 = true /\
  acceptablePivot kernel3 1 0 = false /\
  exists max_value n,
    col_abs_max max_value (live_values kernel3 0 3) /\
    colFixMax kernel3 0
    = Ok (col_fixed kernel3 0 (max_value * pivot_threshold kernel3)) n.
Proof.
  assert (Hspan : col_span kernel3 0 0 3).
  { repeat split; try reflexivity; simpl; lia. }
  assert (Hmp : is_Some (vat (mc_min_pivot (mc kernel3)) 0)).
  { eexists. reflexivity. }
  split; [exact Hspan|]. split; [exact Hmp|].
  split; [reflexivity|]. split; [reflexivity|]. split; [reflexivity|].
  destruct (proj1 (colFixMax_threshold kernel3 0 0 3 Hspan Hmp))
    as (m & n & Hmax & Hfix & _).
  exists m, n. split; assumption.
Defined.

(** ** The kernel loop: thresholds stay in step with the columns *)

Lemma colFixMax_loop_inv values (n : nat) k m0 r c :
  colFixMax_loop values n k m0 = Ok r c ->
  r = abs_max_from m0 (take n (drop (Z.to_nat k) values)).
Proof.
  revert k m0 c. induction n as [|n IH]; intros k m0 c.
  - simpl. intros H. inversion H. reflexivity.
  - cbn [colFixMax_loop]. mcase_as v E.
    destruct (colFixMax_loop values n (k + 1) (fmax m0 (abs v)))
      as [r' c'|f] eqn:El; [|discriminate].
    intros H. inversion H; subst r. apply IH in El. rewrite El.
    apply vat_Some in E as [Hk E]. rewrite (drop_S _ _ _ E). simpl.
    now replace (Z.to_nat (k + 1)) with (S (Z.to_nat k)) by lia.
Qed.

Lemma colFixMax_inv s j s' n :
  colFixMax s j = Ok s' n ->
  exists vs,
    column_values s j = Some vs /\
    0 <= j < Z.of_nat (length (mc_min_pivot (mc s))) /\
    s' = col_fixed s j (abs_max_from 0 vs * pivot_threshold s).
Proof.
  unfold colFixMax, column_values. mcase_as start E1. mcase_as count E2.
  destruct (colFixMax_loop (mc_value (mc s)) (Z.to_nat count) start 0)
    as [m c|f] eqn:El; simpl; [|discriminate].
  mcase_as mp E3. intros H. inversion H.
  apply colFixMax_loop_inv in El. subst m.
  rewrite E1. simpl. rewrite E2. simpl.
  eexists. split; [reflexivity|]. split; [exact E3|]. reflexivity.
Qed.

(** [colFixMax] on column [j] brings its threshold up to date and leaves
    every other threshold, every column, the configuration and the pivots
    recorded as they were. *)
Lemma colFixMax_fresh s j s' n :
  colFixMax s j = Ok s' n ->
  (forall j', j' = j \/ col_fresh s j' -> col_fresh s' j') /\
  (forall j', column_values s' j' = column_values s j') /\
  pivot_threshold s' = pivot_threshold s /\
  pivot_tolerance s' = pivot_tolerance s /\
  u_pivot_value s' = u_pivot_value s.
Proof.
  intros H. destruct (colFixMax_inv _ _ _ _ H) as (vs & Hvs & Hj & ->).
  split; [|repeat split].
  intros j' Hj' vs' Hvs'.
  change (column_values s j' = Some vs') in Hvs'.
  change (vat (vupd (mc_min_pivot (mc s)) j
                 (abs_max_from 0 vs * pivot_threshold s)%float) j'
          = Some (abs_max_from 0 vs' * pivot_threshold s)%float).
  destruct (decide (j' = j)) as [->|Hne].
  - rewrite vat_vupd_eq by assumption. congruence.
  - rewrite vat_vupd_ne by lia. destruct Hj' as [?|Hf]; [contradiction|].
    now apply Hf.
Qed.

Lemma refreshThresholds_fresh cols s s' n :
  refreshThresholds s cols = Ok s' n ->
  (forall j, j ∈ cols \/ col_fresh s j -> col_fresh s' j) /\
  (forall j, column_values s' j = column_values s j) /\
  pivot_threshold s' = pivot_threshold s /\
  pivot_tolerance s' = pivot_tolerance s /\
  u_pivot_value s' = u_pivot_value s.
Proof.
  revert s n. induction cols as [|c cols IH]; intros s n.
  - simpl. intros H. inversion H; subst s'.
    split; [|repeat split]. intros j [Hin|Hf]; [inversion Hin | exact Hf].
  - cbn [refreshThresholds].
    destruct (colFixMax s c) as [s1 n1|f] eqn:E1; simpl; [|discriminate].
    destruct (refreshThresholds s1 cols) as [s2 n2|f] eqn:E2; [|discriminate].
    intros H. inversion H; subst s2. clear H.
    destruct (colFixMax_fresh _ _ _ _ E1) as (F1 & V1 & T1 & P1 & U1).
    destruct (IH _ _ E2) as (F2 & V2 & T2 & P2 & U2).
    split; [|split; [|split; [|split]]]; [| |congruence..].
    + intros j Hj. apply F2.
      destruct (decide (j ∈ cols)) as [Hin|Hout]; [now left|right].
      apply F1. destruct Hj as [Hj|Hf]; [|now right].
      apply elem_of_cons in Hj as [->|Hj]; [now left | contradiction].
    + intros j. now rewrite V2, V1.
Qed.

(** After [mc_min_pivot] has been set for every column of the kernel, all
    thresholds are up to date. *)
Lemma refreshThresholds_all s s' n :
  refreshThresholds s (seqZ 0 (Z.of_nat (length (mc_start (mc s))))) = Ok s' n ->
  thresholds_fresh s'.
Proof.
  intros H j. destruct (refreshThresholds_fresh _ _ _ _ H) as (F & _).
  apply F. destruct (vat (mc_start (mc s)) j) as [start|] eqn:E.
  - left. apply vat_lt in E. apply elem_of_seqZ. lia.
  - right. intros vs Hvs. unfold column_values in Hvs. rewrite E in Hvs.
    discriminate.
Qed.

(** A pivot chosen in a column whose threshold is up to date satisfies the
    bound, and is recorded. *)
Lemma kernelPivot_bound s iRow jCol s1 :
  col_fresh s jCol -> kernelPivot s iRow jCol = Some s1 ->
  exists v,
    s1 = set_u_pivot_value s (u_pivot_value s ++ [v]) /\
    threshold_bound s iRow jCol v.
Proof.
  intros Hfresh Hpivot. unfold kernelPivot in Hpivot.
  destruct (acceptablePivot s iRow jCol) eqn:Hacc; [|discriminate].
  destruct (acceptablePivot_inv _ _ _ Hacc) as (k & v & mp & He & Hm & Hle).
  rewrite He in Hpivot. simpl in Hpivot.
  destruct (pivot_tolerance s <=? abs v)%float; [|discriminate].
  inversion Hpivot as [Hs1].
  destruct (kernel_entry_inv _ _ _ _ _ He)
    as (start & count & H1 & H2 & H3 & H4 & _ & H6).
  assert (Hvs : column_values s jCol = Some (live_values s start count)).
  { unfold column_values. rewrite H1. simpl. rewrite H2. reflexivity. }
  rewrite (Hfresh _ Hvs) in Hm. inversion Hm; subst mp.
  exists v. split; [reflexivity|].
  exists k, start, count, (abs_max_from 0 (live_values s start count)).
  repeat (split; [assumption|]). split; [apply abs_max_from_is_max | exact Hle].
Qed.

Lemma eliminated_fresh s s' touched j :
  eliminated s s' touched -> j ∉ touched -> col_fresh s j -> col_fresh s' j.
Proof.
  intros (Ht & _ & _ & Hframe) Hj Hf vs Hvs.
  destruct (Hframe j Hj) as [Hv Hm]. rewrite Hm, Ht. apply Hf. congruence.
Qed.

(** Along the loop every pivot is chosen under thresholds that are up to
    date. *)
Lemma kernelLoop_bound s pivots s' :
  kernelLoop s pivots s' -> thresholds_fresh s ->
  exists vs,
    u_pivot_value s' = u_pivot_value s ++ vs /\
    pivot_threshold s' = pivot_threshold s /\
    Forall2 (fun p v => pivot_threshold p.1.1 = pivot_threshold s /\
                        threshold_bound p.1.1 p.1.2 p.2 v) pivots vs.
Proof.
  induction 1 as [s|s iRow jCol s1 touched s2 s3 n pivots s' Hp He Hr _ IH];
    intros Hfresh.
  - exists []. rewrite app_nil_r. repeat split. constructor.
  - destruct (kernelPivot_bound _ _ _ _ (Hfresh jCol) Hp) as (v & -> & Hb).
    destruct (refreshThresholds_fresh _ _ _ _ Hr) as (F & _ & T & _ & U).
    pose proof He as (Te & _ & Ue & _).
    assert (Hfresh3 : thresholds_fresh s3).
    { intros j. apply F.
      destruct (decide (j ∈ touched)) as [Hin|Hout]; [now left|right].
      eapply eliminated_fresh; [exact He | exact Hout | exact (Hfresh j)]. }
    destruct (IH Hfresh3) as (vs & Hu & Ht & Hall).
    assert (T3 : pivot_threshold s3 = pivot_threshold s)
      by (rewrite T, Te; reflexivity).
    exists (v :: vs). split; [|split].
    + rewrite Hu, U, Ue. simpl. now rewrite <- app_assoc.
    + congruence.
    + constructor; [split; [reflexivity | exact Hb]|].
      eapply Forall2_impl; [exact Hall|].
      intros p w [Hpt Hpb]. split; [congruence | exact Hpb].
Qed.

(** C1.  Threshold pivoting, for every kernel pivot of Build.  Let
    [buildKernel] run on a kernel: it sets [mc_min_pivot] of every column
    with [colFixMax], and after each elimination again for the columns
    touched; each pivot is a candidate that the acceptance test lets
    through.  Then the run has appended one value to [u_pivot_value] for
    each pivot it chose, and for every one of them, in the state the pivot
    was chosen in: the value is the live entry [(iRow, jCol)] of the kernel,
    [pivot_threshold] is the engine's, and [|value| >= max_value *
    pivot_threshold], where [max_value] is the maximum absolute live entry
    of column [jCol] at that time.  That [mc_min_pivot] is up to date at
    each pivot is not assumed: it follows from what [colFixMax] stores. *)
Theorem kernel_pivot_threshold
    (s0 s' : HFactor) (pivots : list (HFactor * Z * Z))
    (Hbuild : buildKernel s0 pivots s') :
  exists vs,
    u_pivot_value s' = u_pivot_value s0 ++ vs /\
    pivot_threshold s' = pivot_threshold s0 /\
    Forall2 (fun p v => pivot_threshold p.1.1 = pivot_threshold s0 /\
                        threshold_bound p.1.1 p.1.2 p.2 v) pivots vs.
Proof.
  destruct Hbuild as (s & n & Hprep & Hloop).
  pose proof (refreshThresholds_all _ _ _ Hprep) as Hfresh.
  destruct (refreshThresholds_fresh _ _ _ _ Hprep) as (_ & _ & T & _ & U).
  destruct (kernelLoop_bound _ _ _ Hloop Hfresh) as (vs & Hu & Ht & Hall).
  exists vs. rewrite <- U, <- T. split; [exact Hu|]. split; [exact Ht|].
  exact Hall.
Qed.

(** Two rounds of the loop on [kernel3], with the threshold 0.5.  Column 0
    holds 2, 1, 4: the entry 1 of row 1 is refused, the entry 4 of row 2 is
    chosen.  The elimination touches columns 0 and 2; their thresholds go
    from 2 and 2.5 to 0 and 1.25.  Column 2 then holds -2.5 and -1.25, and
    the entry -2.5 of row 0 is chosen. *)
Lemma kernel3_build :
  buildKernel kernel3
    [(kernel3, 2, 0); (kernel3_refreshed, 0, 2)]
    (set_u_pivot_value kernel3_refreshed [4; -2.5]%float).
Proof.
  exists kernel3, 15%nat. split; [reflexivity|].
  apply (loop_pivot kernel3 2 0 kernel3_pivoted [0; 2] kernel3_eliminated
           kernel3_refreshed 8%nat); [reflexivity| |reflexivity|].
  - split; [reflexivity|]. split; [reflexivity|]. split; [reflexivity|].
    intros j Hj. unfold column_values, vat. simpl.
    destruct (decide (0 <= j)) as [H0|H0]; [|split; reflexivity].
    destruct (Z.to_nat j) as [|[|[|i]]] eqn:E; try (split; reflexivity).
    + exfalso. apply Hj. replace j with 0 by lia. left.
    + exfalso. apply Hj. replace j with 2 by lia. right. left.
  - apply (loop_pivot kernel3_refreshed 0 2
             (set_u_pivot_value kernel3_refreshed [4; -2.5]%float) []
             (set_u_pivot_value kernel3_refreshed [4; -2.5]%float)
             (set_u_pivot_value kernel3_refreshed [4; -2.5]%float) 0%nat);
      [reflexivity| |reflexivity|apply loop_stop].
    split; [reflexivity|]. split; [reflexivity|]. split; [reflexivity|].
    intros j _. split; reflexivity.
Qed.

Lemma kernel_pivot_threshold_witness :
  buildKernel kernel3
    [(kernel3, 2, 0); (kernel3_refreshed, 0, 2)]
    (set_u_pivot_value kernel3_refreshed [4; -2.5]%float) /\
  kernelPivot kernel3 1 0 = None /\
  exists vs,
    u_pivot_value (set_u_pivot_value kernel3_refreshed [4; -2.5]%float)
    = u_pivot_value kernel3 ++ vs /\
    pivot_threshold (set_u_pivot_value kernel3_refreshed [4; -2.5]%float)
    = pivot_threshold kernel3 /\
    Forall2 (fun p v => pivot_threshold p.1.1 = pivot_threshold kernel3 /\
                        threshold_bound p.1.1 p.1.2 p.2 v)
      [(kernel3, 2, 0); (kernel3_refreshed, 0, 2)] vs.
Proof.
  split; [exact kernel3_build|]. split; [reflexivity|].
  exact (kernel_pivot_threshold kernel3 _ _ kernel3_build).
Defined.

(** ** The two views of the kernel and their entry counts *)

Lemma Zsum_insert (l : list Z) (i : nat) (x y : Z) :
  l !! i = Some x -> Zsum (<[i := y]> l) = Zsum l - x + y.
Proof.
  revert i. induction l as [|a l IH]; intros [|i]; simpl; try discriminate.
  - intros H. inversion H. lia.
  - intros H. rewrite (IH _ H). lia.
Qed.

Lemma Zsum_vupd (l : list Z) (i x y : Z) :
  vat l i = Some x -> Zsum (vupd l i y) = Zsum l - x + y.
Proof. intros H. apply vat_Some in H as [_ H]. now apply Zsum_insert. Qed.

Lemma span_entries_length index start count :
  0 <= start -> 0 <= count -> start + count <= Z.of_nat (length index) ->
  Z.of_nat (length (span_entries index start count)) = count.
Proof.
  intros. unfold span_entries. rewrite length_take, length_drop. lia.
Qed.

Lemma entries_length {B} (g : nat -> Z * Z -> list B) starts counts :
  length starts = length counts ->
  (forall (j : nat) sc, zip starts counts !! j = Some sc ->
                        Z.of_nat (length (g j sc)) = sc.2) ->
  Z.of_nat (length (concat (imap g (zip starts counts)))) = Zsum counts.
Proof.
  revert g counts. induction starts as [|a starts IH];
    intros g [|c counts] Hlen Hg; simpl in *; try discriminate; [reflexivity|].
  rewrite length_app, Nat2Z.inj_add, (Hg 0%nat (a, c) eq_refl). simpl.
  rewrite (IH (g ∘ S) counts); [reflexivity | lia |].
  intros j sc Hj. apply (Hg (S j)). exact Hj.
Qed.

Lemma spans_wf_entries_length {B} (f : nat -> Z -> B) starts counts index :
  spans_wf starts counts (Z.of_nat (length index)) ->
  Z.of_nat (length (concat (imap (fun j sc =>
     f j <$> span_entries index sc.1 sc.2) (zip starts counts))))
  = Zsum counts.
Proof.
  intros [Hlen Hwf]. apply entries_length; [exact Hlen|].
  intros j [a c] Hj. rewrite length_fmap. simpl.
  apply lookup_zip_with_Some in Hj as (a' & c' & Heq & Ha & Hc).
  inversion Heq; subst a' c'.
  destruct (Hwf (Z.of_nat j) a c) as (H0 & H1 & H2).
  - apply vat_Some. split; [lia|]. now rewrite Nat2Z.id.
  - apply vat_Some. split; [lia|]. now rewrite Nat2Z.id.
  - now apply span_entries_length.
Qed.

(** The sums count the live entries of their views. *)
Lemma col_entries_count s :
  cols_wf s -> Z.of_nat (length (col_entries s)) = col_count_sum s.
Proof. intros [H _]. now apply spans_wf_entries_length. Qed.

Lemma row_entries_count s :
  rows_wf s -> Z.of_nat (length (row_entries s)) = row_count_sum s.
Proof. intros H. now apply spans_wf_entries_length. Qed.

Lemma spans_wf_vupd starts counts arena i start count' :
  spans_wf starts counts arena ->
  vat starts i = Some start -> is_Some (vat counts i) ->
  0 <= count' -> start + count' <= arena ->
  spans_wf starts (vupd counts i count') arena.
Proof.
  intros [Hlen Hwf] Hs [c Hc] H0 Hle. split.
  - now rewrite vupd_length.
  - intros j st ct Hst Hct.
    pose proof (vat_lt _ _ _ Hc) as Hi.
    destruct (decide (i = j)) as [<-|Hne].
    + rewrite vat_vupd_eq in Hct by lia. inversion Hct; subst ct.
      assert (st = start) by congruence. subst st.
      destruct (Hwf _ _ _ Hs Hc) as (? & _). lia.
    + rewrite vat_vupd_ne in Hct by lia. eauto.
Qed.

Lemma colInsert_inv kHighsTiny s iCol iRow v s1 n :
  colInsert kHighsTiny s iCol iRow v = Ok s1 n ->
  exists start count,
    vat (mc_start (mc s)) iCol = Some start /\
    vat (mc_count_a (mc s)) iCol = Some count /\
    0 <= start + count < Z.of_nat (length (mc_index (mc s))) /\
    start + count < Z.of_nat (length (mc_value (mc s))) /\
    s1 = col_inserted s iCol iRow (start + count) count v.
Proof.
  unfold colInsert. destruct (abs v <? kHighsTiny)%float; [discriminate|].
  mcase_as start E1. mcase_as count E2. mcase_as count_a E3.
  mcase_as index E4. mcase_as values E5.
  intros H. inversion H. exists start, count. repeat split; try assumption; lia.
Qed.

Lemma rowInsert_Ok s iCol iRow start count :
  vat (mr_start (mr s)) iRow = Some start ->
  vat (mr_count (mr s)) iRow = Some count ->
  0 <= start + count < Z.of_nat (length (mr_index (mr s))) ->
  rowInsert s iCol iRow = Ok (row_inserted s iCol iRow (start + count) count) 4.
Proof.
  intros Hstart Hcount Hindex. unfold rowInsert. repeat mstep. reflexivity.
Qed.

Lemma rowInsert_inv s iCol iRow s1 n :
  rowInsert s iCol iRow = Ok s1 n ->
  exists start count,
    vat (mr_start (mr s)) iRow = Some start /\
    vat (mr_count (mr s)) iRow = Some count /\
    0 <= start + count < Z.of_nat (length (mr_index (mr s))) /\
    s1 = row_inserted s iCol iRow (start + count) count.
Proof.
  unfold rowInsert. mcase_as start E1. mcase_as count E2. mcase_as counts E3.
  mcase_as index E4.
  intros H. inversion H. exists start, count. repeat split; try assumption; lia.
Qed.

Lemma cols_wf_span s iCol start count :
  cols_wf s ->
  vat (mc_start (mc s)) iCol = Some start ->
  vat (mc_count_a (mc s)) iCol = Some count ->
  col_span s iCol start count /\ 0 <= count.
Proof.
  intros [[_ Hwf] Hlen] Hs Hc. destruct (Hwf _ _ _ Hs Hc) as (? & ? & ?).
  unfold col_span. rewrite Hlen. auto 10.
Qed.

Lemma rows_wf_span s iRow start count :
  rows_wf s ->
  vat (mr_start (mr s)) iRow = Some start ->
  vat (mr_count (mr s)) iRow = Some count ->
  row_span s iRow start count /\ 0 <= count.
Proof.
  intros [_ Hwf] Hs Hc. destruct (Hwf _ _ _ Hs Hc) as (? & ? & ?).
  unfold row_span. auto 10.
Qed.

(** [colInsert] keeps the column view well formed and adds one to its sum;
    it does not touch the row view. *)
Lemma colInsert_counts kHighsTiny s iCol iRow v s1 n :
  colInsert kHighsTiny s iCol iRow v = Ok s1 n -> cols_wf s ->
  cols_wf s1 /\ col_count_sum s1 = col_count_sum s + 1 /\ mr s1 = mr s.
Proof.
  intros H [Hwf Hlen].
  apply colInsert_inv in H as (start & count & Hs & Hc & Hi & Hv & ->).
  destruct (proj2 Hwf _ _ _ Hs Hc) as (H0 & H1 & _).
  split; [|split; [|reflexivity]].
  - split; simpl.
    + rewrite vupd_length. eapply spans_wf_vupd; eauto; lia.
    + now rewrite !vupd_length.
  - unfold col_count_sum. simpl. rewrite (Zsum_vupd _ _ _ _ Hc). lia.
Qed.

Lemma rowInsert_counts s iCol iRow s1 n :
  rowInsert s iCol iRow = Ok s1 n -> rows_wf s ->
  rows_wf s1 /\ row_count_sum s1 = row_count_sum s + 1 /\ mc s1 = mc s.
Proof.
  intros H Hwf.
  apply rowInsert_inv in H as (start & count & Hs & Hc & Hi & ->).
  destruct (proj2 Hwf _ _ _ Hs Hc) as (H0 & H1 & _).
  split; [|split; [|reflexivity]].
  - unfold rows_wf. simpl.
    rewrite vupd_length. eapply spans_wf_vupd; eauto; lia.
  - unfold row_count_sum. simpl. rewrite (Zsum_vupd _ _ _ _ Hc). lia.
Qed.

(** [colDelete] of a live entry returns, keeps the column view well formed
    and takes one from its sum; it does not touch the row view. *)
Lemma colDelete_counts s iCol iRow :
  cols_wf s -> col_has s iCol iRow ->
  exists v s1 n,
    colDelete s iCol iRow = Ok (v, s1) n /\
    cols_wf s1 /\ col_count_sum s1 = col_count_sum s - 1 /\ mr s1 = mr s.
Proof.
  intros Hwf (start & count & k & Hs & Hc & Hk & Hat).
  destruct (cols_wf_span _ _ _ _ Hwf Hs Hc) as [Hspan H0].
  destruct (colDelete_present _ _ _ _ _ _ Hspan Hk Hat)
    as (idel & pm & mi & mv & n & _ & _ & _ & _ & _ & _ & Heq).
  exists pm, (col_deleted s iCol idel count mi mv), n. split; [exact Heq|].
  destruct Hwf as [Hwf Hlen]. destruct Hspan as (_ & _ & Hst & Hli & _).
  split; [|split; [|reflexivity]].
  - split; simpl.
    + rewrite vupd_length. eapply spans_wf_vupd; eauto; lia.
    + now rewrite !vupd_length.
  - unfold col_count_sum. simpl. rewrite (Zsum_vupd _ _ _ _ Hc). lia.
Qed.

Lemma rowDelete_counts s iCol iRow :
  rows_wf s -> row_has s iCol iRow ->
  exists s1 n,
    rowDelete s iCol iRow = Ok s1 n /\
    rows_wf s1 /\ row_count_sum s1 = row_count_sum s - 1 /\ mc s1 = mc s.
Proof.
  intros Hwf (start & count & k & Hs & Hc & Hk & Hat).
  destruct (rows_wf_span _ _ _ _ Hwf Hs Hc) as [Hspan H0].
  destruct (rowDelete_present _ _ _ _ _ _ Hspan Hk Hat)
    as (idel & mi & n & _ & _ & _ & _ & Heq).
  exists (row_deleted s iRow idel count mi), n. split; [exact Heq|].
  destruct Hspan as (_ & _ & Hst & Hli).
  split; [|split; [|reflexivity]].
  - unfold rows_wf. simpl.
    rewrite vupd_length. eapply spans_wf_vupd; eauto; lia.
  - unfold row_count_sum. simpl. rewrite (Zsum_vupd _ _ _ _ Hc). lia.
Qed.

Lemma cols_wf_ext s1 s2 : mc s1 = mc s2 -> cols_wf s1 -> cols_wf s2.
Proof. unfold cols_wf. now intros ->. Qed.

Lemma rows_wf_ext s1 s2 : mr s1 = mr s2 -> rows_wf s1 -> rows_wf s2.
Proof. unfold rows_wf. now intros ->. Qed.

Lemma row_has_ext s1 s2 iCol iRow :
  mr s1 = mr s2 -> row_has s1 iCol iRow -> row_has s2 iCol iRow.
Proof. unfold row_has. now intros ->. Qed.

(** A matched insertion that returns keeps the kernel consistent and adds
    one to each sum. *)
Lemma insertPair_counts kHighsTiny s iCol iRow v s' n :
  insertPair kHighsTiny s iCol iRow v = Ok s' n ->
  kernel_consistent s ->
  kernel_consistent s' /\
  col_count_sum s' = col_count_sum s + 1 /\
  row_count_sum s' = row_count_sum s + 1.
Proof.
  unfold insertPair. intros H (Hc & Hr & Heq).
  destruct (colInsert kHighsTiny s iCol iRow v) as [s1 n1|f] eqn:E1;
    simpl in H; [|discriminate].
  destruct (rowInsert s1 iCol iRow) as [s2 n2|f] eqn:E2; [|discriminate].
  inversion H; subst s2. clear H.
  destruct (colInsert_counts _ _ _ _ _ _ _ E1 Hc) as (Hc1 & Hs1 & Hm1).
  assert (Hr1 : rows_wf s1) by (eapply rows_wf_ext; [symmetry; exact Hm1 | exact Hr]).
  destruct (rowInsert_counts _ _ _ _ _ E2 Hr1) as (Hr2 & Hs2 & Hm2).
  assert (Hcs : col_count_sum s' = col_count_sum s1)
    by (unfold col_count_sum; now rewrite Hm2).
  assert (Hrs : row_count_sum s1 = row_count_sum s)
    by (unfold row_count_sum; now rewrite Hm1).
  split; [|lia]. split; [|split]; [|exact Hr2|lia].
  eapply cols_wf_ext; [symmetry; exact Hm2 | exact Hc1].
Qed.

(** A matched insertion into free slots of the two arenas returns. *)
Lemma insertPair_Ok kHighsTiny s iCol iRow v cs cc rs rc :
  (abs v <? kHighsTiny)%float = false ->
  vat (mc_start (mc s)) iCol = Some cs ->
  vat (mc_count_a (mc s)) iCol = Some cc ->
  0 <= cs + cc < Z.of_nat (length (mc_index (mc s))) ->
  cs + cc < Z.of_nat (length (mc_value (mc s))) ->
  vat (mr_start (mr s)) iRow = Some rs ->
  vat (mr_count (mr s)) iRow = Some rc ->
  0 <= rs + rc < Z.of_nat (length (mr_index (mr s))) ->
  insertPair kHighsTiny s iCol iRow v
  = Ok (row_inserted (col_inserted s iCol iRow (cs + cc) cc v)
                     iCol iRow (rs + rc) rc) 9.
Proof.
  intros Hv Hcs Hcc Hci Hcv Hrs Hrc Hri. unfold insertPair.
  rewrite (colInsert_Ok _ _ _ _ _ _ _ Hv Hcs Hcc Hci Hcv). simpl.
  now rewrite (rowInsert_Ok _ iCol iRow rs rc).
Qed.

(** A matched deletion of an entry that both views hold returns, keeps the
    kernel consistent and takes one from each sum. *)
Lemma deletePair_counts s iCol iRow :
  kernel_consistent s -> col_has s iCol iRow -> row_has s iCol iRow ->
  exists v s' n,
    deletePair s iCol iRow = Ok (v, s') n /\
    kernel_consistent s' /\
    col_count_sum s' = col_count_sum s - 1 /\
    row_count_sum s' = row_count_sum s - 1.
Proof.
  intros (Hc & Hr & Heq) Hch Hrh.
  destruct (colDelete_counts _ _ _ Hc Hch) as (v & s1 & n1 & E1 & Hc1 & Hs1 & Hm1).
  assert (Hr1 : rows_wf s1) by (eapply rows_wf_ext; [symmetry; exact Hm1 | exact Hr]).
  assert (Hrh1 : row_has s1 iCol iRow)
    by (eapply row_has_ext; [symmetry; exact Hm1 | exact Hrh]).
  destruct (rowDelete_counts _ _ _ Hr1 Hrh1) as (s2 & n2 & E2 & Hr2 & Hs2 & Hm2).
  exists v, s2, (n1 + (n2 + 0))%nat. unfold deletePair. rewrite E1. simpl.
  rewrite E2. simpl. split; [reflexivity|].
  assert (Hcs : col_count_sum s2 = col_count_sum s1)
    by (unfold col_count_sum; now rewrite Hm2).
  assert (Hrs : row_count_sum s1 = row_count_sum s)
    by (unfold row_count_sum; now rewrite Hm1).
  split; [|lia]. split; [|split]; [|exact Hr2|lia].
  eapply cols_wf_ext; [symmetry; exact Hm2 | exact Hc1].
Qed.

Lemma kernel_step_consistent kHighsTiny s s' :
  kernel_step kHighsTiny s s' -> kernel_consistent s -> kernel_consistent s'.
Proof.
  intros [s0 iCol iRow v s1 n H|s0 iCol iRow v s1 n Hch Hrh H] Hk.
  - now destruct (insertPair_counts _ _ _ _ _ _ _ H Hk).
  - destruct (deletePair_counts _ _ _ Hk Hch Hrh) as (v' & s2 & n' & E & Hk' & _).
    rewrite E in H. now inversion H; subst.
Qed.

Lemma colDelete_inv s iCol iRow v s1 n :
  colDelete s iCol iRow = Ok (v, s1) n ->
  exists count idel moved_index moved_value,
    vat (mc_count_a (mc s)) iCol = Some count /\
    s1 = col_deleted s iCol idel count moved_index moved_value.
Proof.
  unfold colDelete. mcase_as og E1. mcase_as start E2. mcase_as count_a E3.
  destruct (scan (mc_index (mc s)) iRow start) as [idel k|f]; simpl;
    [|discriminate].
  mcase_as pm E4. mcase_as mi E5. mcase_as index E6. mcase_as mv E7.
  mcase_as values E8.
  intros H. inversion H. exists og, idel, mi, mv. auto.
Qed.

Lemma rowDelete_inv s iCol iRow s1 n :
  rowDelete s iCol iRow = Ok s1 n ->
  exists count idel moved_index,
    vat (mr_count (mr s)) iRow = Some count /\
    s1 = row_deleted s iRow idel count moved_index.
Proof.
  unfold rowDelete. mcase_as start E1. mcase_as count E2. mcase_as counts E3.
  destruct (scan (mr_index (mr s)) iCol start) as [idel k|f]; simpl;
    [|discriminate].
  mcase_as mi E4. mcase_as index E5.
  intros H. inversion H. exists count, idel, mi. auto.
Qed.

(** Every matched pair that returns moves both sums by one. *)
Lemma insertPair_sums kHighsTiny s iCol iRow v s' n :
  insertPair kHighsTiny s iCol iRow v = Ok s' n ->
  col_count_sum s' = col_count_sum s + 1 /\
  row_count_sum s' = row_count_sum s + 1.
Proof.
  unfold insertPair. intros H.
  destruct (colInsert kHighsTiny s iCol iRow v) as [s1 n1|f] eqn:E1;
    simpl in H; [|discriminate].
  destruct (rowInsert s1 iCol iRow) as [s2 n2|f] eqn:E2; [|discriminate].
  inversion H; subst s2. clear H.
  apply colInsert_inv in E1 as (cs & cc & _ & Hcc & _ & _ & ->).
  apply rowInsert_inv in E2 as (rs & rc & _ & Hrc & _ & ->).
  unfold col_count_sum, row_count_sum. simpl in *.
  rewrite (Zsum_vupd _ _ _ _ Hcc), (Zsum_vupd _ _ _ _ Hrc). lia.
Qed.

Lemma deletePair_sums s iCol iRow v s' n :
  deletePair s iCol iRow = Ok (v, s') n ->
  col_count_sum s' = col_count_sum s - 1 /\
  row_count_sum s' = row_count_sum s - 1.
Proof.
  unfold deletePair. intros H.
  destruct (colDelete s iCol iRow) as [[w s1] n1|f] eqn:E1;
    simpl in H; [|discriminate].
  destruct (rowDelete s1 iCol iRow) as [s2 n2|f] eqn:E2; simpl in H;
    [|discriminate].
  inversion H; subst. clear H.
  apply colDelete_inv in E1 as (cc & ? & ? & ? & Hcc & ->).
  apply rowDelete_inv in E2 as (rc & ? & ? & Hrc & ->).
  unfold col_count_sum, row_count_sum. simpl in *.
  rewrite (Zsum_vupd _ _ _ _ Hcc), (Zsum_vupd _ _ _ _ Hrc). lia.
Qed.

(** C5.  Between paired calls the two views of the kernel agree on the
    number of entries: [Σ mc_count_a[j]] is the number of live entries of
    the column view, [Σ mr_count[i]] that of the row view, and the sums are
    equal.  This is kept by every sequence of matched pairs that return.
    Every matched [colInsert]/[rowInsert] that returns raises both sums by
    one, and every matched [colDelete]/[rowDelete] that returns lowers both
    by one; an insertion into free slots returns, and so does the deletion
    of an entry both views hold. *)
Theorem kernel_views_consistent (kHighsTiny : float) :
  (forall s, kernel_consistent s ->
     Z.of_nat (length (col_entries s)) = col_count_sum s /\
     Z.of_nat (length (row_entries s)) = row_count_sum s /\
     col_count_sum s = row_count_sum s) /\
  (forall s s', kernel_consistent s -> rtc (kernel_step kHighsTiny) s s' ->
     kernel_consistent s') /\
  (forall s iCol iRow v s' n,
     insertPair kHighsTiny s iCol iRow v = Ok s' n ->
     col_count_sum s' = col_count_sum s + 1 /\
     row_count_sum s' = row_count_sum s + 1) /\
  (forall s iCol iRow v s' n,
     deletePair s iCol iRow = Ok (v, s') n ->
     col_count_sum s' = col_count_sum s - 1 /\
     row_count_sum s' = row_count_sum s - 1) /\
  (forall s iCol iRow v cs cc rs rc,
     kernel_consistent s ->
     (kHighsTiny <=? abs v)%float = true ->
     vat (mc_start (mc s)) iCol = Some cs ->
     vat (mc_count_a (mc s)) iCol = Some cc ->
     cs + cc < Z.of_nat (length (mc_index (mc s))) ->
     vat (mr_start (mr s)) iRow = Some rs ->
     vat (mr_count (mr s)) iRow = Some rc ->
     rs + rc < Z.of_nat (length (mr_index (mr s))) ->
     exists s' n,
       insertPair kHighsTiny s iCol iRow v = Ok s' n /\
       kernel_consistent s' /\
       col_count_sum s' = col_count_sum s + 1 /\
       row_count_sum s' = row_count_sum s + 1) /\
  (forall s iCol iRow,
     kernel_consistent s -> col_has s iCol iRow -> row_has s iCol iRow ->
     exists v s' n,
       deletePair s iCol iRow = Ok (v, s') n /\
       kernel_consistent s' /\
       col_count_sum s' = col_count_sum s - 1 /\
       row_count_sum s' = row_count_sum s - 1).
Proof.
  split; [|split; [|split; [|split; [|split]]]].
  - intros s (Hc & Hr & Heq).
    split; [now apply col_entries_count|].
    split; [now apply row_entries_count | exact Heq].
  - intros s s' Hk Hsteps. induction Hsteps as [|s1 s2 s3 Hstep _ IH];
      [exact Hk|].
    apply IH. eapply kernel_step_consistent; eauto.
  - intros s iCol iRow v s' n. apply insertPair_sums.
  - intros s iCol iRow v s' n. apply deletePair_sums.
  - intros s iCol iRow v cs cc rs rc Hk Hv Hcs Hcc Hci Hrs Hrc Hri.
    apply F64.leb_ltb_false in Hv.
    pose proof Hk as (Hc & Hr & _).
    destruct (cols_wf_span _ _ _ _ Hc Hcs Hcc) as [(_ & _ & ? & _) ?].
    destruct (rows_wf_span _ _ _ _ Hr Hrs Hrc) as [(_ & _ & ? & _) ?].
    assert (Hcv : cs + cc < Z.of_nat (length (mc_value (mc s))))
      by (destruct Hc as [_ ->]; exact Hci).
    assert (Hok := insertPair_Ok kHighsTiny s iCol iRow v cs cc rs rc Hv Hcs Hcc
                     ltac:(split; lia) Hcv Hrs Hrc ltac:(split; lia)).
    eexists. eexists. split; [exact Hok|].
    eapply insertPair_counts; [exact Hok | exact Hk].
  - intros s iCol iRow. apply deletePair_counts.
Qed.

Lemma kernel3_consistent : kernel_consistent kernel3.
Proof.
  assert (Hspans : forall starts counts arena,
    length starts = length counts ->
    Forall (fun sc : Z * Z => 0 <= sc.1 /\ 0 <= sc.2 /\ sc.1 + sc.2 <= arena)
           (zip starts counts) ->
    spans_wf starts counts arena).
  { intros starts counts arena Hlen Hall. split; [exact Hlen|].
    intros j start count Hs Hc.
    apply vat_Some in Hs as [_ Hs]. apply vat_Some in Hc as [_ Hc].
    rewrite Forall_lookup in Hall.
    apply (Hall (Z.to_nat j) (start, count)).
    apply lookup_zip_with_Some. eauto. }
  split; [|split]; [split| |reflexivity].
  - apply Hspans; [reflexivity|]. simpl. repeat constructor; simpl; lia.
  - reflexivity.
  - apply Hspans; [reflexivity|]. simpl. repeat constructor; simpl; lia.
Qed.

(** [kernel3] has six entries in each view.  Putting 0.25 at (2, 1) makes
    seven; taking (0, 0) out makes five. *)
Lemma kernel_views_consistent_witness :
  kernel_consistent kernel3 /\
  col_entries kernel3 = [(0, 0); (1, 0); (2, 0); (0, 1); (1, 1); (2, 2)] /\
  row_entries kernel3 = [(0, 0); (0, 1); (1, 0); (1, 1); (2, 0); (2, 2)] /\
  col_count_sum kernel3 = 6 /\
  row_count_sum kernel3 = 6 /\
  (exists s' n,
     insertPair tiny14 kernel3 1 2 0.25 = Ok s' n /\
     kernel_consistent s' /\
     col_count_sum s' = col_count_sum kernel3 + 1 /\
     row_count_sum s' = row_count_sum kernel3 + 1) /\
  (exists v s' n,
     deletePair kernel3 0 0 = Ok (v, s') n /\
     kernel_consistent s' /\
     col_count_sum s' = col_count_sum kernel3 - 1 /\
     row_count_sum s' = row_count_sum kernel3 - 1).
Proof.
  destruct (kernel_views_consistent tiny14) as (_ & _ & _ & _ & Hins & Hdel).
  split; [exact kernel3_consistent|].
  do 4 (split; [reflexivity|]). split.
  - apply (Hins kernel3 1 2 0.25%float 5 2 8 2 kernel3_consistent);
      try reflexivity; simpl; lia.
  - apply (Hdel kernel3 0 0 kernel3_consistent).
    + exists 0, 3, 0. repeat split; try reflexivity; lia.
    + exists 0, 2, 0. repeat split; try reflexivity; lia.
Defined.

(** ** The count-bucket lists *)

Lemma linkAdd_Ok l index count mover :
  vat (link_first l) count = Some mover ->
  is_Some (vat (link_next l) index) ->
  is_Some (vat (link_last l) index) ->
  (0 <= mover -> is_Some (vat (link_last l) mover)) ->
  linkAdd l index count
  = Ok (link_added l index count mover) (if decide (0 <= mover) then 5%nat else 4%nat).
Proof.
  intros Hf Hn Hl Hm. apply vat_range in Hn, Hl. unfold linkAdd, link_added.
  repeat mstep. destruct (decide (0 <= mover)) as [H0|H0]; simpl.
  - rewrite vset_Ok by (rewrite vupd_length; now apply vat_range, Hm).
    reflexivity.
  - reflexivity.
Qed.

Lemma linkDel_Ok l index xlast xnext :
  vat (link_last l) index = Some xlast ->
  vat (link_next l) index = Some xnext ->
  (0 <= xlast -> is_Some (vat (link_next l) xlast)) ->
  (xlast < 0 -> is_Some (vat (link_first l) (- xlast - 2))) ->
  (0 <= xnext -> is_Some (vat (link_last l) xnext)) ->
  linkDel l index
  = Ok (link_deleted l xlast xnext) (if decide (0 <= xnext) then 4%nat else 3%nat).
Proof.
  intros Hl Hn H1 H2 H3. unfold linkDel, link_deleted. repeat mstep.
  destruct (decide (0 <= xlast)) as [Hx|Hx]; simpl.
  - rewrite (vset_Ok (link_next l) xlast) by (now apply vat_range, H1). simpl.
    destruct (decide (0 <= xnext)); simpl.
    + rewrite (vset_Ok (link_last l) xnext) by (now apply vat_range, H3).
      reflexivity.
    + reflexivity.
  - rewrite (vset_Ok (link_first l)) by (apply vat_range, H2; lia). simpl.
    destruct (decide (0 <= xnext)); simpl.
    + rewrite (vset_Ok (link_last l) xnext) by (now apply vat_range, H3).
      reflexivity.
    + reflexivity.
Qed.

(** [linkDel] has no loop: it reads two links and writes one or two. *)
Lemma linkDel_cost l index l' n : linkDel l index = Ok l' n -> (n <= 4)%nat.
Proof.
  unfold linkDel. mcase_as xlast E1. mcase_as xnext E2.
  destruct (decide (0 <= xlast)); simpl.
  - mcase E3. destruct (decide (0 <= xnext)); simpl.
    + mcase E4. intros H. inversion H. lia.
    + intros H. inversion H. lia.
  - mcase E3. destruct (decide (0 <= xnext)); simpl.
    + mcase E4. intros H. inversion H. lia.
    + intros H. inversion H. lia.
Qed.

Lemma chain_frame nxt lst nxt' lst' prev cur xs :
  chain nxt lst prev cur xs ->
  (forall x, x ∈ xs -> vat nxt' x = vat nxt x /\ vat lst' x = vat lst x) ->
  chain nxt' lst' prev cur xs.
Proof.
  revert prev cur. induction xs as [|x xs IH]; intros prev cur; simpl; [auto|].
  intros (-> & Hl & n & Hn & Hc) Hsame.
  destruct (Hsame x ltac:(left)) as [En El].
  split; [reflexivity|]. split; [congruence|].
  exists n. split; [congruence|]. apply IH; [exact Hc|].
  intros y Hy. apply Hsame. now right.
Qed.

Lemma chain_nonneg nxt lst prev cur xs x :
  chain nxt lst prev cur xs -> x ∈ xs -> 0 <= x.
Proof.
  revert prev cur. induction xs as [|y xs IH]; intros prev cur; simpl.
  - intros _ H. inversion H.
  - intros (-> & Hl & n & Hn & Hc) Hin. apply elem_of_cons in Hin as [->|Hin].
    + now apply vat_lt in Hl.
    + eauto.
Qed.

(** Inside a chain, the links of [i] are its neighbours. *)
Lemma chain_links nxt lst prev cur xs1 i xs2 :
  chain nxt lst prev cur (xs1 ++ i :: xs2) ->
  vat lst i = Some (default prev (last xs1)) /\
  exists xnext, vat nxt i = Some xnext /\ chain nxt lst i xnext xs2.
Proof.
  revert prev cur. induction xs1 as [|a xs1 IH]; intros prev cur; simpl.
  - intros (-> & Hl & n & Hn & Hc). split; [exact Hl | eauto].
  - intros (-> & Hl & n & Hn & Hc). destruct (IH _ _ Hc) as [Hl' Hn'].
    split; [|exact Hn']. rewrite Hl'. f_equal.
    destruct xs1 as [|b xs1]; [reflexivity|].
    change (last (a :: b :: xs1)) with (last (b :: xs1)).
    destruct (last (b :: xs1)) eqn:E; [reflexivity|].
    apply last_None in E. discriminate.
Qed.

(** Unlinking [i] from a chain: [nxt] is redirected at the element before
    [i], [lst] at the element after it. *)
Lemma chain_unlink nxt lst prev cur xs1 i xs2 xlast xnext :
  chain nxt lst prev cur (xs1 ++ i :: xs2) ->
  NoDup (xs1 ++ i :: xs2) -> prev ∉ xs1 ++ i :: xs2 ->
  vat lst i = Some xlast -> vat nxt i = Some xnext ->
  chain (if decide (0 <= xlast) then vupd nxt xlast xnext else nxt)
        (if decide (0 <= xnext) then vupd lst xnext xlast else lst)
        prev (match xs1 with [] => xnext | _ => cur end) (xs1 ++ xs2).
Proof.
  set (nxt' := if decide (0 <= xlast) then vupd nxt xlast xnext else nxt).
  set (lst' := if decide (0 <= xnext) then vupd lst xnext xlast else lst).
  assert (Hnxt : forall x, x <> xlast -> vat nxt' x = vat nxt x).
  { intros x Hx. unfold nxt'. destruct (decide (0 <= xlast)); [|reflexivity].
    now apply vat_vupd_ne. }
  assert (Hlst : forall x, x <> xnext -> vat lst' x = vat lst x).
  { intros x Hx. unfold lst'. destruct (decide (0 <= xnext)); [|reflexivity].
    now apply vat_vupd_ne. }
  revert prev cur. induction xs1 as [|a xs1 IH]; intros prev cur Hc Hnd Hp Hl Hn.
  - simpl in *. destruct Hc as (-> & Hl' & n & Hn' & Hc).
    assert (xlast = prev) by congruence. assert (n = xnext) by congruence.
    subst xlast n. apply NoDup_cons in Hnd as [Hi Hnd].
    destruct xs2 as [|y t]; simpl in *; [exact Hc|].
    destruct Hc as (-> & Hly & n2 & Hny & Hc).
    apply NoDup_cons in Hnd as [Hy Hnd].
    split; [reflexivity|]. split.
    + unfold lst'. pose proof (vat_lt _ _ _ Hly).
      destruct (decide (0 <= y)); [|lia]. now apply vat_vupd_eq.
    + exists n2. split.
      * rewrite Hnxt; [exact Hny|]. intros ->. apply Hp. right. left.
      * eapply chain_frame; [exact Hc|]. intros x Hx. split.
        -- apply Hnxt. intros ->. apply Hp. right. now right.
        -- apply Hlst. intros ->. contradiction.
  - change ((a :: xs1) ++ i :: xs2) with (a :: (xs1 ++ i :: xs2)) in *.
    destruct Hc as (-> & Hla & n & Hna & Hc).
    apply NoDup_cons in Hnd as [Ha Hnd].
    destruct (chain_links _ _ _ _ _ _ _ Hc) as [Hl' (xn & Hn' & Hc2)].
    assert (xn = xnext) by congruence. subst xn.
    assert (Hxn : xnext <> a).
    { intros ->. destruct xs2 as [|y t]; simpl in Hc2.
      - apply vat_lt in Hla. lia.
      - destruct Hc2 as (<- & _). apply Ha. apply elem_of_app. right.
        right. left. }
    specialize (IH a n Hc Hnd Ha Hl Hn).
    simpl. split; [reflexivity|]. split; [rewrite Hlst; auto|].
    destruct xs1 as [|b xs1].
    + simpl in *. assert (xlast = a) by congruence. subst xlast.
      exists xnext. split; [|exact IH].
      unfold nxt'. pose proof (vat_lt _ _ _ Hna).
      destruct (decide (0 <= a)); [|lia]. now apply vat_vupd_eq.
    + exists n. split; [|exact IH].
      rewrite Hnxt; [exact Hna|]. intros ->.
      assert (Hin : xlast ∈ b :: xs1).
      { rewrite Hl in Hl'. inversion Hl' as [Hx]. clear -Hx.
        destruct (last (b :: xs1)) as [z|] eqn:Ez; simpl in Hx.
        - subst z. apply last_Some in Ez as [l' ->].
          apply elem_of_app. right. left.
        - apply last_None in Ez. discriminate. }
      apply Ha. apply elem_of_app. left. exact Hin.
Qed.

Lemma vupd_vupd_eq {A} (v : list A) i x y : vupd (vupd v i x) i y = vupd v i y.
Proof. apply list_insert_insert_eq. Qed.

Lemma vupd_id {A} (v : list A) i x : vat v i = Some x -> vupd v i x = v.
Proof. intros H. apply vat_Some in H as [_ H]. now apply list_insert_id. Qed.

Lemma vupd_comm {A} (v : list A) i j x y :
  0 <= i -> 0 <= j -> i <> j ->
  vupd (vupd v i x) j y = vupd (vupd v j y) i x.
Proof. intros Hi Hj Hne. apply list_insert_insert_ne. lia. Qed.

Lemma chain_in_range nxt lst prev cur xs x :
  chain nxt lst prev cur xs -> x ∈ xs ->
  is_Some (vat nxt x) /\ is_Some (vat lst x).
Proof.
  revert prev cur. induction xs as [|y xs IH]; intros prev cur; simpl.
  - intros _ H. inversion H.
  - intros (-> & Hl & n & Hn & Hc) Hin. apply elem_of_cons in Hin as [->|Hin];
      eauto.
Qed.

(** In a chain, a link that is not negative leads to an element of the
    chain, and a back-link is the chain's [prev] or an element of it. *)
Lemma chain_next_in nxt lst prev cur xs x n :
  chain nxt lst prev cur xs -> x ∈ xs -> vat nxt x = Some n -> 0 <= n ->
  n ∈ xs.
Proof.
  revert prev cur. induction xs as [|y xs IH]; intros prev cur; simpl.
  - intros _ H. inversion H.
  - intros (-> & Hl & m & Hn & Hc) Hin Hx H0.
    apply elem_of_cons in Hin as [->|Hin].
    + assert (m = n) by congruence. subst m. right.
      destruct xs as [|z xs]; simpl in Hc; [lia|].
      destruct Hc as (-> & _). left.
    + right. eauto.
Qed.

Lemma chain_last_in nxt lst prev cur xs x q :
  chain nxt lst prev cur xs -> x ∈ xs -> vat lst x = Some q ->
  q = prev \/ q ∈ xs.
Proof.
  revert prev cur. induction xs as [|y xs IH]; intros prev cur; simpl.
  - intros _ H. inversion H.
  - intros (-> & Hl & m & Hn & Hc) Hin Hx.
    apply elem_of_cons in Hin as [->|Hin].
    + left. congruence.
    + right. destruct (IH _ _ Hc Hin Hx) as [->|Hq]; [left | now right].
Qed.

(** Two chains with different negative [prev] share no element. *)
Lemma chains_disjoint nxt lst p1 h1 xs p2 h2 ys i :
  chain nxt lst p1 h1 xs -> chain nxt lst p2 h2 ys ->
  p1 < 0 -> p2 < 0 -> p1 <> p2 -> i ∈ xs -> i ∉ ys.
Proof.
  intros Hx Hy Hp1 Hp2 Hne Hin.
  apply list_elem_of_split in Hin as (xs1 & xs2 & ->).
  revert i xs2 Hx. induction xs1 as [|z xs1 IH] using rev_ind;
    intros i xs2 Hx Hiy.
  - destruct (chain_links _ _ _ _ [] _ _ Hx) as [Hl _]. simpl in Hl.
    destruct (chain_last_in _ _ _ _ _ _ _ Hy Hiy Hl) as [E|E]; [lia|].
    pose proof (chain_nonneg _ _ _ _ _ _ Hy E). lia.
  - destruct (chain_links _ _ _ _ _ _ _ Hx) as [Hl _].
    rewrite last_snoc in Hl. simpl in Hl.
    rewrite <- app_assoc in Hx. simpl in Hx.
    destruct (chain_last_in _ _ _ _ _ _ _ Hy Hiy Hl) as [E|E].
    + assert (0 <= z); [|lia].
      eapply chain_nonneg; [exact Hx|]. apply elem_of_app. right. left.
    + exact (IH z (i :: xs2) Hx E).
Qed.

Lemma bucket_nonneg l count xs x : bucket l count xs -> x ∈ xs -> 0 <= x.
Proof. intros (_ & _ & h & _ & Hc) Hin. eapply chain_nonneg; eauto. Qed.

Lemma buckets_disjoint l c xs c' ys i :
  bucket l c xs -> bucket l c' ys -> c <> c' -> i ∈ xs -> i ∉ ys.
Proof.
  intros (H0 & _ & h & _ & Hc) (H0' & _ & h' & _ & Hc') Hne.
  eapply chains_disjoint; eauto; lia.
Qed.

(** The links of a linked index [i]: its back-link is the element before
    it, or [-2 - count] at the head; its forward link is the element after
    it, or negative at the end; and its neighbours point at it. *)
Lemma bucket_links l count xs1 i xs2 :
  bucket l count (xs1 ++ i :: xs2) ->
  exists xlast xnext,
    vat (link_last l) i = Some xlast /\ vat (link_next l) i = Some xnext /\
    xlast = default (-2 - count) (last xs1) /\
    (0 <= xlast -> xlast ∈ xs1 /\ vat (link_next l) xlast = Some i) /\
    (xlast < 0 -> xs1 = [] /\ xlast = -2 - count) /\
    (0 <= xnext ->
     (exists t, xs2 = xnext :: t) /\ vat (link_last l) xnext = Some i) /\
    (xnext < 0 -> xs2 = []).
Proof.
  intros (H0 & Hnd & h & Hf & Hc).
  destruct (chain_links _ _ _ _ _ _ _ Hc) as [Hl (xnext & Hn & Hc2)].
  exists (default (-2 - count) (last xs1)), xnext.
  split; [exact Hl|]. split; [exact Hn|]. split; [reflexivity|].
  assert (Hpos : forall z, last xs1 = Some z ->
            z ∈ xs1 /\ 0 <= z /\ vat (link_next l) z = Some i).
  { intros z Hz. apply last_Some in Hz as [l' ->].
    assert (z ∈ l' ++ [z]) by (apply elem_of_app; right; left).
    split; [assumption|]. split.
    - eapply chain_nonneg; [exact Hc|]. apply elem_of_app. now left.
    - rewrite <- app_assoc in Hc. simpl in Hc.
      destruct (chain_links _ _ _ _ _ _ _ Hc) as [_ (n & Hzn & Hcz)].
      simpl in Hcz. destruct Hcz as (-> & _). exact Hzn. }
  split; [|split; [|split]].
  - destruct (last xs1) as [z|] eqn:Ez; simpl; [|lia].
    intros _. destruct (Hpos z eq_refl) as (? & _ & ?). auto.
  - destruct (last xs1) as [z|] eqn:Ez; simpl.
    + destruct (Hpos z eq_refl) as (_ & ? & _). lia.
    + apply last_None in Ez. auto.
  - destruct xs2 as [|y t]; simpl in Hc2; [lia|].
    destruct Hc2 as (-> & Hy & _). eauto.
  - destruct xs2 as [|y t]; simpl in Hc2; [reflexivity|].
    destruct Hc2 as (-> & Hy & _). apply vat_lt in Hy. lia.
Qed.

(** [linkDel] of a linked index returns and leaves its bucket with the
    same chain without the index, head or not. *)
Lemma linkDel_bucket l count xs1 i xs2 :
  bucket l count (xs1 ++ i :: xs2) ->
  exists xlast xnext n,
    vat (link_last l) i = Some xlast /\ vat (link_next l) i = Some xnext /\
    linkDel l i = Ok (link_deleted l xlast xnext) n /\
    bucket (link_deleted l xlast xnext) count (xs1 ++ xs2).
Proof.
  intros Hb.
  destruct (bucket_links _ _ _ _ _ Hb)
    as (xlast & xnext & Hl & Hn & Hx & Hlp & Hln & Hnp & Hnn).
  destruct Hb as (H0 & Hnd & h & Hf & Hc).
  exists xlast, xnext. eexists. split; [exact Hl|]. split; [exact Hn|]. split.
  - apply linkDel_Ok; try assumption.
    + intros Hp. destruct (Hlp Hp) as [_ E]. eauto.
    + intros Hneg. destruct (Hln Hneg) as [_ ->].
      replace (- (-2 - count) - 2) with count by lia. eauto.
    + intros Hp. destruct (Hnp Hp) as [_ E]. eauto.
  - split; [exact H0|]. split.
    + apply NoDup_app in Hnd as (N1 & N2 & N3).
      apply NoDup_cons in N3 as [_ N3]. apply NoDup_app.
      split; [exact N1|]. split; [|exact N3].
      intros x Hx1 Hx2. apply (N2 x Hx1). now right.
    + assert (Hprev : -2 - count ∉ xs1 ++ i :: xs2).
      { intros Hin. pose proof (chain_nonneg _ _ _ _ _ _ Hc Hin). lia. }
      pose proof (chain_unlink _ _ _ _ _ _ _ _ _ Hc Hnd Hprev Hl Hn) as Hc'.
      unfold link_deleted. simpl.
      destruct xs1 as [|a xs1]; destruct (decide (0 <= xlast)) as [Hp|Hneg].
      * destruct (Hlp Hp) as [Hin _]. inversion Hin.
      * exists xnext. split; [|exact Hc'].
        simpl in Hx. subst xlast.
        replace (- (-2 - count) - 2) with count by lia.
        apply vat_vupd_eq. eapply vat_lt; eauto.
      * exists h. split; [exact Hf | exact Hc'].
      * destruct (Hln ltac:(lia)) as [E _]. discriminate.
Qed.

(** [linkDel] leaves every other bucket as it was. *)
Lemma linkDel_frame l count xs1 i xs2 xlast xnext count' ys :
  bucket l count (xs1 ++ i :: xs2) ->
  vat (link_last l) i = Some xlast -> vat (link_next l) i = Some xnext ->
  count' <> count -> bucket l count' ys ->
  bucket (link_deleted l xlast xnext) count' ys.
Proof.
  intros Hb Hl Hn Hne Hb'.
  assert (Hin : i ∈ xs1 ++ i :: xs2) by (apply elem_of_app; right; left).
  assert (Hi : i ∉ ys)
    by exact (buckets_disjoint l count _ count' ys i Hb Hb' (not_eq_sym Hne) Hin).
  assert (Hi0 : 0 <= i) by exact (bucket_nonneg _ _ _ _ Hb Hin).
  destruct (bucket_links _ _ _ _ _ Hb)
    as (xl & xn & Hl' & Hn' & _ & Hlp & Hln & Hnp & Hnn).
  assert (xl = xlast) by congruence. assert (xn = xnext) by congruence.
  subst xl xn.
  destruct Hb as (H0 & _ & _). destruct Hb' as (H0' & Hnd' & h' & Hf' & Hc').
  split; [exact H0'|]. split; [exact Hnd'|]. exists h'. split.
  - simpl. destruct (decide (0 <= xlast)) as [|Hneg]; [exact Hf'|].
    destruct (Hln ltac:(lia)) as [_ ->].
    rewrite vat_vupd_ne; [exact Hf' | lia | lia].
  - eapply chain_frame; [exact Hc'|]. intros x Hx. simpl. split.
    + destruct (decide (0 <= xlast)) as [Hp|]; [|reflexivity].
      apply vat_vupd_ne; [exact Hp|]. intros <-.
      destruct (Hlp Hp) as [_ Hxi].
      apply Hi. exact (chain_next_in _ _ _ _ _ _ _ Hc' Hx Hxi Hi0).
    + destruct (decide (0 <= xnext)) as [Hp|]; [|reflexivity].
      apply vat_vupd_ne; [exact Hp|]. intros <-.
      destruct (Hnp Hp) as [_ Hxi].
      destruct (chain_last_in _ _ _ _ _ _ _ Hc' Hx Hxi) as [E|E]; [lia|].
      contradiction.
Qed.

(** The head of a bucket: negative when the bucket is empty, else its
    first element, whose back-link is [-2 - count]. *)
Lemma bucket_head l count xs :
  bucket l count xs ->
  exists mover,
    vat (link_first l) count = Some mover /\
    (0 <= mover ->
     (exists t, xs = mover :: t) /\
     vat (link_last l) mover = Some (-2 - count)) /\
    (mover < 0 -> xs = []).
Proof.
  intros (H0 & Hnd & h & Hf & Hc). exists h. split; [exact Hf|].
  destruct xs as [|x t]; simpl in Hc.
  - split; [lia | reflexivity].
  - destruct Hc as (-> & Hl & _). split; [eauto|].
    apply vat_lt in Hl. lia.
Qed.

(** [linkAdd] of an index that is not in the bucket returns, with the index
    as the new head in front of the old chain. *)
Lemma linkAdd_bucket l count xs i :
  bucket l count xs -> i ∉ xs ->
  is_Some (vat (link_next l) i) -> is_Some (vat (link_last l) i) ->
  exists mover n,
    vat (link_first l) count = Some mover /\
    linkAdd l i count = Ok (link_added l i count mover) n /\
    vat (link_first (link_added l i count mover)) count = Some i /\
    vat (link_last (link_added l i count mover)) i = Some (-2 - count) /\
    vat (link_next (link_added l i count mover)) i = Some mover /\
    bucket (link_added l i count mover) count (i :: xs).
Proof.
  intros Hb Hi Hn Hl.
  destruct (bucket_head _ _ _ Hb) as (mover & Hf & Hpos & Hneg).
  destruct Hb as (H0 & Hnd & h & Hf' & Hc).
  assert (h = mover) by congruence. subst h.
  pose proof (proj1 (vat_range _ _) Hn) as Hnr.
  pose proof (proj1 (vat_range _ _) Hl) as Hlr.
  assert (Hmi : mover <> i).
  { intros ->. destruct (Hpos ltac:(lia)) as [[t ->] _]. apply Hi. left. }
  assert (Hlast : vat (link_last (link_added l i count mover)) i
                  = Some (-2 - count)).
  { simpl. destruct (decide (0 <= mover)).
    - rewrite vat_vupd_ne by assumption. now apply vat_vupd_eq.
    - now apply vat_vupd_eq. }
  assert (Hnext : vat (link_next (link_added l i count mover)) i = Some mover)
    by (simpl; now apply vat_vupd_eq).
  assert (Hfirst : vat (link_first (link_added l i count mover)) count = Some i)
    by (simpl; apply vat_vupd_eq; eapply vat_lt; eauto).
  exists mover. eexists. split; [exact Hf|]. split.
  { apply linkAdd_Ok; try assumption. intros Hp.
    destruct (Hpos Hp) as [_ E]. eauto. }
  split; [exact Hfirst|]. split; [exact Hlast|]. split; [exact Hnext|].
  split; [exact H0|]. split; [now apply NoDup_cons|].
  exists i. split; [exact Hfirst|]. simpl chain.
  split; [reflexivity|]. split; [exact Hlast|].
  exists mover. split; [exact Hnext|].
  destruct xs as [|x t]; simpl in Hc; [exact Hc|].
  destruct Hc as (-> & Hlx & n & Hnx & Hc).
  apply NoDup_cons in Hnd as [Hxt Hnd].
  pose proof (vat_lt _ _ _ Hlx) as Hxr.
  simpl. split; [reflexivity|]. split.
  - destruct (decide (0 <= x)); [|lia].
    apply vat_vupd_eq. rewrite vupd_length. lia.
  - exists n. split.
    + rewrite vat_vupd_ne by (auto; lia). exact Hnx.
    + eapply chain_frame; [exact Hc|]. intros y Hy.
      assert (y <> i) by (intros ->; apply Hi; now right).
      assert (y <> x) by (intros ->; contradiction).
      split.
      * apply vat_vupd_ne; [lia | auto].
      * destruct (decide (0 <= x)); [|lia].
        rewrite !vat_vupd_ne by (auto; lia). reflexivity.
Qed.

(** [linkAdd] leaves every other bucket as it was. *)
Lemma linkAdd_frame l count xs i mover count' ys :
  bucket l count xs -> vat (link_first l) count = Some mover ->
  0 <= i -> count' <> count -> bucket l count' ys -> i ∉ ys ->
  bucket (link_added l i count mover) count' ys.
Proof.
  intros Hb Hf Hi0 Hne Hb' Hi.
  destruct (bucket_head _ _ _ Hb) as (m & Hf' & Hpos & _).
  assert (m = mover) by congruence. subst m.
  assert (Hm : 0 <= mover -> mover ∉ ys).
  { intros Hp. destruct (Hpos Hp) as [[t ->] _].
    apply (buckets_disjoint l count (mover :: t) count' ys); auto. left. }
  destruct Hb as (H0 & _). destruct Hb' as (H0' & Hnd' & h' & Hfc & Hc').
  split; [exact H0'|]. split; [exact Hnd'|]. exists h'. split.
  - simpl. rewrite vat_vupd_ne; [exact Hfc | lia | lia].
  - eapply chain_frame; [exact Hc'|]. intros y Hy. simpl.
    assert (y <> i) by (intros ->; contradiction).
    split; [apply vat_vupd_ne; auto|].
    destruct (decide (0 <= mover)) as [Hp|].
    + assert (y <> mover) by (intros ->; now apply (Hm Hp)).
      rewrite !vat_vupd_ne by auto. reflexivity.
    + apply vat_vupd_ne; auto.
Qed.

(** [linkDel] straight after [linkAdd]: [link_first] is as before the add,
    and [link_next], [link_last] differ from then only at [i]. *)
Lemma link_round_trip l count xs i mover :
  bucket l count xs -> i ∉ xs ->
  vat (link_first l) count = Some mover ->
  is_Some (vat (link_next l) i) -> is_Some (vat (link_last l) i) ->
  linkDel (link_added l i count mover) i
  = Ok {| link_first := link_first l;
          link_next := vupd (link_next l) i mover;
          link_last := vupd (link_last l) i (-2 - count) |}
       (if decide (0 <= mover) then 4%nat else 3%nat).
Proof.
  intros Hb Hi Hf Hn Hl.
  destruct (linkAdd_bucket _ _ _ _ Hb Hi Hn Hl)
    as (m & n & Hf' & _ & Hfirst & Hlast & Hnext & Hb1).
  assert (m = mover) by congruence. subst m.
  destruct (bucket_head _ _ _ Hb) as (m & Hf'' & Hpos & _).
  assert (m = mover) by congruence. subst m.
  pose proof (proj1 (vat_range _ _) Hn) as Hnr.
  pose proof (proj1 (vat_range _ _) Hl) as Hlr.
  destruct Hb as (H0 & _).
  rewrite (linkDel_Ok _ i (-2 - count) mover Hlast Hnext).
  - f_equal. unfold link_deleted.
    destruct (decide (0 <= -2 - count)); [lia|]. f_equal.
    + simpl. replace (- (-2 - count) - 2) with count by lia.
      rewrite vupd_vupd_eq. now apply vupd_id.
    + simpl. destruct (decide (0 <= mover)) as [Hp|]; [|reflexivity].
      destruct (Hpos Hp) as [[t ->] Hm].
      assert (mover <> i) by (intros ->; apply Hi; left).
      rewrite vupd_vupd_eq, vupd_comm by (auto; lia).
      now rewrite (vupd_id _ _ _ Hm).
  - lia.
  - intros _. replace (- (-2 - count) - 2) with count by lia. eauto.
  - intros Hp. apply vat_range. simpl.
    destruct (Hpos Hp) as [_ Hm]. apply vat_lt in Hm.
    destruct (decide (0 <= mover)); rewrite ?vupd_length; lia.
Qed.

Lemma links_contract_of links set add del :
  (forall s l, links (set s l) = l) ->
  (forall s i c, add s i c = l ← linkAdd (links s) i c; mret (set s l)) ->
  (forall s i, del s i = l ← linkDel (links s) i; mret (set s l)) ->
  links_contract links set add del.
Proof.
  intros Hget Hadd Hdel. split; [|split].
  - intros s i count xs Hb Hi Hn Hl.
    destruct (linkAdd_bucket _ _ _ _ Hb Hi Hn Hl)
      as (mover & n1 & Hf & Hok & Hfirst & Hlast & Hnext & Hb1).
    pose proof (link_round_trip _ _ _ _ _ Hb Hi Hf Hn Hl) as Hrt.
    exists mover. eexists. eexists. split; [exact Hf|]. split.
    { rewrite Hadd, Hok. simpl. reflexivity. }
    cbv zeta. rewrite !Hget.
    split; [exact Hfirst|]. split; [exact Hlast|]. split; [exact Hnext|].
    split; [exact Hb1|]. split.
    { intros count' ys Hne Hb' Hi'. eapply linkAdd_frame; eauto.
      destruct Hn as [x Hx]. apply vat_lt in Hx. lia. }
    eexists. split.
    { rewrite Hdel, Hget, Hrt. simpl. reflexivity. }
    rewrite Hget. simpl. split; [reflexivity|].
    assert (H0 : 0 <= i) by (destruct Hn as [x Hx]; apply vat_lt in Hx; lia).
    assert (Hsame : forall j, j <> i ->
      vat (vupd (link_next (links s)) i mover) j = vat (link_next (links s)) j /\
      vat (vupd (link_last (links s)) i (-2 - count)) j
      = vat (link_last (links s)) j).
    { intros j Hj. split; apply vat_vupd_ne; auto. }
    split; [exact Hsame|].
    intros count' ys (Hc0 & Hnd & h & Hfc & Hc) Hi'.
    split; [exact Hc0|]. split; [exact Hnd|]. exists h. split; [exact Hfc|].
    simpl. eapply chain_frame; [exact Hc|].
    intros y Hy. apply Hsame. intros ->. contradiction.
  - intros s i count xs1 xs2 Hb.
    destruct (linkDel_bucket _ _ _ _ _ Hb)
      as (xlast & xnext & n & Hl & Hn & Hok & Hb1).
    eexists. eexists. split.
    { rewrite Hdel, Hok. simpl. reflexivity. }
    rewrite Hget. split; [exact Hb1|].
    intros count' ys Hne Hb'. eapply linkDel_frame; eauto.
  - intros s i s' n. rewrite Hdel.
    destruct (linkDel (links s) i) as [l' n'|f] eqn:E; simpl; [|discriminate].
    intros H. inversion H. apply linkDel_cost in E. lia.
Qed.

(** C6.  [clinkAdd(i, c)] puts [i] at the head of bucket [c], in front of
    the old chain, with [col_link_last[i] = -2 - c]; for a bucket in which
    [i] is not linked, [clinkDel(i)] straight after it gives back
    [col_link_first] and every link of every other index, and so every
    bucket.  [clinkDel(i)] takes a linked [i] out of its chain, whether [i]
    is the head or not, leaves the other buckets alone, and makes at most
    four vector accesses whatever the length of the chain.  The same holds
    of [rlinkAdd] and [rlinkDel] on the row lists. *)
Theorem count_links_contract :
  links_contract col_link set_col_link clinkAdd clinkDel /\
  links_contract row_link set_row_link rlinkAdd rlinkDel.
Proof.
  split; apply links_contract_of; reflexivity.
Qed.

Lemma kernel3_row_bucket : bucket (row_link kernel3) 2 ([2] ++ 1 :: [0]).
Proof.
  split; [lia|]. split; [apply (bool_decide_unpack _); reflexivity|].
  exists 2. split; [reflexivity|]. simpl.
  do 3 (split; [reflexivity|]; split; [reflexivity|];
        eexists; split; [reflexivity|]).
  reflexivity.
Qed.

Lemma kernel3_col_bucket : bucket (col_link kernel3_unlinked) 2 [1].
Proof.
  split; [lia|]. split; [apply (bool_decide_unpack _); reflexivity|].
  exists 1. split; [reflexivity|]. simpl.
  split; [reflexivity|]. split; [reflexivity|].
  eexists. split; reflexivity.
Qed.

(** In [kernel3] the rows 2, 1, 0 form the bucket of count 2: [rlinkDel]
    takes the middle row 1 out of it.  [clinkDel] takes column 0, a head,
    out of the bucket of count 3.  Column 0 is then linked nowhere, and
    column 1 is alone in the bucket of count 2: [clinkAdd] puts column 0 in
    front of column 1 there, and [clinkDel] takes it out again, giving
    back [col_link_first]. *)
Lemma count_links_contract_witness :
  bucket (row_link kernel3) 2 ([2] ++ 1 :: [0]) /\
  (exists s' n,
     rlinkDel kernel3 1 = Ok s' n /\
     bucket (row_link s') 2 ([2] ++ [0]) /\
     (forall count' ys, count' <> 2 -> bucket (row_link kernel3) count' ys ->
                        bucket (row_link s') count' ys)) /\
  row_link_next <$> value (rlinkDel kernel3 1) = Some [-1; 0; 0] /\
  row_link_last <$> value (rlinkDel kernel3 1) = Some [2; 2; -4] /\
  clinkDel kernel3 0 = Ok kernel3_unlinked 3 /\
  bucket (col_link kernel3_unlinked) 2 [1] /\
  col_link_first <$> value (clinkAdd kernel3_unlinked 0 2)
  = Some [-1; 2; 0; -1] /\
  col_link_next <$> value (clinkAdd kernel3_unlinked 0 2)
  = Some [1; -1; -1] /\
  col_link_last <$> value (clinkAdd kernel3_unlinked 0 2)
  = Some [-4; 0; -3] /\
  exists mover n1 n2,
    vat (col_link_first kernel3_unlinked) 2 = Some mover /\
    clinkAdd kernel3_unlinked 0 2
    = Ok (set_col_link kernel3_unlinked
            (link_added (col_link kernel3_unlinked) 0 2 mover)) n1 /\
    bucket (col_link (set_col_link kernel3_unlinked
                        (link_added (col_link kernel3_unlinked) 0 2 mover)))
           2 [0; 1] /\
    exists s2,
      clinkDel (set_col_link kernel3_unlinked
                  (link_added (col_link kernel3_unlinked) 0 2 mover)) 0
      = Ok s2 n2 /\
      col_link_first s2 = col_link_first kernel3_unlinked.
Proof.
  destruct count_links_contract as [Hcol Hrow].
  split; [exact kernel3_row_bucket|]. split.
  { destruct Hrow as (_ & Hdel & _).
    exact (Hdel kernel3 1 2 [2] [0] kernel3_row_bucket). }
  do 3 (split; [reflexivity|]).
  split; [exact kernel3_col_bucket|].
  do 3 (split; [reflexivity|]).
  destruct Hcol as (Hadd & _ & _).
  destruct (Hadd kernel3_unlinked 0 2 [1] kernel3_col_bucket)
    as (mover & n1 & n2 & Hf & Hok & _ & _ & _ & Hb & _ & s2 & Hdel & Hfirst & _).
  - intros Hin. apply list_elem_of_singleton in Hin. discriminate.
  - eexists. reflexivity.
  - eexists. reflexivity.
  - exists mover, n1, n2. split; [exact Hf|]. split; [exact Hok|].
    split; [exact Hb|]. exists s2. split; [exact Hdel | exact Hfirst].
Defined.

(** ** The pivot setters and [update] *)

(** C8.  [setPivotThreshold] and [setMinAbsPivot] return [true] exactly for
    a value in (0, 0.5]; an accepted value is stored and nothing else
    changes; a refused call leaves the engine as it was. *)
Theorem pivot_setters_accept_range (s : HFactor) (v : float) :
  (fst (setPivotThreshold s v) = true <->
   (0 <? v)%float = true /\ (v <=? 0.5)%float = true) /\
  (fst (setPivotThreshold s v) = true ->
   snd (setPivotThreshold s v) = set_pivot_threshold s v) /\
  (fst (setPivotThreshold s v) = false -> snd (setPivotThreshold s v) = s) /\
  (fst (setMinAbsPivot s v) = true <->
   (0 <? v)%float = true /\ (v <=? 0.5)%float = true) /\
  (fst (setMinAbsPivot s v) = true ->
   snd (setMinAbsPivot s v) = set_pivot_tolerance s v) /\
  (fst (setMinAbsPivot s v) = false -> snd (setMinAbsPivot s v) = s).
Proof.
  unfold setPivotThreshold, setMinAbsPivot, pivot_value_accepted.
  destruct (0 <? v)%float, (v <=? 0.5)%float; simpl;
    repeat split; intros; try reflexivity; try discriminate;
    try (destruct H; discriminate).
Qed.

(** In [kernel3]: 0.25 is accepted and stored; 0, 0.75 and NaN are
    refused. *)
Lemma pivot_setters_accept_range_witness :
  setPivotThreshold kernel3 0.25 = (true, set_pivot_threshold kernel3 0.25) /\
  setPivotThreshold kernel3 0 = (false, kernel3) /\
  setMinAbsPivot kernel3 0.75 = (false, kernel3) /\
  setMinAbsPivot kernel3 nan = (false, kernel3) /\
  snd (setPivotThreshold kernel3 0.25) = set_pivot_threshold kernel3 0.25.
Proof.
  do 4 (split; [reflexivity|]).
  apply (proj1 (proj2 (pivot_setters_accept_range kernel3 0.25))).
  reflexivity.
Defined.

(** C3.  [update] with pivot row [iRow], where [aq[iRow] = pivot]: if
    [|pivot| < pivot_tolerance] the hint is the reinvert value and the
    engine is returned as it was; if [|pivot| >= pivot_tolerance] the
    result is that of the update rule. *)
Theorem update_pivot_check
    (kHintReinvert : Z)
    (incorporate : HFactor -> HVector -> HVector -> Z -> Z -> HFactor * Z)
    (s : HFactor) (aq ep : HVector) (iRow hint : Z) (pivot : float)
    (Hpivot : vat (hv_array aq) iRow = Some pivot) :
  ((abs pivot <? pivot_tolerance s)%float = true ->
   update kHintReinvert incorporate s aq ep iRow hint
   = Ok (s, kHintReinvert) 1) /\
  ((pivot_tolerance s <=? abs pivot)%float = true ->
   update kHintReinvert incorporate s aq ep iRow hint
   = Ok (incorporate s aq ep iRow hint) 1).
Proof.
  unfold update. rewrite (vget_Ok _ _ _ Hpivot). simpl. split; intros H.
  - apply F64.ltb_leb_false in H. now rewrite H.
  - now rewrite H.
Qed.

(** With the tolerance [2^-33] of [kernel3]: row 1 of [aq3] is refused with
    the hint 1 and the engine untouched, row 0 goes to the update rule. *)
Lemma update_pivot_check_witness :
  vat (hv_array aq3) 1 = Some 0x1p-40%float /\
  (abs 0x1p-40 <? pivot_tolerance kernel3)%float = true /\
  update 1 record_rule kernel3 aq3 aq3 1 0 = Ok (kernel3, 1) 1 /\
  vat (hv_array aq3) 0 = Some 1%float /\
  (pivot_tolerance kernel3 <=? abs 1)%float = true /\
  update 1 record_rule kernel3 aq3 aq3 0 0
  = Ok (set_u_pivot_value kernel3 [1%float], 0) 1.
Proof.
  split; [reflexivity|]. split; [reflexivity|]. split.
  - apply (proj1 (update_pivot_check 1 record_rule kernel3 aq3 aq3 1 0 _ eq_refl)).
    reflexivity.
  - split; [reflexivity|]. split; [reflexivity|].
    apply (proj2 (update_pivot_check 1 record_rule kernel3 aq3 aq3 0 0 _ eq_refl)).
    reflexivity.
Defined.

(** ** Spans of a vector under one write *)

Section SpanLaws.
Context {A : Type}.
Implicit Types (l : list A) (st ct p d : nat) (x m : A).
Local Open Scope nat_scope.

(** A write outside the span does not show in it. *)
Lemma span_insert_outside l st ct p x :
  ~ (st <= p < st + ct)%nat ->
  take ct (drop st (<[p := x]> l)) = take ct (drop st l).
Proof.
  intros Hout. destruct (decide (p < st)%nat) as [Hlt|Hge].
  - now rewrite drop_insert_lt.
  - rewrite drop_insert_ge by lia. apply take_insert_ge. lia.
Qed.

(** A write at the slot after the span extends it by the value written. *)
Lemma span_insert_end l st ct x :
  (st + ct < length l)%nat ->
  take (S ct) (drop st (<[st + ct := x]> l)) = take ct (drop st l) ++ [x].
Proof.
  intros Hlen. rewrite drop_insert_ge by lia.
  replace (st + ct - st)%nat with ct by lia.
  destruct (lookup_lt_is_Some_2 (drop st l) ct) as [y Hy].
  { rewrite length_drop. lia. }
  rewrite take_insert_lt by lia. rewrite (take_S_r _ _ _ Hy).
  assert (Hl : length (take ct (drop st l)) = ct).
  { rewrite length_take, length_drop. lia. }
  rewrite insert_app_r_alt by lia. rewrite Hl, Nat.sub_diag. reflexivity.
Qed.

(** Overwriting slot [d] of a span with the span's last element and
    dropping the last slot leaves the span without the element that was at
    [d], in some order. *)
Lemma span_delete_perm l st ct d x m :
  (st <= d < st + ct)%nat -> (st + ct <= length l)%nat ->
  l !! d = Some x -> l !! (st + ct - 1)%nat = Some m ->
  x :: take (ct - 1) (drop st (<[d := m]> l)) ≡ₚ take ct (drop st l).
Proof.
  intros Hd Hlen Hx Hm.
  destruct ct as [|c]; [lia|]. simpl. rewrite Nat.sub_0_r.
  rewrite drop_insert_ge by lia.
  assert (Hlast : drop st l !! c = Some m).
  { rewrite lookup_drop. now replace (st + c)%nat with (st + S c - 1)%nat by lia. }
  rewrite (take_S_r _ _ _ Hlast).
  destruct (decide (d - st = c)%nat) as [He|Hne].
  - rewrite take_insert_ge by lia.
    assert (x = m); [|subst x; apply Permutation_cons_append].
    replace d with (st + S c - 1)%nat in Hx by lia. congruence.
  - rewrite take_insert_lt by lia.
    assert (Hxe : take c (drop st l) !! (d - st)%nat = Some x).
    { rewrite lookup_take_lt by lia. rewrite lookup_drop.
      now replace (st + (d - st))%nat with d by lia. }
    rewrite insert_take_drop
      by (rewrite length_take, length_drop; lia).
    rewrite <- (take_drop_middle _ _ _ Hxe) at 3.
    rewrite <- !app_assoc. simpl.
    rewrite <- (Permutation_middle _ _ x). apply Permutation_cons; [reflexivity|].
    apply Permutation_app_head, Permutation_cons_append.
Qed.

End SpanLaws.

(** ** Round trip: a matched insertion undone by the matched deletion *)

Lemma colInsert_colDelete s kHighsTiny iCol iRow v start count :
  (abs v <? kHighsTiny)%float = false ->
  vat (mc_start (mc s)) iCol = Some start ->
  vat (mc_count_a (mc s)) iCol = Some count ->
  0 <= start -> 0 <= count ->
  start + count < Z.of_nat (length (mc_index (mc s))) ->
  start + count < Z.of_nat (length (mc_value (mc s))) ->
  (forall k, start <= k < start + count ->
             vat (mc_index (mc s)) k <> Some iRow) ->
  exists n,
    colDelete (col_inserted s iCol iRow (start + count) count v) iCol iRow
    = Ok (v, col_slot_written s (start + count) iRow v) n.
Proof.
  intros Hv Hstart Hcount H0 Hc0 Hli Hlv Hfresh.
  set (p := start + count). set (s1 := col_inserted s iCol iRow p count v).
  assert (Hspan : col_span s1 iCol start (count + 1)).
  { unfold col_span, s1. simpl. rewrite !vupd_length.
    rewrite vat_vupd_eq by (eapply vat_lt; eauto).
    repeat split; try assumption; unfold p in *; lia. }
  assert (Hp : vat (mc_index (mc s1)) p = Some iRow).
  { unfold s1. simpl. apply vat_vupd_eq. unfold p. lia. }
  destruct (colDelete_present s1 iCol iRow start (count + 1) p Hspan
              ltac:(unfold p; lia) Hp)
    as (idel & pm & mi & mv & n & Hidel & Hx & _ & Hpm & Hmi & Hmv & Heq).
  assert (idel = p).
  { destruct (decide (idel = p)) as [|Hne]; [assumption|]. exfalso.
    apply (Hfresh idel); [unfold p in *; lia|].
    unfold s1 in Hx. simpl in Hx.
    rewrite vat_vupd_ne in Hx by (unfold p in *; lia).
    exact Hx. }
  subst idel. replace (start + (count + 1) - 1) with p in * by (unfold p; lia).
  unfold s1 in Hpm, Hmi, Hmv. simpl in Hpm, Hmi, Hmv.
  rewrite vat_vupd_eq in Hpm by (unfold p; lia).
  rewrite vat_vupd_eq in Hmi by (unfold p; lia).
  rewrite vat_vupd_eq in Hmv by (unfold p; lia).
  inversion Hpm; inversion Hmi; inversion Hmv; subst pm mi mv.
  exists n. rewrite Heq. f_equal. f_equal.
  unfold col_deleted, col_slot_written, s1, col_inserted, set_mc. simpl.
  f_equal. f_equal.
  - replace (count + 1 - 1) with count by lia.
    rewrite vupd_vupd_eq. now apply vupd_id.
  - apply vupd_vupd_eq.
  - apply vupd_vupd_eq.
Qed.

Lemma rowInsert_rowDelete s iCol iRow start count :
  vat (mr_start (mr s)) iRow = Some start ->
  vat (mr_count (mr s)) iRow = Some count ->
  0 <= start -> 0 <= count ->
  start + count < Z.of_nat (length (mr_index (mr s))) ->
  (forall k, start <= k < start + count ->
             vat (mr_index (mr s)) k <> Some iCol) ->
  exists n,
    rowDelete (row_inserted s iCol iRow (start + count) count) iCol iRow
    = Ok (row_slot_written s (start + count) iCol) n.
Proof.
  intros Hstart Hcount H0 Hc0 Hli Hfresh.
  set (p := start + count). set (s1 := row_inserted s iCol iRow p count).
  assert (Hspan : row_span s1 iRow start (count + 1)).
  { unfold row_span, s1. simpl. rewrite !vupd_length.
    rewrite vat_vupd_eq by (eapply vat_lt; eauto).
    repeat split; try assumption; unfold p in *; lia. }
  assert (Hp : vat (mr_index (mr s1)) p = Some iCol).
  { unfold s1. simpl. apply vat_vupd_eq. unfold p. lia. }
  destruct (rowDelete_present s1 iCol iRow start (count + 1) p Hspan
              ltac:(unfold p; lia) Hp)
    as (idel & mi & n & Hidel & Hx & _ & Hmi & Heq).
  assert (idel = p).
  { destruct (decide (idel = p)) as [|Hne]; [assumption|]. exfalso.
    apply (Hfresh idel); [unfold p in *; lia|].
    unfold s1 in Hx. simpl in Hx.
    rewrite vat_vupd_ne in Hx by (unfold p in *; lia).
    exact Hx. }
  subst idel. replace (start + (count + 1) - 1) with p in * by (unfold p; lia).
  unfold s1 in Hmi. simpl in Hmi.
  rewrite vat_vupd_eq in Hmi by (unfold p; lia).
  inversion Hmi; subst mi.
  exists n. rewrite Heq. f_equal.
  unfold row_deleted, row_slot_written, s1, row_inserted, set_mr. simpl.
  f_equal. f_equal.
  - replace (count + 1 - 1) with count by lia.
    rewrite vupd_vupd_eq. now apply vupd_id.
  - apply vupd_vupd_eq.
Qed.

(** A write outside a span of a vector indexed by [Z] does not show in the
    span. *)
Lemma zspan_vupd_outside {A} (v : list A) start count p x :
  0 <= start -> 0 <= p -> ~ (start <= p < start + count) ->
  take (Z.to_nat count) (drop (Z.to_nat start) (vupd v p x))
  = take (Z.to_nat count) (drop (Z.to_nat start) v).
Proof.
  intros H0 Hp Hout. apply span_insert_outside. lia.
Qed.

Lemma col_pairs_slot_written s p iRow v start count :
  0 <= start -> 0 <= p -> ~ (start <= p < start + count) ->
  col_pairs (col_slot_written s p iRow v) start count = col_pairs s start count.
Proof.
  intros H0 Hp Hout. unfold col_pairs, span_entries, live_values. simpl.
  now rewrite !zspan_vupd_outside.
Qed.

(** X1.  Round trip of the matched pairs.  Let [(iRow, iCol)] be in neither
    view, and let the slot after the live span of column [iCol] and the
    slot after the live span of row [iRow] lie in their arenas.  Then
    [colInsert]/[rowInsert] followed by [colDelete]/[rowDelete] of the same
    entry returns the value that was inserted, and gives back the engine
    with both counts and all live entries of the column and of the row as
    before: only the two slots just after the live spans have been
    written. *)
Theorem insert_delete_round_trip
    (kHighsTiny : float) (s : HFactor) (iCol iRow : Z) (v : float)
    (cs cc rs rc : Z)
    (Hv : (kHighsTiny <=? abs v)%float = true)
    (Hcs : vat (mc_start (mc s)) iCol = Some cs)
    (Hcc : vat (mc_count_a (mc s)) iCol = Some cc)
    (Hcs0 : 0 <= cs) (Hcc0 : 0 <= cc)
    (Hci : cs + cc < Z.of_nat (length (mc_index (mc s))))
    (Hcv : cs + cc < Z.of_nat (length (mc_value (mc s))))
    (Hrs : vat (mr_start (mr s)) iRow = Some rs)
    (Hrc : vat (mr_count (mr s)) iRow = Some rc)
    (Hrs0 : 0 <= rs) (Hrc0 : 0 <= rc)
    (Hri : rs + rc < Z.of_nat (length (mr_index (mr s))))
    (Hcol : forall k, cs <= k < cs + cc -> vat (mc_index (mc s)) k <> Some iRow)
    (Hrow : forall k, rs <= k < rs + rc -> vat (mr_index (mr s)) k <> Some iCol) :
  let s' := row_slot_written (col_slot_written s (cs + cc) iRow v)
                             (rs + rc) iCol in
  (exists n,
     (s1 ← insertPair kHighsTiny s iCol iRow v; deletePair s1 iCol iRow)
     = Ok (v, s') n) /\
  mc_count_a (mc s') = mc_count_a (mc s) /\
  mr_count (mr s') = mr_count (mr s) /\
  col_pairs s' cs cc = col_pairs s cs cc /\
  span_entries (mr_index (mr s')) rs rc = span_entries (mr_index (mr s)) rs rc.
Proof.
  intros s'. apply F64.leb_ltb_false in Hv. split; [|split; [|split; [|split]]].
  - rewrite (insertPair_Ok _ _ _ _ _ cs cc rs rc Hv Hcs Hcc
               ltac:(split; lia) Hcv Hrs Hrc ltac:(split; lia)).
    cbn [mbind result_bind].
    change (row_inserted (col_inserted s iCol iRow (cs + cc) cc v)
                         iCol iRow (rs + rc) rc)
      with (col_inserted (row_inserted s iCol iRow (rs + rc) rc)
                         iCol iRow (cs + cc) cc v).
    destruct (colInsert_colDelete (row_inserted s iCol iRow (rs + rc) rc)
                kHighsTiny iCol iRow v cs cc Hv Hcs Hcc Hcs0 Hcc0 Hci Hcv Hcol)
      as [n1 E1].
    unfold deletePair. rewrite E1. cbn [mbind result_bind].
    change (col_slot_written (row_inserted s iCol iRow (rs + rc) rc)
                             (cs + cc) iRow v)
      with (row_inserted (col_slot_written s (cs + cc) iRow v)
                         iCol iRow (rs + rc) rc).
    destruct (rowInsert_rowDelete (col_slot_written s (cs + cc) iRow v)
                iCol iRow rs rc Hrs Hrc Hrs0 Hrc0 Hri Hrow) as [n2 E2].
    rewrite E2. simpl. eexists. reflexivity.
  - reflexivity.
  - reflexivity.
  - apply (col_pairs_slot_written s (cs + cc) iRow v cs cc); lia.
  - unfold span_entries. simpl. apply zspan_vupd_outside; lia.
Qed.

(** In [kernel3], the entry (2, 1) is in neither view; column 1 has its
    next slot at 5 + 2 and row 2 at 8 + 2.  Inserting 0.25 there and
    deleting it again returns 0.25. *)
Lemma insert_delete_round_trip_witness :
  (tiny14 <=? abs 0.25)%float = true /\
  (exists n,
     (s1 ← insertPair tiny14 kernel3 1 2 0.25; deletePair s1 1 2)
     = Ok (0.25%float,
           row_slot_written (col_slot_written kernel3 (5 + 2) 2 0.25)
                            (8 + 2) 1) n) /\
  col_pairs (row_slot_written (col_slot_written kernel3 (5 + 2) 2 0.25)
                              (8 + 2) 1) 5 2
  = [(0, 1%float); (1, 3%float)].
Proof.
  split; [reflexivity|].
  assert (Hc : forall k, 5 <= k < 5 + 2 ->
                         vat (mc_index (mc kernel3)) k <> Some 2).
  { intros k Hk. assert (k = 5 \/ k = 6) as [->| ->] by lia; discriminate. }
  assert (Hr : forall k, 8 <= k < 8 + 2 ->
                         vat (mr_index (mr kernel3)) k <> Some 1).
  { intros k Hk. assert (k = 8 \/ k = 9) as [->| ->] by lia; discriminate. }
  destruct (insert_delete_round_trip tiny14 kernel3 1 2 0.25 5 2 8 2
              eq_refl eq_refl eq_refl ltac:(lia) ltac:(lia)
              ltac:(simpl; lia) ltac:(simpl; lia)
              eq_refl eq_refl ltac:(lia) ltac:(lia) ltac:(simpl; lia) Hc Hr)
    as (Hrt & _ & _ & Hpairs & _).
  split; [exact Hrt|]. rewrite Hpairs. reflexivity.
Defined.

(** ** What a deletion keeps *)

Lemma col_pairs_zip s start count :
  col_pairs s start count
  = take (Z.to_nat count)
         (drop (Z.to_nat start) (zip (mc_index (mc s)) (mc_value (mc s)))).
Proof.
  unfold col_pairs, span_entries, live_values.
  now rewrite zip_with_drop, zip_with_take.
Qed.

(** The live entries of column [iCol] after [colDelete] has overwritten
    slot [idel] with the last one. *)
Lemma col_deleted_pairs s iCol idel start count x pm mi mv :
  0 <= start -> start <= idel < start + count ->
  start + count <= Z.of_nat (length (mc_index (mc s))) ->
  start + count <= Z.of_nat (length (mc_value (mc s))) ->
  vat (mc_index (mc s)) idel = Some x ->
  vat (mc_value (mc s)) idel = Some pm ->
  vat (mc_index (mc s)) (start + count - 1) = Some mi ->
  vat (mc_value (mc s)) (start + count - 1) = Some mv ->
  (x, pm) :: col_pairs (col_deleted s iCol idel count mi mv) start (count - 1)
  ≡ₚ col_pairs s start count.
Proof.
  intros H0 Hd Hli Hlv Hx Hpm Hmi Hmv. rewrite !col_pairs_zip. simpl.
  unfold vupd. rewrite <- insert_zip_with.
  apply vat_Some in Hx as [_ Hx], Hpm as [_ Hpm], Hmi as [_ Hmi], Hmv as [_ Hmv].
  replace (Z.to_nat (count - 1)) with (Z.to_nat count - 1)%nat by lia.
  apply span_delete_perm.
  - lia.
  - rewrite length_zip_with. lia.
  - apply lookup_zip_with_Some. eauto.
  - replace (Z.to_nat start + Z.to_nat count - 1)%nat
      with (Z.to_nat (start + count - 1)) by lia.
    apply lookup_zip_with_Some. eauto.
Qed.

Lemma row_deleted_entries s iRow idel start count x mi :
  0 <= start -> start <= idel < start + count ->
  start + count <= Z.of_nat (length (mr_index (mr s))) ->
  vat (mr_index (mr s)) idel = Some x ->
  vat (mr_index (mr s)) (start + count - 1) = Some mi ->
  x :: span_entries (mr_index (mr (row_deleted s iRow idel count mi)))
         start (count - 1)
  ≡ₚ span_entries (mr_index (mr s)) start count.
Proof.
  intros H0 Hd Hli Hx Hmi. unfold span_entries. simpl. unfold vupd.
  apply vat_Some in Hx as [_ Hx], Hmi as [_ Hmi].
  replace (Z.to_nat (count - 1)) with (Z.to_nat count - 1)%nat by lia.
  apply span_delete_perm; try assumption; try lia.
  now replace (Z.to_nat start + Z.to_nat count - 1)%nat
    with (Z.to_nat (start + count - 1)) by lia.
Qed.

(** X2.  What a deletion keeps.  [colDelete(iCol, iRow)] of a live entry
    leaves column [iCol] with one entry less, and its live entries, each
    index with its value, are those it had without the deleted one, in
    some order: no other entry is lost, and every value stays with its
    index.  [rowDelete(iCol, iRow)] does the same for the column indices of
    row [iRow]. *)
Theorem delete_keeps_others (s : HFactor) (iCol iRow : Z) :
  (forall start count k,
     col_span s iCol start count ->
     start <= k < start + count -> vat (mc_index (mc s)) k = Some iRow ->
     exists v s' n,
       colDelete s iCol iRow = Ok (v, s') n /\
       vat (mc_start (mc s')) iCol = Some start /\
       vat (mc_count_a (mc s')) iCol = Some (count - 1) /\
       (iRow, v) :: col_pairs s' start (count - 1) ≡ₚ col_pairs s start count) /\
  (forall start count k,
     row_span s iRow start count ->
     start <= k < start + count -> vat (mr_index (mr s)) k = Some iCol ->
     exists s' n,
       rowDelete s iCol iRow = Ok s' n /\
       vat (mr_start (mr s')) iRow = Some start /\
       vat (mr_count (mr s')) iRow = Some (count - 1) /\
       iCol :: span_entries (mr_index (mr s')) start (count - 1)
       ≡ₚ span_entries (mr_index (mr s)) start count).
Proof.
  split; intros start count k Hspan Hk Hat.
  - destruct (colDelete_present _ _ _ _ _ _ Hspan Hk Hat)
      as (idel & pm & mi & mv & n & Hidel & Hx & _ & Hpm & Hmi & Hmv & Heq).
    destruct Hspan as (Hs & Hc & H0 & Hli & Hlv).
    exists pm, (col_deleted s iCol idel count mi mv), n.
    split; [exact Heq|]. split; [exact Hs|]. split.
    + simpl. apply vat_vupd_eq. eapply vat_lt; eauto.
    + apply col_deleted_pairs; try assumption. lia.
  - destruct (rowDelete_present _ _ _ _ _ _ Hspan Hk Hat)
      as (idel & mi & n & Hidel & Hx & _ & Hmi & Heq).
    destruct Hspan as (Hs & Hc & H0 & Hli).
    exists (row_deleted s iRow idel count mi), n.
    split; [exact Heq|]. split; [exact Hs|]. split.
    + simpl. apply vat_vupd_eq. eapply vat_lt; eauto.
    + apply row_deleted_entries; try assumption. lia.
Qed.

(** Column 0 of [kernel3] holds (0, 2), (1, 1), (2, 4): without row 0 it
    holds (2, 4), (1, 1). *)
Lemma delete_keeps_others_witness :
  col_span kernel3 0 0 3 /\
  vat (mc_index (mc kernel3)) 0 = Some 0 /\
  (exists v s' n,
     colDelete kernel3 0 0 = Ok (v, s') n /\
     vat (mc_start (mc s')) 0 = Some 0 /\
     vat (mc_count_a (mc s')) 0 = Some (3 - 1) /\
     (0, v) :: col_pairs s' 0 (3 - 1) ≡ₚ col_pairs kernel3 0 3) /\
  col_pairs kernel3 0 3 = [(0, 2%float); (1, 1%float); (2, 4%float)] /\
  (prod_map id (fun s' => col_pairs s' 0 2) <$> value (colDelete kernel3 0 0))
  = Some (2%float, [(2, 4%float); (1, 1%float)]).
Proof.
  assert (Hspan : col_span kernel3 0 0 3).
  { repeat split; try reflexivity; simpl; lia. }
  split; [exact Hspan|]. split; [reflexivity|]. split.
  - apply (proj1 (delete_keeps_others kernel3 0 0) 0 3 0 Hspan);
      [lia | reflexivity].
  - split; reflexivity.
Defined.

(** ** The entries of a view under one change *)

Lemma imap_as_seq {A B} (g : nat -> A -> B) (d : B) (l : list A) :
  imap g l
  = (fun j => match l !! j with Some x => g j x | None => d end)
      <$> seq 0 (length l).
Proof.
  revert g. induction l as [|a l IH]; intros g; [reflexivity|].
  rewrite imap_cons. simpl. f_equal.
  rewrite IH, <- fmap_S_seq, <- list_fmap_compose. reflexivity.
Qed.

Lemma view_entries_seq {B} (f : nat -> Z -> B) index starts counts :
  view_entries f index starts counts
  = concat (view_span f index starts counts
              <$> seq 0 (length (zip starts counts))).
Proof. unfold view_entries. now rewrite (imap_as_seq _ []). Qed.

(** Changing one component of a concatenation by one element. *)
Lemma concat_change {B} (h h' : nat -> list B) (js : list nat) (i : nat) e :
  NoDup js -> i ∈ js ->
  (forall j, j ∈ js -> j <> i -> h' j = h j) ->
  h' i ≡ₚ e :: h i ->
  concat (h' <$> js) ≡ₚ e :: concat (h <$> js).
Proof.
  induction js as [|a js IH]; intros Hnd Hin Hsame Hi.
  - inversion Hin.
  - apply NoDup_cons in Hnd as [Ha Hnd]. rewrite !fmap_cons, !concat_cons.
    destruct (decide (a = i)) as [->|Hne].
    + assert (E : h' <$> js = h <$> js).
      { apply list_fmap_ext. intros k j Hj. apply Hsame.
        - right. eapply list_elem_of_lookup_2; eauto.
        - intros ->. apply Ha. eapply list_elem_of_lookup_2; eauto. }
      rewrite E, Hi. reflexivity.
    + apply elem_of_cons in Hin as [->|Hin]; [contradiction|].
      rewrite (Hsame a) by (auto; left).
      rewrite (IH Hnd Hin); [|intros j Hj; apply Hsame; now right|exact Hi].
      symmetry. apply Permutation_middle.
Qed.

Lemma view_span_other {B} (f : nat -> Z -> B) index index' starts counts
    (i : nat) c' j :
  j <> i ->
  (forall sj cj, starts !! j = Some sj -> counts !! j = Some cj ->
                 span_entries index' sj cj = span_entries index sj cj) ->
  view_span f index' starts (<[i := c']> counts) j
  = view_span f index starts counts j.
Proof.
  intros Hne Hsame. unfold view_span.
  rewrite !lookup_zip_with, list_lookup_insert_ne by auto.
  destruct (starts !! j) as [sj|] eqn:Es; simpl; [|reflexivity].
  destruct (counts !! j) as [cj|] eqn:Ec; simpl; [|reflexivity].
  now rewrite (Hsame sj cj).
Qed.

Lemma view_span_at {B} (f : nat -> Z -> B) index starts counts (i : nat) st ct :
  starts !! i = Some st -> counts !! i = Some ct ->
  view_span f index starts counts i = f i <$> span_entries index st ct.
Proof.
  intros Hs Hc. unfold view_span. rewrite lookup_zip_with, Hs, Hc. reflexivity.
Qed.

Lemma view_index_in_range (starts counts : list Z) (i : nat) st ct :
  starts !! i = Some st -> counts !! i = Some ct ->
  i ∈ seq 0 (length (zip starts counts)).
Proof.
  intros Hs Hc. apply elem_of_seq. split; [lia|]. simpl.
  rewrite length_zip_with. apply lookup_lt_Some in Hs, Hc. lia.
Qed.

(** One more entry at the end of the span of [i], in a slot that is in no
    other span. *)
Lemma view_entries_insert {B} (f : nat -> Z -> B) index starts counts
    (i : nat) st ct x :
  starts !! i = Some st -> counts !! i = Some ct ->
  0 <= st -> 0 <= ct -> st + ct < Z.of_nat (length index) ->
  (forall (j : nat) sj cj, j <> i ->
     starts !! j = Some sj -> counts !! j = Some cj ->
     0 <= sj /\ ~ (sj <= st + ct < sj + cj)) ->
  view_entries f (vupd index (st + ct) x) starts (<[i := ct + 1]> counts)
  ≡ₚ f i x :: view_entries f index starts counts.
Proof.
  intros Hs Hc H0 Hc0 Hlen Hfree. rewrite !view_entries_seq.
  replace (length (zip starts (<[i := ct + 1]> counts)))
    with (length (zip starts counts))
    by (rewrite !length_zip_with, length_insert; reflexivity).
  apply (concat_change _ _ _ i).
  - apply NoDup_seq.
  - eapply view_index_in_range; eauto.
  - intros j _ Hne. apply view_span_other; [exact Hne|].
    intros sj cj Hsj Hcj. destruct (Hfree j sj cj Hne Hsj Hcj) as [Hsj0 Hout].
    unfold span_entries. apply zspan_vupd_outside; [exact Hsj0 | lia | exact Hout].
  - rewrite (view_span_at f _ starts (<[i := ct + 1]> counts) i st (ct + 1) Hs)
      by (apply list_lookup_insert_eq; now apply lookup_lt_Some in Hc).
    rewrite (view_span_at f _ _ _ i st ct Hs Hc).
    unfold span_entries, vupd.
    replace (Z.to_nat (ct + 1)) with (S (Z.to_nat ct)) by lia.
    replace (Z.to_nat (st + ct)) with (Z.to_nat st + Z.to_nat ct)%nat by lia.
    rewrite span_insert_end by lia.
    rewrite fmap_app. simpl. symmetry. apply Permutation_cons_append.
Qed.

(** One entry less in the span of [i]: slot [d] of the span is overwritten
    with the span's last entry, and no other span holds slot [d]. *)
Lemma view_entries_delete {B} (f : nat -> Z -> B) index starts counts
    (i : nat) st ct d x m :
  starts !! i = Some st -> counts !! i = Some ct ->
  0 <= st -> st <= d < st + ct -> st + ct <= Z.of_nat (length index) ->
  vat index d = Some x -> vat index (st + ct - 1) = Some m ->
  (forall (j : nat) sj cj, j <> i ->
     starts !! j = Some sj -> counts !! j = Some cj ->
     0 <= sj /\ ~ (sj <= d < sj + cj)) ->
  f i x :: view_entries f (vupd index d m) starts (<[i := ct - 1]> counts)
  ≡ₚ view_entries f index starts counts.
Proof.
  intros Hs Hc H0 Hd Hlen Hx Hm Hfree. rewrite !view_entries_seq.
  replace (length (zip starts (<[i := ct - 1]> counts)))
    with (length (zip starts counts))
    by (rewrite !length_zip_with, length_insert; reflexivity).
  symmetry. apply (concat_change _ _ _ i).
  - apply NoDup_seq.
  - eapply view_index_in_range; eauto.
  - intros j _ Hne. symmetry. apply view_span_other; [exact Hne|].
    intros sj cj Hsj Hcj. destruct (Hfree j sj cj Hne Hsj Hcj) as [Hsj0 Hout].
    unfold span_entries. apply zspan_vupd_outside; [exact Hsj0 | lia | exact Hout].
  - rewrite (view_span_at f _ starts (<[i := ct - 1]> counts) i st (ct - 1) Hs)
      by (apply list_lookup_insert_eq; now apply lookup_lt_Some in Hc).
    rewrite (view_span_at f _ _ _ i st ct Hs Hc).
    unfold span_entries, vupd.
    apply vat_Some in Hx as [_ Hx], Hm as [_ Hm].
    replace (Z.to_nat (ct - 1)) with (Z.to_nat ct - 1)%nat by lia.
    rewrite <- (span_delete_perm index (Z.to_nat st) (Z.to_nat ct)
                  (Z.to_nat d) x m); try assumption; try lia.
    + rewrite fmap_cons. reflexivity.
    + now replace (Z.to_nat st + Z.to_nat ct - 1)%nat
        with (Z.to_nat (st + ct - 1)) by lia.
Qed.

Lemma vat_of_nat {A} (v : list A) (j : nat) : vat v (Z.of_nat j) = v !! j.
Proof. unfold vat. rewrite decide_True by lia. now rewrite Nat2Z.id. Qed.

Lemma spans_view_insert {B} (f : nat -> Z -> B) index starts counts i st ct x :
  spans_wf starts counts (Z.of_nat (length index)) ->
  vat starts i = Some st -> vat counts i = Some ct ->
  st + ct < Z.of_nat (length index) ->
  slot_free starts counts i (st + ct) ->
  view_entries f (vupd index (st + ct) x) starts (vupd counts i (ct + 1))
  ≡ₚ f (Z.to_nat i) x :: view_entries f index starts counts.
Proof.
  intros [Hlen Hwf] Hs Hc Hlt Hfree.
  destruct (Hwf _ _ _ Hs Hc) as (H0 & Hc0 & _).
  apply vat_Some in Hs as [Hi Hs]. apply vat_Some in Hc as [_ Hc].
  change (vupd counts i (ct + 1)) with (<[Z.to_nat i := ct + 1]> counts).
  apply view_entries_insert; try assumption.
  intros j sj cj Hne Hsj Hcj. rewrite <- vat_of_nat in Hsj, Hcj.
  split.
  - now destruct (Hwf _ _ _ Hsj Hcj).
  - apply (Hfree (Z.of_nat j)); [lia | assumption | assumption].
Qed.

Lemma spans_view_delete {B} (f : nat -> Z -> B) index starts counts
    i st ct d x m :
  spans_wf starts counts (Z.of_nat (length index)) ->
  spans_disjoint starts counts ->
  vat starts i = Some st -> vat counts i = Some ct ->
  st <= d < st + ct ->
  vat index d = Some x -> vat index (st + ct - 1) = Some m ->
  f (Z.to_nat i) x
    :: view_entries f (vupd index d m) starts (vupd counts i (ct - 1))
  ≡ₚ view_entries f index starts counts.
Proof.
  intros [Hlen Hwf] Hdis Hs Hc Hd Hx Hm.
  destruct (Hwf _ _ _ Hs Hc) as (H0 & Hc0 & Hle).
  pose proof Hs as Hs'. pose proof Hc as Hc'.
  apply vat_Some in Hs' as [Hi Hs']. apply vat_Some in Hc' as [_ Hc'].
  change (vupd counts i (ct - 1)) with (<[Z.to_nat i := ct - 1]> counts).
  apply (view_entries_delete f index starts counts (Z.to_nat i) st ct d x m);
    try assumption.
  intros j sj cj Hne Hsj Hcj. rewrite <- vat_of_nat in Hsj, Hcj.
  split.
  - now destruct (Hwf _ _ _ Hsj Hcj).
  - apply (Hdis i (Z.of_nat j) st ct sj cj d); try assumption. lia.
Qed.

(** Spans stay apart when one of them grows into a free slot, and when
    one of them shrinks. *)
Lemma spans_disjoint_grow starts counts i st ct :
  spans_disjoint starts counts ->
  vat starts i = Some st -> vat counts i = Some ct ->
  slot_free starts counts i (st + ct) ->
  spans_disjoint starts (vupd counts i (ct + 1)).
Proof.
  intros Hd Hs Hc Hfree j j' sj cj sj' cj' p Hne Hsj Hcj Hsj' Hcj' Hp Hp'.
  pose proof (vat_lt _ _ _ Hc) as Hi.
  destruct (decide (j = i)) as [->|Hji].
  - rewrite vat_vupd_eq in Hcj by lia.
    rewrite vat_vupd_ne in Hcj' by lia.
    assert (sj = st) by congruence. assert (cj = ct + 1) by congruence.
    subst sj cj.
    destruct (decide (p = st + ct)) as [->|Hpe].
    + apply (Hfree j' sj' cj'); auto.
    + apply (Hd i j' st ct sj' cj' p); auto. lia.
  - rewrite vat_vupd_ne in Hcj by lia.
    destruct (decide (j' = i)) as [->|Hj'i].
    + rewrite vat_vupd_eq in Hcj' by lia.
      assert (sj' = st) by congruence. assert (cj' = ct + 1) by congruence.
      subst sj' cj'.
      destruct (decide (p = st + ct)) as [->|Hpe].
      * apply (Hfree j sj cj); auto.
      * apply (Hd j i sj cj st ct p); auto. lia.
    + rewrite vat_vupd_ne in Hcj' by lia.
      apply (Hd j j' sj cj sj' cj' p); auto.
Qed.

Lemma spans_disjoint_shrink starts counts i ct c' :
  spans_disjoint starts counts -> vat counts i = Some ct -> c' <= ct ->
  spans_disjoint starts (vupd counts i c').
Proof.
  intros Hd Hc Hle.
  pose proof (vat_lt _ _ _ Hc) as Hi.
  assert (Hold : forall j cj, vat (vupd counts i c') j = Some cj ->
                 exists cj0, vat counts j = Some cj0 /\ cj <= cj0).
  { intros j cj Hj. destruct (decide (j = i)) as [->|Hne].
    - rewrite vat_vupd_eq in Hj by lia. exists ct. split; [assumption|].
      inversion Hj. lia.
    - rewrite vat_vupd_ne in Hj by lia. exists cj. split; [assumption|lia]. }
  intros j j' sj cj sj' cj' p Hne Hsj Hcj Hsj' Hcj' Hp Hp'.
  destruct (Hold _ _ Hcj) as (cj0 & Hcj0 & Hle0).
  destruct (Hold _ _ Hcj') as (cj0' & Hcj0' & Hle0').
  apply (Hd j j' sj cj0 sj' cj0' p); auto; lia.
Qed.

Lemma kernel_agree_consistent s : kernel_agree s -> kernel_consistent s.
Proof.
  intros (Hc & Hr & _ & _ & Hp). split; [exact Hc|]. split; [exact Hr|].
  rewrite <- (col_entries_count s Hc), <- (row_entries_count s Hr).
  now rewrite Hp.
Qed.

(** ** The two views hold the same entries *)

Lemma col_inserted_entries s iCol iRow cs cc v :
  cols_wf s ->
  vat (mc_start (mc s)) iCol = Some cs ->
  vat (mc_count_a (mc s)) iCol = Some cc ->
  cs + cc < Z.of_nat (length (mc_index (mc s))) ->
  slot_free (mc_start (mc s)) (mc_count_a (mc s)) iCol (cs + cc) ->
  col_entries (col_inserted s iCol iRow (cs + cc) cc v)
  ≡ₚ (iRow, iCol) :: col_entries s.
Proof.
  intros [Hwf _] Hs Hc Hlt Hfree.
  pose proof (vat_lt _ _ _ Hs) as Hi.
  change (col_entries (col_inserted s iCol iRow (cs + cc) cc v))
    with (view_entries (fun j i => (i, Z.of_nat j))
            (vupd (mc_index (mc s)) (cs + cc) iRow) (mc_start (mc s))
            (vupd (mc_count_a (mc s)) iCol (cc + 1))).
  rewrite spans_view_insert by assumption.
  rewrite Z2Nat.id by lia. reflexivity.
Qed.

Lemma row_inserted_entries s iCol iRow rs rc :
  rows_wf s ->
  vat (mr_start (mr s)) iRow = Some rs ->
  vat (mr_count (mr s)) iRow = Some rc ->
  rs + rc < Z.of_nat (length (mr_index (mr s))) ->
  slot_free (mr_start (mr s)) (mr_count (mr s)) iRow (rs + rc) ->
  row_entries (row_inserted s iCol iRow (rs + rc) rc)
  ≡ₚ (iRow, iCol) :: row_entries s.
Proof.
  intros Hwf Hs Hc Hlt Hfree.
  pose proof (vat_lt _ _ _ Hs) as Hi.
  change (row_entries (row_inserted s iCol iRow (rs + rc) rc))
    with (view_entries (fun i j => (Z.of_nat i, j))
            (vupd (mr_index (mr s)) (rs + rc) iCol) (mr_start (mr s))
            (vupd (mr_count (mr s)) iRow (rc + 1))).
  rewrite spans_view_insert by assumption.
  rewrite Z2Nat.id by lia. reflexivity.
Qed.

Lemma col_deleted_entries s iCol iRow cs cc idel mi mv :
  cols_wf s -> spans_disjoint (mc_start (mc s)) (mc_count_a (mc s)) ->
  vat (mc_start (mc s)) iCol = Some cs ->
  vat (mc_count_a (mc s)) iCol = Some cc ->
  cs <= idel < cs + cc ->
  vat (mc_index (mc s)) idel = Some iRow ->
  vat (mc_index (mc s)) (cs + cc - 1) = Some mi ->
  (iRow, iCol) :: col_entries (col_deleted s iCol idel cc mi mv)
  ≡ₚ col_entries s.
Proof.
  intros [Hwf _] Hdis Hs Hc Hd Hx Hm.
  pose proof (vat_lt _ _ _ Hs) as Hi.
  change (col_entries (col_deleted s iCol idel cc mi mv))
    with (view_entries (fun j i => (i, Z.of_nat j))
            (vupd (mc_index (mc s)) idel mi) (mc_start (mc s))
            (vupd (mc_count_a (mc s)) iCol (cc - 1))).
  rewrite <- (spans_view_delete (fun j i => (i, Z.of_nat j)) (mc_index (mc s))
                (mc_start (mc s)) (mc_count_a (mc s)) iCol cs cc idel iRow mi)
    by assumption.
  rewrite Z2Nat.id by lia. reflexivity.
Qed.

Lemma row_deleted_view s iCol iRow rs rc idel mi :
  rows_wf s -> spans_disjoint (mr_start (mr s)) (mr_count (mr s)) ->
  vat (mr_start (mr s)) iRow = Some rs ->
  vat (mr_count (mr s)) iRow = Some rc ->
  rs <= idel < rs + rc ->
  vat (mr_index (mr s)) idel = Some iCol ->
  vat (mr_index (mr s)) (rs + rc - 1) = Some mi ->
  (iRow, iCol) :: row_entries (row_deleted s iRow idel rc mi)
  ≡ₚ row_entries s.
Proof.
  intros Hwf Hdis Hs Hc Hd Hx Hm.
  pose proof (vat_lt _ _ _ Hs) as Hi.
  change (row_entries (row_deleted s iRow idel rc mi))
    with (view_entries (fun i j => (Z.of_nat i, j))
            (vupd (mr_index (mr s)) idel mi) (mr_start (mr s))
            (vupd (mr_count (mr s)) iRow (rc - 1))).
  rewrite <- (spans_view_delete (fun i j => (Z.of_nat i, j)) (mr_index (mr s))
                (mr_start (mr s)) (mr_count (mr s)) iRow rs rc idel iCol mi)
    by assumption.
  rewrite Z2Nat.id by lia. reflexivity.
Qed.

(** X3.  A matched insertion keeps the two views in agreement.  When the
    column view and the row view of the kernel hold the same entries, their
    spans are apart, and the slot behind the live span of column [iCol] and
    the slot behind the live span of row [iRow] lie in the arenas and in no
    other span, then [colInsert(iCol, iRow, v)] followed by
    [rowInsert(iCol, iRow)] returns, adds exactly the entry [(iRow, iCol)]
    to each view, and leaves the views in agreement. *)
Theorem insertPair_views_agree kHighsTiny s iCol iRow v cs cc rs rc :
  kernel_agree s ->
  (abs v <? kHighsTiny)%float = false ->
  vat (mc_start (mc s)) iCol = Some cs ->
  vat (mc_count_a (mc s)) iCol = Some cc ->
  cs + cc < Z.of_nat (length (mc_index (mc s))) ->
  slot_free (mc_start (mc s)) (mc_count_a (mc s)) iCol (cs + cc) ->
  vat (mr_start (mr s)) iRow = Some rs ->
  vat (mr_count (mr s)) iRow = Some rc ->
  rs + rc < Z.of_nat (length (mr_index (mr s))) ->
  slot_free (mr_start (mr s)) (mr_count (mr s)) iRow (rs + rc) ->
  exists s' n,
    insertPair kHighsTiny s iCol iRow v = Ok s' n /\
    kernel_agree s' /\
    col_entries s' ≡ₚ (iRow, iCol) :: col_entries s /\
    row_entries s' ≡ₚ (iRow, iCol) :: row_entries s.
Proof.
  intros Hag Hv Hcs Hcc Hci Hcf Hrs Hrc Hri Hrf.
  pose proof (kernel_agree_consistent s Hag) as Hcons.
  destruct Hag as (Hc & Hr & Hcd & Hrd & Hperm).
  destruct (proj2 (proj1 Hc) _ _ _ Hcs Hcc) as (Hcs0 & Hcc0 & _).
  destruct (proj2 Hr _ _ _ Hrs Hrc) as (Hrs0 & Hrc0 & _).
  assert (Hrun : insertPair kHighsTiny s iCol iRow v
                 = Ok (row_inserted (col_inserted s iCol iRow (cs + cc) cc v)
                         iCol iRow (rs + rc) rc) 9).
  { apply insertPair_Ok; try assumption; try lia.
    destruct Hc as [_ Hlen]. rewrite Hlen. lia. }
  destruct (insertPair_counts _ _ _ _ _ _ _ Hrun Hcons)
    as ((Hc' & Hr' & _) & _ & _).
  assert (Hce : col_entries
                  (row_inserted (col_inserted s iCol iRow (cs + cc) cc v)
                     iCol iRow (rs + rc) rc)
                ≡ₚ (iRow, iCol) :: col_entries s)
    by (apply (col_inserted_entries s iCol iRow cs cc v); assumption).
  assert (Hre : row_entries
                  (row_inserted (col_inserted s iCol iRow (cs + cc) cc v)
                     iCol iRow (rs + rc) rc)
                ≡ₚ (iRow, iCol) :: row_entries s)
    by (apply (row_inserted_entries
                 (col_inserted s iCol iRow (cs + cc) cc v) iCol iRow rs rc);
        assumption).
  eexists _, _. split; [exact Hrun|].
  split; [|split; assumption].
  split; [exact Hc'|]. split; [exact Hr'|]. split; [|split].
  - simpl. apply (spans_disjoint_grow _ _ iCol cs cc); assumption.
  - simpl. apply (spans_disjoint_grow _ _ iRow rs rc); assumption.
  - rewrite Hce, Hre, Hperm. reflexivity.
Qed.

(** On explicit vectors the lookups are settled slot by slot. *)
Ltac vat_enum H :=
  let E := fresh "E" in
  apply vat_Some in H as [? H];
  match type of H with
  | _ !! Z.to_nat ?j = _ =>
      destruct (Z.to_nat j) as [|[|[|[|?]]]] eqn:E; simpl in H;
      try discriminate H; inversion H; subst; clear H
  end.

Lemma kernel3_agree : kernel_agree kernel3.
Proof.
  destruct kernel3_consistent as (Hc & Hr & _).
  split; [exact Hc|]. split; [exact Hr|]. split; [|split].
  - intros j j' sj cj sj' cj' p Hne Hsj Hcj Hsj' Hcj' Hp.
    simpl in *. vat_enum Hsj; vat_enum Hcj; vat_enum Hsj'; vat_enum Hcj'; lia.
  - intros j j' sj cj sj' cj' p Hne Hsj Hcj Hsj' Hcj' Hp.
    simpl in *. vat_enum Hsj; vat_enum Hcj; vat_enum Hsj'; vat_enum Hcj'; lia.
  - change ([(0, 0); (1, 0); (2, 0); (0, 1); (1, 1); (2, 2)]
            ≡ₚ [(0, 0); (0, 1); (1, 0); (1, 1); (2, 0); (2, 2)]).
    apply Permutation_cons; [reflexivity|].
    etransitivity; [apply Permutation_cons; [reflexivity|]; apply perm_swap|].
    etransitivity; [apply perm_swap|].
    apply Permutation_cons; [reflexivity|].
    apply Permutation_cons; [reflexivity|].
    etransitivity; [apply perm_swap|]. reflexivity.
Qed.

(** In [kernel3] the slot behind column 1 (slot 7) and the slot behind row 2
    (slot 10) are free; putting 0.25 at (2, 1) adds (2, 1) to both views. *)
Lemma insertPair_views_agree_witness :
  exists s' n,
    insertPair tiny14 kernel3 1 2 0.25%float = Ok s' n /\
    kernel_agree s' /\
    col_entries s' ≡ₚ (2, 1) :: col_entries kernel3 /\
    row_entries s' ≡ₚ (2, 1) :: row_entries kernel3.
Proof.
  apply (insertPair_views_agree tiny14 kernel3 1 2 0.25%float 5 2 8 2).
  - exact kernel3_agree.
  - reflexivity.
  - reflexivity.
  - reflexivity.
  - simpl. lia.
  - intros j sj cj Hne Hsj Hcj. simpl in *. vat_enum Hsj; vat_enum Hcj; lia.
  - reflexivity.
  - reflexivity.
  - simpl. lia.
  - intros j sj cj Hne Hsj Hcj. simpl in *. vat_enum Hsj; vat_enum Hcj; lia.
Defined.

(** X4.  A matched deletion keeps the two views in agreement.  When the
    column view and the row view of the kernel hold the same entries, their
    spans are apart, and both views hold [(iRow, iCol)], then
    [colDelete(iCol, iRow)] followed by [rowDelete(iCol, iRow)] returns,
    takes exactly one entry [(iRow, iCol)] out of each view, and leaves the
    views in agreement. *)
Theorem deletePair_views_agree s iCol iRow :
  kernel_agree s -> col_has s iCol iRow -> row_has s iCol iRow ->
  exists v s' n,
    deletePair s iCol iRow = Ok (v, s') n /\
    kernel_agree s' /\
    (iRow, iCol) :: col_entries s' ≡ₚ col_entries s /\
    (iRow, iCol) :: row_entries s' ≡ₚ row_entries s.
Proof.
  intros Hag Hch Hrh.
  pose proof (kernel_agree_consistent s Hag) as Hcons.
  destruct Hag as (Hc & Hr & Hcd & Hrd & Hperm).
  destruct (deletePair_counts s iCol iRow Hcons Hch Hrh)
    as (v & s' & n & Hrun & (Hc' & Hr' & _) & _ & _).
  destruct Hch as (cs & cc & kc & Hcs & Hcc & Hkc & Hatc).
  destruct Hrh as (rs & rc & kr & Hrs & Hrc & Hkr & Hatr).
  destruct (cols_wf_span s iCol cs cc Hc Hcs Hcc) as [Hcspan _].
  destruct (colDelete_present s iCol iRow cs cc kc Hcspan Hkc Hatc)
    as (cd & pm & cmi & cmv & n1 & Hcd1 & Hcdat & _ & _ & Hcmi & _ & E1).
  set (s1 := col_deleted s iCol cd cc cmi cmv) in *.
  assert (Hr1 : rows_wf s1) by exact Hr.
  destruct (rows_wf_span s1 iRow rs rc Hr1 Hrs Hrc) as [Hrspan _].
  destruct (rowDelete_present s1 iCol iRow rs rc kr Hrspan Hkr Hatr)
    as (rd & rmi & n2 & Hrd1 & Hrdat & _ & Hrmi & E2).
  assert (Hs' : s' = row_deleted s1 iRow rd rc rmi).
  { unfold deletePair in Hrun. rewrite E1 in Hrun. simpl in Hrun.
    rewrite E2 in Hrun. simpl in Hrun. congruence. }
  subst s'.
  assert (Hce : (iRow, iCol) :: col_entries (row_deleted s1 iRow rd rc rmi)
                ≡ₚ col_entries s)
    by (apply (col_deleted_entries s iCol iRow cs cc cd cmi cmv);
        try assumption; lia).
  assert (Hre : (iRow, iCol) :: row_entries (row_deleted s1 iRow rd rc rmi)
                ≡ₚ row_entries s)
    by (apply (row_deleted_view s1 iCol iRow rs rc rd rmi);
        try assumption; lia).
  exists v, (row_deleted s1 iRow rd rc rmi), n.
  split; [exact Hrun|]. split; [|split; assumption].
  split; [exact Hc'|]. split; [exact Hr'|]. split; [|split].
  - simpl. apply (spans_disjoint_shrink _ _ iCol cc); [assumption..|lia].
  - simpl. apply (spans_disjoint_shrink _ _ iRow rc); [assumption..|lia].
  - apply (Permutation_cons_inv (a := (iRow, iCol))).
    rewrite Hce, Hre. exact Hperm.
Qed.

(** Taking (0, 0) out of [kernel3]. *)
Lemma deletePair_views_agree_witness :
  exists v s' n,
    deletePair kernel3 0 0 = Ok (v, s') n /\
    kernel_agree s' /\
    (0, 0) :: col_entries s' ≡ₚ col_entries kernel3 /\
    (0, 0) :: row_entries s' ≡ₚ row_entries kernel3.
Proof.
  apply (deletePair_views_agree kernel3 0 0).
  - exact kernel3_agree.
  - exists 0, 3, 0. repeat split; simpl; lia.
  - exists 0, 2, 0. repeat split; simpl; lia.
Defined.

(** ** [colStoreN] *)

Section SpanFront.
Local Open Scope nat_scope.

Lemma span_insert_front {A} (l : list A) (p c : nat) (x : A) :
  p < length l ->
  take (S c) (drop p (<[p := x]> l)) = x :: take c (drop (S p) l).
Proof.
  intros Hp. destruct (lookup_lt_is_Some_2 l p Hp) as [y Hy].
  rewrite drop_insert_ge by lia. rewrite Nat.sub_diag.
  rewrite (drop_S _ _ _ Hy). reflexivity.
Qed.

End SpanFront.

Lemma colStoreN_Ok s iCol iRow value start space count :
  vat (mc_start (mc s)) iCol = Some start ->
  vat (mc_space (mc s)) iCol = Some space ->
  vat (mc_count_n (mc s)) iCol = Some count ->
  0 <= start + space - (count + 1) < Z.of_nat (length (mc_index (mc s))) ->
  start + space - (count + 1) < Z.of_nat (length (mc_value (mc s))) ->
  colStoreN s iCol iRow value
  = Ok (col_stored s iCol iRow (start + space - (count + 1)) count value) 6.
Proof.
  intros Hstart Hspace Hcount Hi Hv. unfold colStoreN.
  repeat mstep. reflexivity.
Qed.

Lemma col_pairs_stored s iCol iRow p cn v start count :
  0 <= start -> 0 <= p -> ~ (start <= p < start + count) ->
  col_pairs (col_stored s iCol iRow p cn v) start count
  = col_pairs s start count.
Proof.
  intros H0 Hp Hout. unfold col_pairs, span_entries, live_values. simpl.
  now rewrite !zspan_vupd_outside by assumption.
Qed.

Lemma col_room_span s iCol start space count_a count_n :
  col_room s iCol start space count_a count_n ->
  col_span s iCol start count_a.
Proof.
  intros (Hs & _ & Ha & _ & H0 & Ha0 & Hn0 & Hle & Hlen & Hv).
  unfold col_span. rewrite Hv. repeat split; try assumption; lia.
Qed.

(** X5.  [colStoreN] parks an entry at the top of the column's room.  On a
    column whose live and parked entries leave a slot of its room unused,
    [colStoreN(iCol, iRow, v)] returns after writing [(iRow, v)] in slot
    [start + space - (count_n + 1)]: the parked entries, read from that slot
    up, are [(iRow, v)] followed by the entries parked before, and
    [mc_count_n[iCol]] is one more.  The live entries of the column and
    everything outside the column's room are as before. *)
Theorem colStoreN_parks (s : HFactor) (iCol iRow : Z) (v : float)
    (start space count_a count_n : Z) :
  col_room s iCol start space count_a count_n ->
  count_a + count_n < space ->
  let iput := start + space - (count_n + 1) in
  let s' := col_stored s iCol iRow iput count_n v in
  (exists n, colStoreN s iCol iRow v = Ok s' n) /\
  col_room s' iCol start space count_a (count_n + 1) /\
  col_pairs s' iput (count_n + 1)
  = (iRow, v) :: col_pairs s (iput + 1) count_n /\
  col_pairs s' start count_a = col_pairs s start count_a /\
  (forall start' count',
     0 <= start' ->
     start' + count' <= start \/ start + space <= start' ->
     col_pairs s' start' count' = col_pairs s start' count').
Proof.
  intros (Hs & Hsp & Ha & Hn & H0 & Ha0 & Hn0 & Hle & Hlen & Hv) Hlt iput s'.
  assert (Hiput : 0 <= iput < Z.of_nat (length (mc_index (mc s))))
    by (unfold iput; lia).
  split; [|split; [|split; [|split]]].
  - exists 6%nat. apply colStoreN_Ok; try assumption. rewrite Hv. apply Hiput.
  - unfold col_room, s'. simpl. rewrite !vupd_length.
    rewrite vat_vupd_eq by (eapply vat_lt; eassumption).
    repeat split; try assumption; lia.
  - unfold col_pairs, span_entries, live_values, s'. simpl. unfold vupd.
    replace (Z.to_nat (count_n + 1)) with (S (Z.to_nat count_n)) by lia.
    replace (Z.to_nat (iput + 1)) with (S (Z.to_nat iput)) by lia.
    rewrite !span_insert_front by lia. reflexivity.
  - apply col_pairs_stored; [assumption | lia | unfold iput; lia].
  - intros start' count' H0' Hout.
    apply col_pairs_stored; [assumption | lia | unfold iput; lia].
Qed.

(** Column 0 of [kernel3] has room for five entries and three live ones:
    the first entry parked goes to slot 4. *)
Lemma colStoreN_parks_witness :
  (exists n, colStoreN kernel3 0 1 0.25%float
             = Ok (col_stored kernel3 0 1 4 0 0.25%float) n) /\
  col_room (col_stored kernel3 0 1 4 0 0.25%float) 0 0 5 3 1 /\
  col_pairs (col_stored kernel3 0 1 4 0 0.25%float) 4 1
  = [(1, 0.25%float)] /\
  col_pairs (col_stored kernel3 0 1 4 0 0.25%float) 0 3
  = col_pairs kernel3 0 3.
Proof.
  assert (Hroom : col_room kernel3 0 0 5 3 0).
  { unfold col_room. simpl. repeat split; try reflexivity; lia. }
  destruct (colStoreN_parks kernel3 0 1 0.25%float 0 5 3 0 Hroom ltac:(lia))
    as (Hrun & Hroom' & Hparked & Hlive & _).
  split; [exact Hrun|]. split; [exact Hroom'|]. split; [exact Hparked|].
  exact Hlive.
Defined.

(** ** A column with no room left *)

Lemma zip_snoc {A B} (l : list A) (k : list B) x y :
  length l = length k -> zip (l ++ [x]) (k ++ [y]) = zip l k ++ [(x, y)].
Proof. intros Hlen. now rewrite zip_with_app. Qed.

(** X6.  Neither [colInsert] nor [colStoreN] reads [mc_space] to see
    whether the column has room.  On a column whose live and parked entries
    fill its room, both still return: [colInsert] leaves [(iRow, v)] where
    the most recently parked entry was, and [colStoreN] leaves [(iRow, v)]
    where the last live entry was. *)
Theorem full_column_overwrites (kHighsTiny : float) (s : HFactor)
    (iCol iRow : Z) (v : float) (start space count_a count_n : Z) :
  col_room s iCol start space count_a count_n ->
  count_a + count_n = space ->
  (abs v <? kHighsTiny)%float = false ->
  (0 < count_n ->
   exists s1 n,
     colInsert kHighsTiny s iCol iRow v = Ok s1 n /\
     vat (mc_count_n (mc s1)) iCol = Some count_n /\
     head (col_pairs s1 (start + space - count_n) count_n) = Some (iRow, v)) /\
  (0 < count_a ->
   exists s1 n,
     colStoreN s iCol iRow v = Ok s1 n /\
     vat (mc_count_a (mc s1)) iCol = Some count_a /\
     last (col_pairs s1 start count_a) = Some (iRow, v)).
Proof.
  intros (Hs & Hsp & Ha & Hn & H0 & Ha0 & Hn0 & Hle & Hlen & Hv) Hfull Htiny.
  split.
  - intros Hpos. eexists _, _. split.
    + apply (colInsert_Ok _ _ _ _ _ start count_a); try assumption; lia.
    + split; [exact Hn|].
      replace (start + space - count_n) with (start + count_a) by lia.
      unfold col_pairs, span_entries, live_values. simpl. unfold vupd.
      replace (Z.to_nat count_n) with (S (Z.to_nat (count_n - 1))) by lia.
      rewrite !span_insert_front by lia. reflexivity.
  - intros Hpos. eexists _, _. split.
    + apply (colStoreN_Ok _ _ _ _ start space count_n); try assumption; lia.
    + split; [exact Ha|].
      replace (start + space - (count_n + 1)) with (start + count_a - 1) by lia.
      unfold col_pairs, span_entries, live_values. simpl. unfold vupd.
      replace (Z.to_nat count_a) with (S (Z.to_nat (count_a - 1))) by lia.
      replace (Z.to_nat (start + count_a - 1))
        with (Z.to_nat start + Z.to_nat (count_a - 1))%nat by lia.
      rewrite !span_insert_end by lia.
      rewrite zip_snoc by (rewrite !length_take, !length_drop; lia).
      apply last_snoc.
Qed.

(** Column 0 of [kernel3_full] is full: slots 0 to 2 are live, slots 3 and
    4 are parked. *)
Lemma full_column_overwrites_witness :
  (exists s1 n,
     colInsert tiny14 kernel3_full 0 1 0.25%float = Ok s1 n /\
     vat (mc_count_n (mc s1)) 0 = Some 2 /\
     head (col_pairs s1 3 2) = Some (1, 0.25%float)) /\
  (exists s1 n,
     colStoreN kernel3_full 0 1 0.25%float = Ok s1 n /\
     vat (mc_count_a (mc s1)) 0 = Some 3 /\
     last (col_pairs s1 0 3) = Some (1, 0.25%float)).
Proof.
  assert (Hroom : col_room kernel3_full 0 0 5 3 2).
  { unfold col_room. simpl. repeat split; try reflexivity; lia. }
  destruct (full_column_overwrites tiny14 kernel3_full 0 1 0.25%float 0 5 3 2
              Hroom eq_refl eq_refl) as [HA HB].
  split; [apply HA; lia | apply HB; lia].
Defined.

(** ** [colFixMax] after a change of the column *)

Lemma abs_max_from_snoc m0 vs v :
  abs_max_from m0 (vs ++ [v]) = fmax (abs_max_from m0 vs) (abs v).
Proof. unfold abs_max_from. now rewrite fold_left_app. Qed.

(** X7.  Parking an entry does not move the pivot threshold of the column,
    and the two calls commute: on a column with an unused slot in its room,
    [colStoreN(iCol, iRow, v)] then [colFixMax(iCol)] and [colFixMax(iCol)]
    then [colStoreN(iCol, iRow, v)] return the same engine, whose
    [mc_min_pivot[iCol]] is what [colFixMax(iCol)] alone stores. *)
Theorem colStoreN_colFixMax_commute (s : HFactor) (iCol iRow : Z) (v : float)
    (start space count_a count_n : Z) :
  col_room s iCol start space count_a count_n ->
  count_a + count_n < space ->
  is_Some (vat (mc_min_pivot (mc s)) iCol) ->
  exists min_pivot s0 s' n0 n1 n2,
    colFixMax s iCol = Ok s0 n0 /\
    vat (mc_min_pivot (mc s0)) iCol = Some min_pivot /\
    (s1 ← colStoreN s iCol iRow v; colFixMax s1 iCol) = Ok s' n1 /\
    (s1 ← colFixMax s iCol; colStoreN s1 iCol iRow v) = Ok s' n2 /\
    vat (mc_min_pivot (mc s')) iCol = Some min_pivot.
Proof.
  intros Hroom Hlt Hmp.
  pose proof (col_room_span _ _ _ _ _ _ Hroom) as Hspan.
  destruct Hroom as (Hs & Hsp & Ha & Hn & H0 & Ha0 & Hn0 & Hle & Hlen & Hv).
  set (iput := start + space - (count_n + 1)).
  assert (Hrun : colStoreN s iCol iRow v
                 = Ok (col_stored s iCol iRow iput count_n v) 6)
    by (apply colStoreN_Ok; try assumption; unfold iput; lia).
  assert (Hspan' : col_span (col_stored s iCol iRow iput count_n v)
                     iCol start count_a).
  { unfold col_span. simpl. rewrite !vupd_length. exact Hspan. }
  set (m := abs_max_from 0 (live_values s start count_a)).
  assert (Hlv : live_values (col_stored s iCol iRow iput count_n v)
                  start count_a = live_values s start count_a).
  { unfold live_values. simpl. apply zspan_vupd_outside; unfold iput; lia. }
  exists (m * pivot_threshold s)%float,
    (col_fixed s iCol (m * pivot_threshold s)),
    (col_fixed (col_stored s iCol iRow iput count_n v) iCol
       (m * pivot_threshold s)).
  eexists _, _, _. split; [|split; [|split; [|split]]].
  - apply (colFixMax_Ok s iCol start count_a Hspan Hmp).
  - simpl. apply vat_vupd_eq. now apply vat_range.
  - rewrite Hrun. simpl.
    rewrite (colFixMax_Ok _ iCol start count_a Hspan' Hmp).
    rewrite Hlv. reflexivity.
  - rewrite (colFixMax_Ok s iCol start count_a Hspan Hmp). simpl.
    rewrite (colStoreN_Ok _ iCol iRow v start space count_n);
      try assumption; try (simpl; unfold iput in *; lia).
    reflexivity.
  - simpl. apply vat_vupd_eq. now apply vat_range.
Qed.

Lemma colStoreN_colFixMax_commute_witness :
  exists min_pivot s0 s' n0 n1 n2,
    colFixMax kernel3 0 = Ok s0 n0 /\
    vat (mc_min_pivot (mc s0)) 0 = Some min_pivot /\
    (s1 ← colStoreN kernel3 0 1 0.25%float; colFixMax s1 0) = Ok s' n1 /\
    (s1 ← colFixMax kernel3 0; colStoreN s1 0 1 0.25%float) = Ok s' n2 /\
    vat (mc_min_pivot (mc s')) 0 = Some min_pivot.
Proof.
  apply (colStoreN_colFixMax_commute kernel3 0 1 0.25%float 0 5 3 0).
  - unfold col_room. simpl. repeat split; try reflexivity; lia.
  - lia.
  - now exists 2%float.
Defined.

(** X8.  The pivot threshold follows an insertion incrementally.  If
    [colFixMax(iCol)] finds the maximum magnitude [m] in a column, then
    after [colInsert(iCol, iRow, v)] into a free slot it finds
    [max(m, |v|)], and stores [max(m, |v|) * pivot_threshold]. *)
Theorem colInsert_colFixMax (kHighsTiny : float) (s : HFactor)
    (iCol iRow : Z) (v : float) (start count : Z) :
  col_span s iCol start count -> 0 <= count ->
  start + count < Z.of_nat (length (mc_index (mc s))) ->
  start + count < Z.of_nat (length (mc_value (mc s))) ->
  (abs v <? kHighsTiny)%float = false ->
  is_Some (vat (mc_min_pivot (mc s)) iCol) ->
  exists m n n',
    colFixMax s iCol = Ok (col_fixed s iCol (m * pivot_threshold s)) n /\
    (s1 ← colInsert kHighsTiny s iCol iRow v; colFixMax s1 iCol)
    = Ok (col_fixed (col_inserted s iCol iRow (start + count) count v) iCol
            (fmax m (abs v) * pivot_threshold s)) n'.
Proof.
  intros Hspan Hc0 Hli Hlv Htiny Hmp.
  pose proof Hspan as (Hs & Hc & H0 & _ & _).
  exists (abs_max_from 0 (live_values s start count)).
  eexists _, _. split; [apply (colFixMax_Ok s iCol start count Hspan Hmp)|].
  rewrite (colInsert_Ok _ _ _ _ _ start count) by (try assumption; lia).
  simpl.
  assert (Hspan' : col_span (col_inserted s iCol iRow (start + count) count v)
                     iCol start (count + 1)).
  { unfold col_span. simpl. rewrite !vupd_length.
    rewrite vat_vupd_eq by (eapply vat_lt; eassumption).
    repeat split; try assumption; lia. }
  rewrite (colFixMax_Ok _ iCol start (count + 1) Hspan' Hmp).
  assert (Hnew : live_values (col_inserted s iCol iRow (start + count) count v)
                   start (count + 1)
                 = live_values s start count ++ [v]).
  { unfold live_values. simpl. unfold vupd.
    replace (Z.to_nat (count + 1)) with (S (Z.to_nat count)) by lia.
    replace (Z.to_nat (start + count))
      with (Z.to_nat start + Z.to_nat count)%nat by lia.
    apply span_insert_end. lia. }
  rewrite Hnew, abs_max_from_snoc. reflexivity.
Qed.

(** Column 1 of [kernel3] holds 1 and 3; after 4 is put in, the maximum is
    4 and the threshold 4 * 0.5. *)
Lemma colInsert_colFixMax_witness :
  exists m n n',
    colFixMax kernel3 1 = Ok (col_fixed kernel3 1 (m * 0.5)) n /\
    (s1 ← colInsert tiny14 kernel3 1 2 4%float; colFixMax s1 1)
    = Ok (col_fixed (col_inserted kernel3 1 2 7 2 4%float) 1
            (fmax m (abs 4) * 0.5)) n'.
Proof.
  apply (colInsert_colFixMax tiny14 kernel3 1 2 4%float 5 2).
  - unfold col_span. simpl. repeat split; try reflexivity; lia.
  - lia.
  - simpl. lia.
  - simpl. lia.
  - reflexivity.
  - now exists 1.5%float.
Defined.

(** ** The maximum that [colFixMax] finds

    [std::max(max_value, fabs(x))] returns its first argument unless it is
    less than the second, so a NaN among the values is passed over, and the
    running maximum, which starts at 0, is never negative and never NaN. *)

Module F64Max.

Ltac by_cases :=
  rewrite ?FloatAxioms.leb_spec, ?FloatAxioms.ltb_spec, ?FloatAxioms.eqb_spec,
    ?FloatAxioms.abs_spec;
  unfold SFleb, SFltb, SFeqb;
  change (Prim2SF 0) with (S754_zero false);
  repeat match goal with
  | |- context [Prim2SF ?x] =>
      let s := fresh "s" in
      destruct (Prim2SF x) as [s|s| |s ? ?]; try destruct s
  end;
  simpl; try discriminate; try reflexivity; F64.cmp_cases.

(** Only a double that is not NaN is at least 0. *)
Lemma leb_zero_eqb (m : float) :
  (0 <=? m)%float = true -> (m =? m)%float = true.
Proof. by_cases. Qed.

Lemma abs_eqb (x : float) :
  (x =? x)%float = true -> (0 <=? abs x)%float = true.
Proof. by_cases. Qed.

Lemma leb_zero_abs (x : float) :
  (0 <=? abs x)%float = true -> (x =? x)%float = true.
Proof. by_cases. Qed.

(** Two doubles that are not NaN are comparable. *)
Lemma ltb_false_leb (m x : float) :
  (m <? x)%float = false -> (m =? m)%float = true -> (x =? x)%float = true ->
  (x <=? m)%float = true.
Proof. by_cases. Qed.

Lemma leb_ltb_trans (x y z : float) :
  (x <=? y)%float = true -> (y <? z)%float = true -> (x <=? z)%float = true.
Proof. by_cases. Qed.

(** Magnitudes that are at most each other are the same double. *)
Lemma abs_leb_antisym (x y : float) :
  (abs x <=? abs y)%float = true -> (abs y <=? abs x)%float = true ->
  abs x = abs y.
Proof.
  intros H1 H2. apply FloatAxioms.Prim2SF_inj. revert H1 H2. by_cases.
Qed.

Lemma fmax_nonneg (a b : float) :
  (0 <=? a)%float = true -> (0 <=? fmax a b)%float = true.
Proof.
  intros Ha. unfold fmax. destruct (a <? b)%float eqn:E; [|exact Ha].
  exact (leb_ltb_trans _ _ _ Ha E).
Qed.

End F64Max.

Lemma abs_max_from_nonneg vs m0 :
  (0 <=? m0)%float = true -> (0 <=? abs_max_from m0 vs)%float = true.
Proof.
  revert m0. induction vs as [|w vs IH]; intros m0 H0; [exact H0|].
  simpl. apply IH. now apply F64Max.fmax_nonneg.
Qed.

(** Every value that is not NaN is at most the maximum found. *)
Lemma abs_max_from_bounds vs v :
  v ∈ vs -> (v =? v)%float = true ->
  (abs v <=? abs_max_from 0 vs)%float = true.
Proof.
  intros Hin Hv. apply F64Max.ltb_false_leb.
  - now apply abs_max_from_upper.
  - apply F64Max.leb_zero_eqb. now apply abs_max_from_nonneg.
  - apply F64Max.leb_zero_eqb. now apply F64Max.abs_eqb.
Qed.

(** The maximum found is the magnitude of 0 or of one of the values. *)
Lemma abs_max_from_source vs :
  exists w, (w = 0%float \/ w ∈ vs) /\ abs_max_from 0 vs = abs w.
Proof.
  destruct (abs_max_from_attained vs 0) as [E|(v & Hv & E)].
  - exists 0%float. split; [now left | exact E].
  - exists v. split; [now right | exact E].
Qed.

(** The maximum found does not depend on the order of the values. *)
Lemma abs_max_from_perm vs vs' :
  vs ≡ₚ vs' -> abs_max_from 0 vs = abs_max_from 0 vs'.
Proof.
  assert (Hle : forall us us', us ≡ₚ us' ->
            (abs_max_from 0 us <=? abs_max_from 0 us')%float = true).
  { intros us us' Hp.
    destruct (abs_max_from_source us) as (w & Hw & E).
    pose proof (abs_max_from_nonneg us 0 eq_refl) as Hn. rewrite E in *.
    destruct Hw as [->|Hw].
    - now apply abs_max_from_nonneg.
    - apply abs_max_from_bounds; [now rewrite <- Hp|].
      now apply F64Max.leb_zero_abs. }
  intros Hp.
  destruct (abs_max_from_source vs) as (w & _ & E).
  destruct (abs_max_from_source vs') as (w' & _ & E').
  pose proof (Hle vs vs' Hp) as H1.
  pose proof (Hle vs' vs (symmetry Hp)) as H2.
  rewrite E, E' in *. now apply F64Max.abs_leb_antisym.
Qed.

(** X9.  The maximum that [colFixMax] multiplies by the threshold is never
    NaN and never negative, whatever the column holds: it is at least 0, at
    least the magnitude of every live value that is not NaN, and it is 0
    when every live value is NaN. *)
Theorem colFixMax_max_not_nan (s : HFactor) (iCol start count : Z) :
  col_span s iCol start count ->
  is_Some (vat (mc_min_pivot (mc s)) iCol) ->
  exists max_value n,
    colFixMax s iCol = Ok (col_fixed s iCol (max_value * pivot_threshold s)) n /\
    (0 <=? max_value)%float = true /\
    (max_value =? max_value)%float = true /\
    (forall v, v ∈ live_values s start count -> (v =? v)%float = true ->
               (abs v <=? max_value)%float = true) /\
    ((forall v, v ∈ live_values s start count -> (v =? v)%float = false) ->
     max_value = 0%float).
Proof.
  intros Hspan Hmp.
  exists (abs_max_from 0 (live_values s start count)). eexists.
  split; [apply (colFixMax_Ok s iCol start count Hspan Hmp)|].
  pose proof (abs_max_from_nonneg (live_values s start count) 0 eq_refl) as Hn.
  split; [exact Hn|]. split; [now apply F64Max.leb_zero_eqb|].
  split; [intros v; apply abs_max_from_bounds|].
  intros Hnan.
  destruct (abs_max_from_attained (live_values s start count) 0)
    as [E|(v & Hv & E)]; [exact E|].
  rewrite E in Hn. apply F64Max.leb_zero_abs in Hn.
  rewrite (Hnan v Hv) in Hn. discriminate.
Qed.

Lemma colFixMax_max_not_nan_witness :
  exists max_value n,
    colFixMax kernel3 0 = Ok (col_fixed kernel3 0 (max_value * 0.5)) n /\
    (0 <=? max_value)%float = true /\
    (max_value =? max_value)%float = true /\
    (forall v, v ∈ live_values kernel3 0 3 -> (v =? v)%float = true ->
               (abs v <=? max_value)%float = true) /\
    ((forall v, v ∈ live_values kernel3 0 3 -> (v =? v)%float = false) ->
     max_value = 0%float).
Proof.
  apply (colFixMax_max_not_nan kernel3 0 0 3).
  - unfold col_span. simpl. repeat split; try reflexivity; lia.
  - now exists 2%float.
Defined.

(** X10.  The pivot threshold of a column does not depend on the order in
    which the column stores its entries: two columns under the same
    [pivot_threshold] whose live values are the same up to order get the
    same [mc_min_pivot] from [colFixMax]. *)
Theorem colFixMax_order_independent (s s' : HFactor)
    (iCol start count iCol' start' count' : Z) :
  col_span s iCol start count ->
  col_span s' iCol' start' count' ->
  is_Some (vat (mc_min_pivot (mc s)) iCol) ->
  is_Some (vat (mc_min_pivot (mc s')) iCol') ->
  pivot_threshold s' = pivot_threshold s ->
  live_values s start count ≡ₚ live_values s' start' count' ->
  exists min_pivot n n',
    colFixMax s iCol = Ok (col_fixed s iCol min_pivot) n /\
    colFixMax s' iCol' = Ok (col_fixed s' iCol' min_pivot) n'.
Proof.
  intros Hspan Hspan' Hmp Hmp' Htau Hperm.
  eexists _, _, _. split.
  - apply (colFixMax_Ok s iCol start count Hspan Hmp).
  - rewrite (colFixMax_Ok s' iCol' start' count' Hspan' Hmp').
    now rewrite Htau, (abs_max_from_perm _ _ Hperm).
Qed.

(** Column 1 of [kernel3] holds 1 and 3; written the other way round it
    gets the same threshold. *)
Lemma colFixMax_order_independent_witness :
  exists min_pivot n n',
    colFixMax kernel3 1 = Ok (col_fixed kernel3 1 min_pivot) n /\
    colFixMax (col_slot_written (col_slot_written kernel3 5 1 3) 6 0 1) 1
    = Ok (col_fixed (col_slot_written (col_slot_written kernel3 5 1 3) 6 0 1)
            1 min_pivot) n'.
Proof.
  apply (colFixMax_order_independent kernel3
           (col_slot_written (col_slot_written kernel3 5 1 3) 6 0 1)
           1 5 2 1 5 2).
  - unfold col_span. simpl. repeat split; try reflexivity; lia.
  - unfold col_span. simpl. repeat split; try reflexivity; lia.
  - now exists 1.5%float.
  - now exists 1.5%float.
  - reflexivity.
  - apply perm_swap.
Defined.

Lemma col_deleted_values s iCol idel start count pm mi mv :
  0 <= start -> start <= idel < start + count ->
  start + count <= Z.of_nat (length (mc_value (mc s))) ->
  vat (mc_value (mc s)) idel = Some pm ->
  vat (mc_value (mc s)) (start + count - 1) = Some mv ->
  pm :: live_values (col_deleted s iCol idel count mi mv) start (count - 1)
  ≡ₚ live_values s start count.
Proof.
  intros H0 Hd Hlv Hpm Hmv. unfold live_values. simpl. unfold vupd.
  apply vat_Some in Hpm as [_ Hpm], Hmv as [_ Hmv].
  replace (Z.to_nat (count - 1)) with (Z.to_nat count - 1)%nat by lia.
  apply span_delete_perm; try assumption; try lia.
  now replace (Z.to_nat start + Z.to_nat count - 1)%nat
    with (Z.to_nat (start + count - 1)) by lia.
Qed.

(** X11.  The maximum of a column before a deletion is the larger of the
    maximum after it and the magnitude of the value deleted: if
    [colDelete(iCol, iRow)] of a live entry returns [pivot_multiplier], and
    [colFixMax(iCol)] finds [m'] in the column that is left, then
    [colFixMax(iCol)] finds [max(m', |pivot_multiplier|)] in the column as it
    was. *)
Theorem colDelete_colFixMax (s : HFactor) (iCol iRow start count k : Z) :
  col_span s iCol start count ->
  start <= k < start + count ->
  vat (mc_index (mc s)) k = Some iRow ->
  is_Some (vat (mc_min_pivot (mc s)) iCol) ->
  exists pivot_multiplier s1 m m' n n0 n1,
    colDelete s iCol iRow = Ok (pivot_multiplier, s1) n /\
    colFixMax s iCol = Ok (col_fixed s iCol (m * pivot_threshold s)) n0 /\
    colFixMax s1 iCol = Ok (col_fixed s1 iCol (m' * pivot_threshold s)) n1 /\
    m = fmax m' (abs pivot_multiplier).
Proof.
  intros Hspan Hk Hat Hmp.
  destruct (colDelete_present s iCol iRow start count k Hspan Hk Hat)
    as (idel & pm & mi & mv & n & Hidel & _ & _ & Hpm & _ & Hmv & Hrun).
  pose proof Hspan as (Hs & Hc & H0 & Hli & Hlv).
  set (s1 := col_deleted s iCol idel count mi mv) in *.
  assert (Hspan1 : col_span s1 iCol start (count - 1)).
  { unfold col_span, s1. simpl. rewrite !vupd_length.
    rewrite vat_vupd_eq by (eapply vat_lt; eassumption).
    repeat split; try assumption; lia. }
  exists pm, s1, (abs_max_from 0 (live_values s start count)),
    (abs_max_from 0 (live_values s1 start (count - 1))).
  eexists _, _, _. split; [exact Hrun|]. split; [|split].
  - apply (colFixMax_Ok s iCol start count Hspan Hmp).
  - apply (colFixMax_Ok s1 iCol start (count - 1) Hspan1 Hmp).
  - rewrite <- abs_max_from_snoc. apply abs_max_from_perm.
    rewrite <- Permutation_cons_append. symmetry.
    apply col_deleted_values; try assumption; lia.
Qed.

(** Taking the entry of row 2 out of column 0 of [kernel3]. *)
Lemma colDelete_colFixMax_witness :
  exists pivot_multiplier s1 m m' n n0 n1,
    colDelete kernel3 0 2 = Ok (pivot_multiplier, s1) n /\
    colFixMax kernel3 0 = Ok (col_fixed kernel3 0 (m * 0.5)) n0 /\
    colFixMax s1 0 = Ok (col_fixed s1 0 (m' * 0.5)) n1 /\
    m = fmax m' (abs pivot_multiplier).
Proof.
  apply (colDelete_colFixMax kernel3 0 2 0 3 2).
  - unfold col_span. simpl. repeat split; try reflexivity; lia.
  - lia.
  - reflexivity.
  - now exists 2%float.
Defined.

(** ** Relinking an index at another count *)

Lemma link_deleted_in_range l xlast xnext i :
  is_Some (vat (link_next l) i) -> is_Some (vat (link_last l) i) ->
  is_Some (vat (link_next (link_deleted l xlast xnext)) i) /\
  is_Some (vat (link_last (link_deleted l xlast xnext)) i).
Proof.
  rewrite !vat_range. unfold link_deleted. simpl.
  destruct (decide (0 <= xlast)), (decide (0 <= xnext));
    rewrite ?vupd_length; auto.
Qed.

Lemma NoDup_middle_out {A} (xs1 xs2 : list A) (i : A) :
  NoDup (xs1 ++ i :: xs2) -> i ∉ xs1 ++ xs2.
Proof.
  intros Hnd Hin. apply NoDup_app in Hnd as (_ & Hx & Hnd').
  apply NoDup_cons in Hnd' as [Hi2 _].
  apply elem_of_app in Hin as [Hin|Hin]; [|contradiction].
  apply (Hx i Hin). left.
Qed.

(** [linkDel] of a linked index and then [linkAdd] of it at another count:
    the index leaves its bucket and heads the other one. *)
Lemma relink_bucket l c xs1 i xs2 c' ys :
  bucket l c (xs1 ++ i :: xs2) -> bucket l c' ys -> c' <> c ->
  exists l' n,
    (l1 ← linkDel l i; linkAdd l1 i c') = Ok l' n /\
    bucket l' c (xs1 ++ xs2) /\
    bucket l' c' (i :: ys) /\
    (forall c'' zs, c'' <> c -> c'' <> c' -> bucket l c'' zs ->
                    bucket l' c'' zs).
Proof.
  intros Hb Hb' Hne.
  assert (Hin : i ∈ xs1 ++ i :: xs2) by (apply elem_of_app; right; left).
  pose proof (bucket_nonneg _ _ _ _ Hb Hin) as Hi0.
  pose proof (NoDup_middle_out _ _ _ (proj1 (proj2 Hb))) as Hout.
  destruct (linkDel_bucket _ _ _ _ _ Hb)
    as (xlast & xnext & n1 & Hl & Hn & Hdel & Hb1).
  pose proof (linkDel_frame _ _ _ _ _ _ _ _ _ Hb Hl Hn Hne Hb') as Hb1'.
  assert (Hiys : i ∉ ys)
    by (apply (buckets_disjoint l c (xs1 ++ i :: xs2) c' ys); auto).
  destruct (link_deleted_in_range l xlast xnext i) as [Hn1 Hl1]; eauto.
  destruct (linkAdd_bucket _ _ _ _ Hb1' Hiys Hn1 Hl1)
    as (mover & n2 & Hm & Hadd & _ & _ & _ & Hb2).
  eexists _, _. split; [rewrite Hdel; simpl; rewrite Hadd; reflexivity|].
  split; [|split; [exact Hb2|]].
  - apply (linkAdd_frame _ c' ys); auto.
  - intros c'' zs Hc Hc' Hz.
    apply (linkAdd_frame _ c' ys); auto.
    + apply (linkDel_frame l c xs1 i xs2); auto.
    + apply (buckets_disjoint l c (xs1 ++ i :: xs2) c'' zs); auto.
Qed.

(** [linkDel] of a linked index and then [linkAdd] of it at the count it
    had: the index moves to the head of its bucket. *)
Lemma relink_front l c xs1 i xs2 :
  bucket l c (xs1 ++ i :: xs2) ->
  exists l' n,
    (l1 ← linkDel l i; linkAdd l1 i c) = Ok l' n /\
    bucket l' c (i :: xs1 ++ xs2) /\
    (forall c'' zs, c'' <> c -> bucket l c'' zs -> bucket l' c'' zs).
Proof.
  intros Hb.
  assert (Hin : i ∈ xs1 ++ i :: xs2) by (apply elem_of_app; right; left).
  pose proof (bucket_nonneg _ _ _ _ Hb Hin) as Hi0.
  pose proof (NoDup_middle_out _ _ _ (proj1 (proj2 Hb))) as Hout.
  destruct (linkDel_bucket _ _ _ _ _ Hb)
    as (xlast & xnext & n1 & Hl & Hn & Hdel & Hb1).
  destruct (link_deleted_in_range l xlast xnext i) as [Hn1 Hl1]; eauto.
  destruct (linkAdd_bucket _ _ _ _ Hb1 Hout Hn1 Hl1)
    as (mover & n2 & Hm & Hadd & _ & _ & _ & Hb2).
  eexists _, _. split; [rewrite Hdel; simpl; rewrite Hadd; reflexivity|].
  split; [exact Hb2|].
  intros c'' zs Hc Hz.
  apply (linkAdd_frame _ c (xs1 ++ xs2)); auto.
  - apply (linkDel_frame l c xs1 i xs2); auto.
  - apply (buckets_disjoint l c (xs1 ++ i :: xs2) c'' zs); auto.
Qed.

Lemma clink_relink_run s i c l' n :
  (l1 ← linkDel (col_link s) i; linkAdd l1 i c) = Ok l' n ->
  exists s' n',
    (s1 ← clinkDel s i; clinkAdd s1 i c) = Ok s' n' /\
    col_link s' = l' /\ row_link s' = row_link s /\
    mc s' = mc s /\ mr s' = mr s.
Proof.
  unfold clinkDel, clinkAdd.
  destruct (linkDel (col_link s) i) as [l1 n1|f] eqn:E; simpl; [|discriminate].
  destruct (linkAdd l1 i c) as [l2 n2|f] eqn:E2; simpl; [|discriminate].
  intros H. inversion H; subst. eexists _, _. split; [reflexivity|]. auto.
Qed.

Lemma rlink_relink_run s i c l' n :
  (l1 ← linkDel (row_link s) i; linkAdd l1 i c) = Ok l' n ->
  exists s' n',
    (s1 ← rlinkDel s i; rlinkAdd s1 i c) = Ok s' n' /\
    row_link s' = l' /\ col_link s' = col_link s /\
    mc s' = mc s /\ mr s' = mr s.
Proof.
  unfold rlinkDel, rlinkAdd.
  destruct (linkDel (row_link s) i) as [l1 n1|f] eqn:E; simpl; [|discriminate].
  destruct (linkAdd l1 i c) as [l2 n2|f] eqn:E2; simpl; [|discriminate].
  intros H. inversion H; subst. eexists _, _. split; [reflexivity|]. auto.
Qed.

(** X12.  Relinking.  [clinkDel(i)] followed by [clinkAdd(i, c')] moves a
    linked column [i] from the bucket of its count [c] to the head of the
    bucket of [c']: bucket [c] keeps its other columns in their order,
    bucket [c'] gets [i] in front of its columns, and every other bucket is
    as it was.  With [c' = c] the column moves to the head of its own
    bucket.  The row lists and the kernel are not touched.  The same holds
    of [rlinkDel] and [rlinkAdd] on the row lists. *)
Theorem relink_moves (s : HFactor) (i c : Z) (xs1 xs2 : list Z) :
  (bucket (col_link s) c (xs1 ++ i :: xs2) ->
   (forall c' ys, c' <> c -> bucket (col_link s) c' ys ->
      exists s' n,
        (s1 ← clinkDel s i; clinkAdd s1 i c') = Ok s' n /\
        bucket (col_link s') c (xs1 ++ xs2) /\
        bucket (col_link s') c' (i :: ys) /\
        (forall c'' zs, c'' <> c -> c'' <> c' ->
           bucket (col_link s) c'' zs -> bucket (col_link s') c'' zs) /\
        row_link s' = row_link s /\ mc s' = mc s /\ mr s' = mr s) /\
   (exists s' n,
      (s1 ← clinkDel s i; clinkAdd s1 i c) = Ok s' n /\
      bucket (col_link s') c (i :: xs1 ++ xs2) /\
      (forall c'' zs, c'' <> c ->
         bucket (col_link s) c'' zs -> bucket (col_link s') c'' zs) /\
      row_link s' = row_link s /\ mc s' = mc s /\ mr s' = mr s)) /\
  (bucket (row_link s) c (xs1 ++ i :: xs2) ->
   (forall c' ys, c' <> c -> bucket (row_link s) c' ys ->
      exists s' n,
        (s1 ← rlinkDel s i; rlinkAdd s1 i c') = Ok s' n /\
        bucket (row_link s') c (xs1 ++ xs2) /\
        bucket (row_link s') c' (i :: ys) /\
        (forall c'' zs, c'' <> c -> c'' <> c' ->
           bucket (row_link s) c'' zs -> bucket (row_link s') c'' zs) /\
        col_link s' = col_link s /\ mc s' = mc s /\ mr s' = mr s) /\
   (exists s' n,
      (s1 ← rlinkDel s i; rlinkAdd s1 i c) = Ok s' n /\
      bucket (row_link s') c (i :: xs1 ++ xs2) /\
      (forall c'' zs, c'' <> c ->
         bucket (row_link s) c'' zs -> bucket (row_link s') c'' zs) /\
      col_link s' = col_link s /\ mc s' = mc s /\ mr s' = mr s)).
Proof.
  split; intros Hb; split.
  - intros c' ys Hne Hb'.
    destruct (relink_bucket _ _ _ _ _ _ _ Hb Hb' Hne)
      as (l' & n & Hrun & H1 & H2 & H3).
    destruct (clink_relink_run _ _ _ _ _ Hrun) as (s' & n' & Hrun' & <- & Hrest).
    exists s', n'. auto.
  - destruct (relink_front _ _ _ _ _ Hb) as (l' & n & Hrun & H1 & H2).
    destruct (clink_relink_run _ _ _ _ _ Hrun) as (s' & n' & Hrun' & <- & Hrest).
    exists s', n'. auto.
  - intros c' ys Hne Hb'.
    destruct (relink_bucket _ _ _ _ _ _ _ Hb Hb' Hne)
      as (l' & n & Hrun & H1 & H2 & H3).
    destruct (rlink_relink_run _ _ _ _ _ Hrun) as (s' & n' & Hrun' & <- & Hrest).
    exists s', n'. auto.
  - destruct (relink_front _ _ _ _ _ Hb) as (l' & n & Hrun & H1 & H2).
    destruct (rlink_relink_run _ _ _ _ _ Hrun) as (s' & n' & Hrun' & <- & Hrest).
    exists s', n'. auto.
Qed.

(** In [kernel3] the rows 2, 1, 0 form the bucket of count 2 and the bucket
    of count 1 is empty: relinking row 1 at count 1 leaves rows 2, 0 in the
    one and row 1 alone in the other; relinking it at count 2 gives the
    bucket 1, 2, 0. *)
Lemma relink_moves_witness :
  (exists s' n,
     (s1 ← rlinkDel kernel3 1; rlinkAdd s1 1 1) = Ok s' n /\
     bucket (row_link s') 2 [2; 0] /\ bucket (row_link s') 1 [1]) /\
  (exists s' n,
     (s1 ← rlinkDel kernel3 1; rlinkAdd s1 1 2) = Ok s' n /\
     bucket (row_link s') 2 [1; 2; 0]).
Proof.
  destruct (relink_moves kernel3 1 2 [2] [0]) as [_ Hrow].
  destruct (Hrow kernel3_row_bucket) as [Hmove Hfront].
  split.
  - destruct (Hmove 1 []) as (s' & n & Hrun & H1 & H2 & _); [lia| |].
    + split; [lia|]. split; [constructor|]. exists (-1).
      split; [reflexivity | simpl; lia].
    + exists s', n. auto.
  - destruct Hfront as (s' & n & Hrun & H1 & _). exists s', n. auto.
Defined.

(** ** Calling a link primitive twice *)

(** [linkDel] does not clear the links of the index it takes out, so a
    second [linkDel] of the same index repeats the same writes. *)
Lemma linkDel_twice l c xs1 i xs2 :
  bucket l c (xs1 ++ i :: xs2) ->
  exists l1 n1 n2,
    linkDel l i = Ok l1 n1 /\ linkDel l1 i = Ok l1 n2 /\
    bucket l1 c (xs1 ++ xs2).
Proof.
  intros Hb.
  assert (Hin : i ∈ xs1 ++ i :: xs2) by (apply elem_of_app; right; left).
  pose proof (bucket_nonneg _ _ _ _ Hb Hin) as Hi0.
  pose proof (NoDup_middle_out _ _ _ (proj1 (proj2 Hb))) as Hout.
  destruct (bucket_links _ _ _ _ _ Hb)
    as (xlast & xnext & Hl & Hn & Hx & Hlp & Hln & Hnp & Hnn).
  destruct (linkDel_bucket _ _ _ _ _ Hb)
    as (xlast' & xnext' & n1 & Hl' & Hn' & Hdel & Hb1).
  assert (xlast' = xlast) by congruence.
  assert (xnext' = xnext) by congruence. subst xlast' xnext'.
  assert (Hli : xlast <> i).
  { intros ->. destruct (Hlp Hi0) as [Hi1 _].
    apply Hout, elem_of_app. now left. }
  assert (Hni : xnext <> i).
  { intros ->. destruct (Hnp Hi0) as [[t ->] _].
    apply Hout, elem_of_app. right. left. }
  destruct Hb as (Hc0 & _ & h & Hf & _).
  exists (link_deleted l xlast xnext), n1. eexists.
  split; [exact Hdel|]. split; [|exact Hb1].
  assert (Hl1 : vat (link_last (link_deleted l xlast xnext)) i = Some xlast).
  { unfold link_deleted. simpl. destruct (decide (0 <= xnext)); [|exact Hl].
    now rewrite vat_vupd_ne. }
  assert (Hn1 : vat (link_next (link_deleted l xlast xnext)) i = Some xnext).
  { unfold link_deleted. simpl. destruct (decide (0 <= xlast)); [|exact Hn].
    now rewrite vat_vupd_ne. }
  rewrite (linkDel_Ok _ i xlast xnext Hl1 Hn1).
  - f_equal. unfold link_deleted. simpl.
    destruct (decide (0 <= xlast)), (decide (0 <= xnext));
      rewrite ?vupd_vupd_eq; reflexivity.
  - intros Hp. destruct (Hlp Hp) as [_ E]. apply vat_range.
    unfold link_deleted. simpl. rewrite decide_True by assumption.
    rewrite vupd_length. apply vat_range. eauto.
  - intros Hneg. destruct (Hln Hneg) as [_ ->].
    replace (- (-2 - c) - 2) with c by lia. apply vat_range.
    unfold link_deleted. simpl. rewrite decide_False by lia.
    rewrite vupd_length. apply vat_range. eauto.
  - intros Hp. destruct (Hnp Hp) as [_ E]. apply vat_range.
    unfold link_deleted. simpl. rewrite (decide_True (P := 0 <= xnext)) by assumption.
    rewrite vupd_length. apply vat_range. eauto.
Qed.

(** [linkAdd] does not look whether the index is linked already: added
    again at the head of its own bucket, the index becomes its own
    successor, and the bucket is no list any more. *)
Lemma linkAdd_twice l c i xs :
  bucket l c (i :: xs) ->
  exists l' n,
    linkAdd l i c = Ok l' n /\
    vat (link_first l') c = Some i /\
    vat (link_next l') i = Some i /\
    vat (link_last l') i = Some i /\
    forall zs, ~ bucket l' c zs.
Proof.
  intros Hb.
  pose proof (bucket_nonneg _ _ _ _ Hb ltac:(left)) as Hi0.
  destruct Hb as (Hc0 & _ & h & Hf & Hc). simpl in Hc.
  destruct Hc as (-> & Hl & nx & Hn & _).
  pose proof (vat_lt _ _ _ Hf) as Rf. pose proof (vat_lt _ _ _ Hl) as Rl.
  pose proof (vat_lt _ _ _ Hn) as Rn.
  assert (Hrun : linkAdd l i c
                 = Ok (link_added l i c i)
                      (if decide (0 <= i) then 5%nat else 4%nat))
    by (apply linkAdd_Ok; eauto).
  assert (Hlast : vat (link_last (link_added l i c i)) i = Some i).
  { unfold link_added. simpl. rewrite decide_True by assumption.
    apply vat_vupd_eq. now rewrite vupd_length. }
  eexists _, _. split; [exact Hrun|].
  split; [apply vat_vupd_eq; assumption|].
  split; [apply vat_vupd_eq; assumption|].
  split; [exact Hlast|].
  intros zs (_ & _ & h' & Hf' & Hc').
  assert (h' = i).
  { simpl in Hf'. rewrite vat_vupd_eq in Hf' by assumption. congruence. }
  subst h'. destruct zs as [|z zs]; cbn [chain] in Hc'; [lia|].
  destruct Hc' as (<- & Hl' & _). rewrite Hlast in Hl'.
  inversion Hl'. lia.
Qed.

(** X13.  The link primitives called twice.  [clinkDel(i)] leaves the links
    of [i] itself as they were, so a second [clinkDel(i)] straight after the
    first changes nothing.  [clinkAdd(i, c)] does not look whether [i] is
    linked: when [i] already heads bucket [c], the call returns with
    [col_link_next[i] = i], and following the links from
    [col_link_first[c]] never reaches the end of a list.  The same holds of
    [rlinkDel] and [rlinkAdd]. *)
Theorem link_twice (s : HFactor) (i c : Z) :
  (forall xs1 xs2, bucket (col_link s) c (xs1 ++ i :: xs2) ->
     exists s1 n1 n2,
       clinkDel s i = Ok s1 n1 /\ clinkDel s1 i = Ok s1 n2 /\
       bucket (col_link s1) c (xs1 ++ xs2)) /\
  (forall xs, bucket (col_link s) c (i :: xs) ->
     exists s1 n,
       clinkAdd s i c = Ok s1 n /\
       vat (col_link_first s1) c = Some i /\
       vat (col_link_next s1) i = Some i /\
       forall zs, ~ bucket (col_link s1) c zs) /\
  (forall xs1 xs2, bucket (row_link s) c (xs1 ++ i :: xs2) ->
     exists s1 n1 n2,
       rlinkDel s i = Ok s1 n1 /\ rlinkDel s1 i = Ok s1 n2 /\
       bucket (row_link s1) c (xs1 ++ xs2)) /\
  (forall xs, bucket (row_link s) c (i :: xs) ->
     exists s1 n,
       rlinkAdd s i c = Ok s1 n /\
       vat (row_link_first s1) c = Some i /\
       vat (row_link_next s1) i = Some i /\
       forall zs, ~ bucket (row_link s1) c zs).
Proof.
  split; [|split; [|split]].
  - intros xs1 xs2 Hb.
    destruct (linkDel_twice _ _ _ _ _ Hb) as (l1 & n1 & n2 & E1 & E2 & Hb1).
    exists (set_col_link s l1). eexists _, _.
    unfold clinkDel. rewrite E1. simpl. rewrite E2. simpl. auto.
  - intros xs Hb.
    destruct (linkAdd_twice _ _ _ _ Hb) as (l' & n & E & Hf & Hn & _ & Hno).
    exists (set_col_link s l'). eexists.
    unfold clinkAdd. rewrite E. simpl. auto.
  - intros xs1 xs2 Hb.
    destruct (linkDel_twice _ _ _ _ _ Hb) as (l1 & n1 & n2 & E1 & E2 & Hb1).
    exists (set_row_link s l1). eexists _, _.
    unfold rlinkDel. rewrite E1. simpl. rewrite E2. simpl. auto.
  - intros xs Hb.
    destruct (linkAdd_twice _ _ _ _ Hb) as (l' & n & E & Hf & Hn & _ & Hno).
    exists (set_row_link s l'). eexists.
    unfold rlinkAdd. rewrite E. simpl. auto.
Qed.

(** In [kernel3] row 1 is linked in the bucket of count 2, which row 2
    heads. *)
Lemma link_twice_witness :
  (exists s1 n1 n2,
     rlinkDel kernel3 1 = Ok s1 n1 /\ rlinkDel s1 1 = Ok s1 n2 /\
     bucket (row_link s1) 2 [2; 0]) /\
  (exists s1 n,
     rlinkAdd kernel3 2 2 = Ok s1 n /\
     vat (row_link_first s1) 2 = Some 2 /\
     vat (row_link_next s1) 2 = Some 2 /\
     forall zs, ~ bucket (row_link s1) 2 zs).
Proof.
  split.
  - destruct (link_twice kernel3 1 2) as (_ & _ & Hdel & _).
    apply (Hdel [2] [0]). exact kernel3_row_bucket.
  - destruct (link_twice kernel3 2 2) as (_ & _ & _ & Hadd).
    apply (Hadd [1; 0]). exact kernel3_row_bucket.
Defined.

(** ** The room of a column under [colInsert] and [colDelete] *)

Lemma col_pairs_inserted_outside s iCol iRow p c v start count :
  0 <= start -> 0 <= p -> ~ (start <= p < start + count) ->
  col_pairs (col_inserted s iCol iRow p c v) start count
  = col_pairs s start count.
Proof.
  intros H0 Hp Hout. unfold col_pairs, span_entries, live_values. simpl.
  now rewrite !zspan_vupd_outside by assumption.
Qed.

Lemma col_pairs_deleted_outside s iCol p c mi mv start count :
  0 <= start -> 0 <= p -> ~ (start <= p < start + count) ->
  col_pairs (col_deleted s iCol p c mi mv) start count
  = col_pairs s start count.
Proof.
  intros H0 Hp Hout. unfold col_pairs, span_entries, live_values. simpl.
  now rewrite !zspan_vupd_outside by assumption.
Qed.

(** X18.  The live entries and the parked entries of a column do not
    disturb each other while the column has room.  [colInsert] into a column
    with an unused slot appends [(iRow, v)] to the live entries, and
    [colDelete] of a live entry takes one out; after either call the column
    still fits its room, and its parked entries and everything outside its
    room are as before. *)
Theorem col_room_kept (kHighsTiny : float) (s : HFactor) (iCol iRow : Z)
    (v : float) (start space count_a count_n : Z) :
  col_room s iCol start space count_a count_n ->
  (count_a + count_n < space ->
   (abs v <? kHighsTiny)%float = false ->
   exists s1 n,
     colInsert kHighsTiny s iCol iRow v = Ok s1 n /\
     col_room s1 iCol start space (count_a + 1) count_n /\
     col_pairs s1 start (count_a + 1) = col_pairs s start count_a ++ [(iRow, v)] /\
     col_pairs s1 (start + space - count_n) count_n
     = col_pairs s (start + space - count_n) count_n /\
     (forall start' count',
        0 <= start' -> start' + count' <= start \/ start + space <= start' ->
        col_pairs s1 start' count' = col_pairs s start' count')) /\
  ((exists k, start <= k < start + count_a /\
              vat (mc_index (mc s)) k = Some iRow) ->
   exists pivot_multiplier s1 n,
     colDelete s iCol iRow = Ok (pivot_multiplier, s1) n /\
     col_room s1 iCol start space (count_a - 1) count_n /\
     col_pairs s1 (start + space - count_n) count_n
     = col_pairs s (start + space - count_n) count_n /\
     (forall start' count',
        0 <= start' -> start' + count' <= start \/ start + space <= start' ->
        col_pairs s1 start' count' = col_pairs s start' count')).
Proof.
  intros Hroom.
  pose proof (col_room_span _ _ _ _ _ _ Hroom) as Hspan.
  destruct Hroom as (Hs & Hsp & Ha & Hn & H0 & Ha0 & Hn0 & Hle & Hlen & Hv).
  split.
  - intros Hlt Htiny. eexists _, _. split.
    { apply (colInsert_Ok _ _ _ _ _ start count_a); try assumption; lia. }
    split; [|split; [|split]].
    + unfold col_room. simpl. rewrite !vupd_length.
      rewrite vat_vupd_eq by (eapply vat_lt; eassumption).
      repeat split; try assumption; lia.
    + unfold col_pairs, span_entries, live_values. simpl. unfold vupd.
      replace (Z.to_nat (count_a + 1)) with (S (Z.to_nat count_a)) by lia.
      replace (Z.to_nat (start + count_a))
        with (Z.to_nat start + Z.to_nat count_a)%nat by lia.
      rewrite !span_insert_end by lia.
      apply zip_snoc. rewrite !length_take, !length_drop. lia.
    + apply col_pairs_inserted_outside; lia.
    + intros start' count' H0' Hout.
      apply col_pairs_inserted_outside; lia.
  - intros (k & Hk & Hat).
    destruct (colDelete_present s iCol iRow start count_a k Hspan Hk Hat)
      as (idel & pm & mi & mv & n & Hidel & _ & _ & _ & _ & _ & Hrun).
    exists pm. eexists _, n. split; [exact Hrun|]. split; [|split].
    + unfold col_room. simpl. rewrite !vupd_length.
      rewrite vat_vupd_eq by (eapply vat_lt; eassumption).
      repeat split; try assumption; lia.
    + apply col_pairs_deleted_outside; lia.
    + intros start' count' H0' Hout.
      apply col_pairs_deleted_outside; lia.
Qed.

(** Column 0 of [kernel3], with room for five entries and three live
    ones. *)
Lemma col_room_kept_witness :
  (exists s1 n,
     colInsert tiny14 kernel3 0 1 0.25%float = Ok s1 n /\
     col_room s1 0 0 5 4 0 /\
     col_pairs s1 0 4 = col_pairs kernel3 0 3 ++ [(1, 0.25%float)]) /\
  (exists pivot_multiplier s1 n,
     colDelete kernel3 0 2 = Ok (pivot_multiplier, s1) n /\
     col_room s1 0 0 5 2 0).
Proof.
  assert (Hroom : col_room kernel3 0 0 5 3 0).
  { unfold col_room. simpl. repeat split; try reflexivity; lia. }
  destruct (col_room_kept tiny14 kernel3 0 2 0.25%float 0 5 3 0 Hroom)
    as [_ Hdel].
  destruct (col_room_kept tiny14 kernel3 0 1 0.25%float 0 5 3 0 Hroom)
    as [Hins _].
  split.
  - destruct Hins as (s1 & n & E & Hr & Hp & _); [lia | reflexivity |].
    exists s1, n. auto.
  - destruct Hdel as (pm & s1 & n & E & Hr & _).
    + exists 2. split; [lia | reflexivity].
    + exists pm, s1, n. auto.
Defined.

(** * HighsInfo: records and constructors *)

Lemma init_step_int {B} (h : Heap) this o name desc adv m v
    (k : Heap -> option B) :
  ('(r, h1) ← new_InfoRecordInt (<[this := o]> h) name desc adv (this, m) v;
   h2 ← push_back h1 this r; k h2)
  = k (<[this := {| base := set_int (base o) m v;
                    records := records o
                                 ++ [InfoRecordInt name desc adv (this, m) v]
                 |}]> h).
Proof.
  unfold new_InfoRecordInt, store_int, push_back. simpl.
  rewrite lookup_insert_eq. simpl. rewrite lookup_insert_eq. simpl.
  now rewrite !insert_insert_eq.
Qed.

Lemma init_step_double {B} (h : Heap) this o name desc adv m v
    (k : Heap -> option B) :
  ('(r, h1) ← new_InfoRecordDouble (<[this := o]> h) name desc adv (this, m) v;
   h2 ← push_back h1 this r; k h2)
  = k (<[this := {| base := set_double (base o) m v;
                    records := records o
                                 ++ [InfoRecordDouble name desc adv (this, m) v]
                 |}]> h).
Proof.
  unfold new_InfoRecordDouble, store_double, push_back. simpl.
  rewrite lookup_insert_eq. simpl. rewrite lookup_insert_eq. simpl.
  now rewrite !insert_insert_eq.
Qed.

(** [initRecords] on an object, whatever its members and records hold. *)
Lemma initRecords_insert notset this (h : Heap) o :
  exists s rs,
    initRecords notset this (<[this := o]> h)
    = Some (<[this := {| base := s; records := records o ++ rs |}]> h) /\
    length rs = 12%nat /\
    Forall (fun r => record_target r = this /\ holds_default s r) rs /\
    NoDup (record_name <$> rs) /\
    unrecorded s = unrecorded (base o).
Proof.
  unfold initRecords. cbv zeta.
  repeat first [rewrite init_step_int | rewrite init_step_double].
  cbn [base records]. rewrite <- !app_assoc. cbn [app].
  eexists _, _. split; [reflexivity|].
  split; [reflexivity|]. split; [|split; [|reflexivity]].
  - repeat constructor.
  - apply (bool_decide_unpack _). vm_compute. reflexivity.
Qed.

Lemma initRecords_run notset this (h : Heap) o :
  h !! this = Some o ->
  exists s rs,
    initRecords notset this h
    = Some (<[this := {| base := s; records := records o ++ rs |}]> h) /\
    length rs = 12%nat /\
    Forall (fun r => record_target r = this /\ holds_default s r) rs /\
    NoDup (record_name <$> rs) /\
    unrecorded s = unrecorded (base o).
Proof.
  intros Ho. destruct (initRecords_insert notset this h o) as (s & rs & E & H).
  rewrite (insert_id h this o Ho) in E. eauto.
Qed.

(** X14.  [initRecords], on an object whose members and records hold
    anything: it returns, appends twelve records with twelve different names
    to [records] (it does not look whether [records] is empty), each
    pointing to a member of this object, and leaves every member that a
    record points to at the record's default value.  The members [valid],
    [mip_node_count], [mip_dual_bound] and [mip_gap], to which no record
    points, keep what they held, and no other object changes. *)
Theorem initRecords_appends_defaults (kHighsPrimalDualStatusNotset : Z)
    (this : nat) (h : Heap) (o : HighsInfo) :
  h !! this = Some o ->
  exists h' o' rs,
    initRecords kHighsPrimalDualStatusNotset this h = Some h' /\
    h' !! this = Some o' /\
    records o' = records o ++ rs /\ length rs = 12%nat /\
    Forall (fun r => record_target r = this /\ holds_default (base o') r) rs /\
    NoDup (record_name <$> rs) /\
    unrecorded (base o') = unrecorded (base o) /\
    (forall a, a <> this -> h' !! a = h !! a).
Proof.
  intros Ho.
  destruct (initRecords_run kHighsPrimalDualStatusNotset this h o Ho)
    as (s & rs & E & Hlen & Hall & Hnd & Hun).
  eexists _, _, rs. split; [exact E|]. split; [apply lookup_insert_eq|].
  split; [reflexivity|]. split; [exact Hlen|]. split; [exact Hall|].
  split; [exact Hnd|]. split; [exact Hun|].
  intros a Ha. now apply lookup_insert_ne.
Qed.

Lemma initRecords_appends_defaults_witness :
  exists h' o' rs,
    initRecords (-1) 0%nat (allocated ∅ 0%nat info_junk) = Some h' /\
    h' !! 0%nat = Some o' /\
    records o' = [] ++ rs /\ length rs = 12%nat /\
    Forall (fun r => record_target r = 0%nat /\ holds_default (base o') r) rs /\
    NoDup (record_name <$> rs) /\
    unrecorded (base o') = (true, 77, 7%float, 8%float) /\
    (forall a, a <> 0%nat -> h' !! a = allocated ∅ 0%nat info_junk !! a).
Proof.
  apply (initRecords_appends_defaults (-1) 0%nat (allocated ∅ 0%nat info_junk)
           {| base := info_junk; records := [] |}).
  apply lookup_insert_eq.
Defined.

Lemma struct_assign_run (h : Heap) this t s :
  h !! this = Some t ->
  struct_assign h this s
  = Some (<[this := {| base := s; records := records t |}]> h).
Proof. intros Ht. unfold struct_assign. now rewrite Ht. Qed.

Lemma records_into_app a o rs :
  records_into a o ->
  Forall (fun r => record_target r = a) rs ->
  Forall (fun r => record_target r = a) (records o ++ rs).
Proof. intros Ho Hrs. apply Forall_app. now split. Qed.

(** X15.  The default constructor and the copy constructor give the object
    twelve records of its own.  After [HighsInfo()] every record points into
    the new object and its member holds the default; [valid],
    [mip_node_count], [mip_dual_bound] and [mip_gap] hold whatever the
    storage held.  After [HighsInfo(info)] all sixteen members are those of
    [info], the twelve records point into the new object and not into
    [info], and [info] is unchanged. *)
Theorem constructors_own_records (kHighsPrimalDualStatusNotset : Z)
    (this : nat) (junk : HighsInfoStruct) (h : Heap) :
  (exists h' o',
     HighsInfo_default kHighsPrimalDualStatusNotset this junk h = Some h' /\
     h' !! this = Some o' /\
     length (records o') = 12%nat /\ records_into this o' /\
     Forall (holds_default (base o')) (records o') /\
     unrecorded (base o') = unrecorded junk /\
     (forall a, a <> this -> h' !! a = h !! a)) /\
  (forall info oi, info <> this -> h !! info = Some oi ->
     exists h' o',
       HighsInfo_copy kHighsPrimalDualStatusNotset this junk info h = Some h' /\
       h' !! this = Some o' /\
       base o' = base oi /\
       length (records o') = 12%nat /\ records_into this o' /\
       h' !! info = Some oi /\
       (forall a, a <> this -> h' !! a = h !! a)).
Proof.
  destruct (initRecords_insert kHighsPrimalDualStatusNotset this h
              {| base := junk; records := [] |})
    as (s & rs & E & Hlen & Hall & Hnd & Hun).
  simpl in E, Hun. split.
  - eexists _, _. split; [exact E|]. split; [apply lookup_insert_eq|].
    split; [exact Hlen|]. split; [|split; [|split; [exact Hun|]]].
    + eapply Forall_impl; [exact Hall|]. now intros r [? _].
    + eapply Forall_impl; [exact Hall|]. now intros r [_ ?].
    + intros a Ha. now apply lookup_insert_ne.
  - intros info oi Hne Hi. unfold HighsInfo_copy, allocated.
    rewrite E. simpl. rewrite lookup_insert_ne by auto. rewrite Hi. simpl.
    rewrite (struct_assign_run _ this _ _ (lookup_insert_eq _ _ _)).
    rewrite insert_insert_eq.
    eexists _, _. split; [reflexivity|]. split; [apply lookup_insert_eq|].
    split; [reflexivity|]. split; [exact Hlen|]. split; [|split].
    + eapply Forall_impl; [exact Hall|]. now intros r [? _].
    + rewrite lookup_insert_ne by auto. exact Hi.
    + intros a Ha. now apply lookup_insert_ne.
Qed.

(** Object 0 built as a copy of an object at address 1. *)
Lemma constructors_own_records_witness :
  exists h' o',
    HighsInfo_copy (-1) 0%nat info_junk 1%nat (allocated ∅ 1%nat info_junk)
    = Some h' /\
    h' !! 0%nat = Some o' /\
    base o' = info_junk /\
    length (records o') = 12%nat /\ records_into 0%nat o'.
Proof.
  destruct (constructors_own_records (-1) 0%nat info_junk
              (allocated ∅ 1%nat info_junk)) as [_ Hcopy].
  destruct (Hcopy 1%nat {| base := info_junk; records := [] |})
    as (h' & o' & E & Ho & Hb & Hlen & Hinto & _);
    [lia | apply lookup_insert_eq |].
  exists h', o'. auto.
Defined.

(** X16.  Assignment copies the members and leaves the records alone.
    [a = b] with [b] another object returns with all sixteen members of [a]
    equal to those of [b]; if [a] had records they are the same records as
    before, so repeated assignment never grows the vector, and only if [a]
    had none does it get twelve, pointing into [a].  No other object
    changes.  [a = a] changes nothing.  The move assignment does what the
    copy assignment does. *)
Theorem assign_keeps_records (kHighsPrimalDualStatusNotset : Z)
    (this other : nat) (h : Heap) (t o : HighsInfo) :
  h !! this = Some t -> h !! other = Some o ->
  assign kHighsPrimalDualStatusNotset this this h = Some h /\
  move_assign kHighsPrimalDualStatusNotset this other h
  = assign kHighsPrimalDualStatusNotset this other h /\
  (other <> this ->
   exists h' t',
     assign kHighsPrimalDualStatusNotset this other h = Some h' /\
     h' !! this = Some t' /\
     base t' = base o /\
     (records t <> [] -> records t' = records t) /\
     (records t = [] ->
      length (records t') = 12%nat /\ records_into this t') /\
     (forall a, a <> this -> h' !! a = h !! a)).
Proof.
  intros Ht Ho. split; [|split; [reflexivity|]].
  - unfold assign. now rewrite decide_False by auto.
  - intros Hne. unfold assign. rewrite decide_True by assumption.
    rewrite Ht. simpl.
    destruct (decide (length (records t) = 0%nat)) as [Hz|Hnz].
    + destruct (initRecords_run kHighsPrimalDualStatusNotset this h t Ht)
        as (s & rs & E & Hlen & Hall & _ & _).
      rewrite E. simpl. rewrite lookup_insert_ne by auto. rewrite Ho. simpl.
      rewrite (struct_assign_run _ this _ _ (lookup_insert_eq _ _ _)).
      rewrite insert_insert_eq.
      eexists _, _. split; [reflexivity|]. split; [apply lookup_insert_eq|].
      split; [reflexivity|]. simpl. split; [|split].
      * intros Hrec. destruct (records t); [contradiction|discriminate].
      * intros Hrec. rewrite Hrec. simpl. split; [exact Hlen|].
        unfold records_into. simpl.
        eapply Forall_impl; [exact Hall|]. now intros r [? _].
      * intros a Ha. now apply lookup_insert_ne.
    + simpl. rewrite Ho. simpl. rewrite (struct_assign_run _ this _ _ Ht).
      eexists _, _. split; [reflexivity|]. split; [apply lookup_insert_eq|].
      split; [reflexivity|]. simpl. split; [|split].
      * reflexivity.
      * intros Hrec. rewrite Hrec in Hnz. contradiction.
      * intros a Ha. now apply lookup_insert_ne.
Qed.

Lemma assign_keeps_records_witness :
  exists h' t',
    assign (-1) 0%nat 1%nat
      (allocated (allocated ∅ 1%nat info_junk) 0%nat info_junk) = Some h' /\
    h' !! 0%nat = Some t' /\
    base t' = info_junk /\
    length (records t') = 12%nat /\ records_into 0%nat t'.
Proof.
  destruct (assign_keeps_records (-1) 0%nat 1%nat
              (allocated (allocated ∅ 1%nat info_junk) 0%nat info_junk)
              {| base := info_junk; records := [] |}
              {| base := info_junk; records := [] |})
    as (_ & _ & Hrun).
  - apply lookup_insert_eq.
  - unfold allocated. rewrite lookup_insert_ne by lia. apply lookup_insert_eq.
  - destruct Hrun as (h' & t' & E & Ht & Hb & _ & Hrec & _); [lia|].
    exists h', t'. destruct (Hrec eq_refl). auto.
Defined.

(** X17.  The move constructor leaves the new object with records that
    point into the object moved from.  After [HighsInfo b(std::move(a))],
    where [a] has records of its own, the members of [b] are those of [a]
    and the records of [b] are the records [a] had: every one of them points
    to a member of [a], none to a member of [b].  A later assignment to [b]
    copies members and keeps those records. *)
Theorem move_ctor_aliases (kHighsPrimalDualStatusNotset : Z)
    (moved_from : list InfoRecord -> list InfoRecord)
    (this : nat) (junk : HighsInfoStruct) (info : nat) (h : Heap)
    (oi : HighsInfo) :
  info <> this -> h !! info = Some oi ->
  records_into info oi -> records oi <> [] ->
  exists h1 t1,
    HighsInfo_move moved_from this junk info h = Some h1 /\
    h1 !! this = Some t1 /\
    base t1 = base oi /\ records t1 = records oi /\
    records_into info t1 /\ ~ records_into this t1 /\
    (forall other oo, other <> this -> h1 !! other = Some oo ->
       exists h2 t2,
         assign kHighsPrimalDualStatusNotset this other h1 = Some h2 /\
         h2 !! this = Some t2 /\
         base t2 = base oo /\ records t2 = records oi /\
         records_into info t2).
Proof.
  intros Hne Hi Hinto Hrec. unfold HighsInfo_move, allocated.
  rewrite (lookup_insert_ne _ this info) by lia. rewrite Hi. simpl.
  rewrite lookup_insert_eq. simpl. rewrite lookup_insert_eq. simpl.
  rewrite (struct_assign_run _ this {| base := junk; records := records oi |})
    by (rewrite lookup_insert_ne by lia; apply lookup_insert_eq).
  eexists _, _. split; [reflexivity|]. split; [apply lookup_insert_eq|].
  split; [reflexivity|]. split; [reflexivity|]. split; [exact Hinto|].
  split.
  - unfold records_into. simpl. intros Hthis.
    destruct (records oi) as [|r rs] eqn:Er; [contradiction|].
    unfold records_into in Hinto. rewrite Er in Hinto.
    apply Forall_cons in Hinto as [Hr _]. apply Forall_cons in Hthis as [Hr' _].
    congruence.
  - intros other oo Hother Hoo. unfold assign.
    rewrite decide_True by assumption. rewrite lookup_insert_eq. simpl.
    rewrite decide_False
      by (simpl; destruct (records oi); [contradiction|discriminate]).
    simpl in Hoo |- *. rewrite Hoo. simpl.
    rewrite (struct_assign_run _ this _ _ (lookup_insert_eq _ _ _)).
    eexists _, _. split; [reflexivity|]. split; [apply lookup_insert_eq|].
    split; [reflexivity|]. split; [reflexivity|]. exact Hinto.
Qed.

(** Object 0 built by moving from an object at address 1 that has one
    record, pointing to its own [primal_status]. *)
Lemma move_ctor_aliases_witness :
  exists h1 t1,
    HighsInfo_move (fun _ => []) 0%nat info_junk 1%nat
      (<[1%nat := {| base := info_junk;
                     records := [InfoRecordInt "primal_status" "" false
                                   (1%nat, m_primal_status) (-1)] |}]> ∅)
    = Some h1 /\
    h1 !! 0%nat = Some t1 /\
    base t1 = info_junk /\
    records_into 1%nat t1 /\ ~ records_into 0%nat t1.
Proof.
  destruct (move_ctor_aliases (-1) (fun _ => []) 0%nat info_junk 1%nat
              (<[1%nat := {| base := info_junk;
                             records := [InfoRecordInt "primal_status" "" false
                                           (1%nat, m_primal_status) (-1)] |}]> ∅)
              {| base := info_junk;
                 records := [InfoRecordInt "primal_status" "" false
                               (1%nat, m_primal_status) (-1)] |})
    as (h1 & t1 & E & Ht & Hb & _ & Hin & Hnot & _).
  - lia.
  - apply lookup_insert_eq.
  - repeat constructor.
  - discriminate.
  - exists h1, t1. auto.
Defined.
